(** * PDF-to-AudioBook: a shallow embedding of [main.py] and its properties

    The script is a linear pipeline: pick a PDF, extract its text, ask the
    user for voice / rate / mode / format, then record and/or speak the text
    in chunks.  This development embeds the script function by function and
    proves (or refutes) the properties stated about it.

    Conventions.
    - A Python [str] is a sequence of Unicode code points: [list N].
    - Lengths and positions ([len], [enumerate], slicing bounds) are [nat];
      Python integers that come from arithmetic or from [int(...)] are [Z].
    - Everything that lives outside the script (the file dialog, the PDF
      library, the speech engine, the transcoder, the console, the Unicode
      case tables of the interpreter) is a field of the record [World].
    - Effects are threaded explicitly: a computation takes the run-time
      state (pending console input, files on disk, the engine queue and
      the trace of observable events) and returns a result or a raised
      exception together with the new state. *)

From stdpp Require Import base list numbers strings gmap.
From Stdlib Require Ascii String QArith_base.

Local Open Scope N_scope.

(** ** Strings *)

Abbreviation char := N (only parsing).
Abbreviation str := (list N) (only parsing).

(** An ASCII literal as a Python string. *)
Definition lit (s : string) : str :=
  map Ascii.N_of_ascii (String.list_ascii_of_string s).
Arguments lit s : simpl never.

Module Unicode.

(** [str.isspace] for one code point, i.e. CPython's
    [_PyUnicode_IsWhitespace]: the characters removed by [str.strip()]
    and [str.split()] when called without arguments. *)
Definition isspace (c : char) : bool :=
  (0x09 <=? c) && (c <=? 0x0D) || (0x1C <=? c) && (c <=? 0x20)
  || (c =? 0x85) || (c =? 0xA0) || (c =? 0x1680)
  || (0x2000 <=? c) && (c <=? 0x200A)
  || (c =? 0x2028) || (c =? 0x2029) || (c =? 0x202F)
  || (c =? 0x205F) || (c =? 0x3000).

(** The code points of the digit zero of every decimal script
    (general category Nd); the nine code points after each of them are
    the digits one to nine of that script. *)
Definition decimal_zeros : list char :=
  [ 0x30; 0x660; 0x6F0; 0x7C0; 0x966; 0x9E6; 0xA66; 0xAE6; 0xB66; 0xBE6;
    0xC66; 0xCE6; 0xD66; 0xDE6; 0xE50; 0xED0; 0xF20; 0x1040; 0x1090;
    0x17E0; 0x1810; 0x1946; 0x19D0; 0x1A80; 0x1A90; 0x1B50; 0x1BB0;
    0x1C40; 0x1C50; 0xA620; 0xA8D0; 0xA900; 0xA9D0; 0xA9F0; 0xAA50;
    0xABF0; 0xFF10; 0x104A0; 0x10D30; 0x11066; 0x110F0; 0x11136;
    0x111D0; 0x112F0; 0x11450; 0x114D0; 0x11650; 0x116C0; 0x11730;
    0x118E0; 0x11950; 0x11C50; 0x11D50; 0x11DA0; 0x16A60; 0x16AC0;
    0x16B50; 0x1D7CE; 0x1D7D8; 0x1D7E2; 0x1D7EC; 0x1D7F6; 0x1E140;
    0x1E2F0; 0x1E950; 0x1FBF0 ].

(** Code points with Numeric_Type=Digit that are not decimal digits
    (superscripts, subscripts, circled digits, ...), as inclusive
    ranges.  [str.isdigit] accepts them, [int] does not. *)
Definition digit_only_ranges : list (char * char) :=
  [ (0xB2, 0xB3); (0xB9, 0xB9); (0x1369, 0x1371); (0x19DA, 0x19DA);
    (0x2070, 0x2070); (0x2074, 0x2079); (0x2080, 0x2089);
    (0x2460, 0x2468); (0x2474, 0x247C); (0x2488, 0x2490);
    (0x24EA, 0x24EA); (0x24F5, 0x24FD); (0x24FF, 0x24FF);
    (0x2776, 0x277E); (0x2780, 0x2788); (0x278A, 0x2792);
    (0x10A40, 0x10A43); (0x10E60, 0x10E68); (0x11052, 0x1105A);
    (0x1F100, 0x1F10A) ].

(** The decimal value of a code point, when it is a decimal digit. *)
Definition decimal_value (c : char) : option Z :=
  match List.find (fun z => (z <=? c) && (c <? z + 10)) decimal_zeros with
  | Some z => Some (Z.of_N (c - z))
  | None => None
  end.

Definition isdecimal (c : char) : bool :=
  match decimal_value c with Some _ => true | None => false end.

(** [str.isdigit] for one code point. *)
Definition isdigit (c : char) : bool :=
  isdecimal c
  || existsb (fun r => (fst r <=? c) && (c <=? snd r)) digit_only_ranges.

Definition is_ascii (c : char) : bool := c <? 0x80.

(** Case mapping of the ASCII letters. *)
Definition ascii_upper (c : char) : char :=
  if (0x61 <=? c) && (c <=? 0x7A) then c - 0x20 else c.

Definition ascii_lower (c : char) : char :=
  if (0x41 <=? c) && (c <=? 0x5A) then c + 0x20 else c.

End Unicode.

(** ** Exceptions and results *)

Inductive value_error :=
  | IntOfStr (s : str)   (* int(s): s is not a base-10 literal, or too long *)
  | RangeStepZero.       (* range(): arg 3 must not be zero *)

Inductive exn :=
  | SystemExit (msg : str)
  | EOFError
  | ValueError (why : value_error)
  | IndexError
  | CalledProcessError (returncode : Z) (cmd : list str).

Inductive Result (A : Type) :=
  | Ok (a : A)
  | Raise (e : exn).
Arguments Ok {A} a.
Arguments Raise {A} e.

(** ** The string methods the script uses *)

Module Str.

Definition is_empty (s : str) : bool :=
  match s with [] => true | _ => false end.

Fixpoint lstrip (s : str) : str :=
  match s with
  | c :: rest => if Unicode.isspace c then lstrip rest else s
  | [] => []
  end.

Definition rstrip (s : str) : str := reverse (lstrip (reverse s)).

(** [s.strip()] *)
Definition strip (s : str) : str := rstrip (lstrip s).

(** [s.split()]: scan left to right; [word] is the current run of
    non-whitespace characters, most recent first. *)
Fixpoint split_from (word : str) (s : str) : list str :=
  match s with
  | [] => match word with [] => [] | _ => [reverse word] end
  | c :: rest =>
      if Unicode.isspace c then
        match word with
        | [] => split_from [] rest
        | _ => reverse word :: split_from [] rest
        end
      else split_from (c :: word) rest
  end.

Definition split (s : str) : list str := split_from [] s.

(** [sep.join(parts)] *)
Fixpoint join (sep : str) (parts : list str) : str :=
  match parts with
  | [] => []
  | [p] => p
  | p :: ps => p ++ sep ++ join sep ps
  end.

(** [s.isdigit()]: non-empty and every character is a digit. *)
Definition isdigit (s : str) : bool :=
  negb (is_empty s) && forallb Unicode.isdigit s.

(** [s == t] and [s in {t1, ..., tn}] *)
Definition eqb (a b : str) : bool := bool_decide (a = b).

Definition mem (s : str) (set : list str) : bool := existsb (eqb s) set.

(** [s.upper()].  Upper-casing works character by character; a character
    outside ASCII is looked up in the interpreter's case table [tbl] and
    may expand to several characters. *)
Definition upper (tbl : char -> str) (s : str) : str :=
  flat_map
    (fun c => if Unicode.is_ascii c then [Unicode.ascii_upper c] else tbl c) s.

(** [s.lower()].  Also character by character, but the lower case of a
    character outside ASCII may depend on its position in the string (the
    final-sigma rule), so the table [tbl] sees the string and the
    position. *)
Definition lower (tbl : str -> nat -> str) (s : str) : str :=
  concat
    (imap (fun i c =>
             if Unicode.is_ascii c then [Unicode.ascii_lower c] else tbl s i)
          s).

(** [str(n)] for [n >= 0]: the decimal digits, most significant first. *)
Fixpoint digits_upto (fuel n : nat) : str :=
  match fuel with
  | O => []
  | S fuel' =>
      if (n <? 10)%nat then [0x30 + N.of_nat n]
      else digits_upto fuel' (n / 10)%nat ++ [0x30 + N.of_nat (n mod 10)%nat]
  end.

Definition of_nat (n : nat) : str := digits_upto (S n) n.

(** [str(z)] *)
Definition of_Z (z : Z) : str :=
  if (z <? 0)%Z then lit "-" ++ of_nat (Z.abs_nat z) else of_nat (Z.to_nat z).

(** [f"{n:03d}"] for [n >= 0]: zero-padded to at least three digits. *)
Definition format_03d (n : nat) : str :=
  let d := of_nat n in repeat 0x30 (3 - length d)%nat ++ d.

(** The value of a sequence of decimal digits, most significant first. *)
Definition horner (ds : list Z) : Z :=
  fold_left (fun acc d => (10 * acc + d)%Z) ds 0%Z.

(** The interpreter refuses to convert longer digit strings
    ([sys.get_int_max_str_digits()], 4300 unless reconfigured). *)
Definition int_max_str_digits : nat := 4300.

(** [int(s)] for a string without sign, underscore or surrounding
    whitespace, which is what the guard [s.isdigit()] leaves at both call
    sites.  The digits of any decimal script are accepted; every other
    character, an empty string and a string longer than
    [int_max_str_digits] raise [ValueError]. *)
Definition to_int (s : str) : Result Z :=
  match s, mapM Unicode.decimal_value s with
  | _ :: _, Some ds =>
      if (int_max_str_digits <? length s)%nat
      then Raise (ValueError (IntOfStr s))
      else Ok (horner ds)
  | _, _ => Raise (ValueError (IntOfStr s))
  end.

End Str.

(** [" ".join(text.split())], the normalisation done at line 96. *)
Definition normalize (text : str) : str :=
  Str.join (lit " ") (Str.split text).

(** ** 4) Chunking *)

(** [range(0, stop, step)] for [stop >= 0]: an error for a zero step,
    empty for a negative step, and otherwise the [ceil(stop/step)]
    multiples of [step] below [stop]. *)
Definition range0 (stop : nat) (step : Z) : Result (list nat) :=
  if (step =? 0)%Z then Raise (ValueError RangeStepZero)
  else if (step <? 0)%Z then Ok []
  else
    let m := Z.to_nat step in
    Ok (map (fun k => (k * m)%nat) (seq 0 ((stop + m - 1) / m)%nat)).

(** [text[i : i + n]] for [i >= 0] and [n > 0]. *)
Definition slice (text : str) (i n : nat) : str := take n (drop i text).

(** [chunk_text(text, max_chars)] with the generator run to its end. *)
Definition chunk_text (text : str) (max_chars : Z) : Result (list str) :=
  let text := normalize text in
  match range0 (length text) max_chars with
  | Raise e => Raise e
  | Ok starts => Ok (map (fun i => slice text i (Z.to_nat max_chars)) starts)
  end.

Definition default_max_chars : Z := 1200.


(** ** Paths ([pathlib.Path]) *)

(** A path is its directory part and its final component. *)
Record Path := mkPath { parent : str; name : str }.

#[global] Instance Path_eq_dec : EqDecision Path.
Proof. solve_decision. Defined.

#[global] Instance Path_countable : Countable Path :=
  inj_countable' (fun p => (parent p, name p)) (fun q => mkPath q.1 q.2)
                 (fun p => match p with mkPath _ _ => eq_refl end).

Module PathLib.

(** [str(p)] *)
Definition to_str (p : Path) : str := parent p ++ lit "/" ++ name p.

(** [p / child] for a child without separator. *)
Definition joinpath (p : Path) (child : str) : Path :=
  mkPath (to_str p) child.

(** [s.rfind(".")]: the position of the last dot, if there is one. *)
Fixpoint rfind_dot (s : str) : option nat :=
  match s with
  | [] => None
  | c :: rest =>
      match rfind_dot rest with
      | Some i => Some (S i)
      | None => if c =? 0x2E then Some O else None
      end
  end.

(** The position where the suffix of a file name starts: the last dot,
    unless it is the first or the last character of the name. *)
Definition suffix_start (name : str) : option nat :=
  match rfind_dot name with
  | Some i => if (0 <? i)%nat && (i <? length name - 1)%nat then Some i else None
  | None => None
  end.

(** [p.stem] *)
Definition stem (p : Path) : str :=
  match suffix_start (name p) with
  | Some i => take i (name p)
  | None => name p
  end.

(** [p.with_suffix(suffix)] for a well-formed suffix and a path with a
    name, which is how the script calls it. *)
Definition with_suffix (p : Path) (suffix : str) : Path :=
  match suffix_start (name p) with
  | Some i => mkPath (parent p) (take i (name p) ++ suffix)
  | None => mkPath (parent p) (name p ++ suffix)
  end.

End PathLib.

(** ** The world outside the script *)

(** A voice object of the engine; an attribute that is missing or [None]
    is [None] here. *)
Record Voice := mkVoice { v_name : option str; v_id : option str }.

(** The properties the script sets on an engine. *)
Record EngineProps := mkProps {
  prop_rate : option Z;
  prop_volume : option QArith_base.Q;
  prop_voice : option str
}.

(** The contents of an audio file. *)
Abbreviation audio := (list N) (only parsing).

Record World := mkWorld {
  (** what [askopenfilename] returns; empty when the user cancels *)
  dialog_result : str;
  (** [Path(s).expanduser().resolve()] *)
  resolve : str -> Path;
  (** [Path.cwd()] *)
  cwd : Path;
  (** [page.extract_text()] for every page of the PDF at a path *)
  pdf_pages : Path -> list (option str);
  (** [engine.getProperty("voices")] *)
  engine_voices : option (list Voice);
  (** the audio the engine synthesises for a text *)
  tts : EngineProps -> str -> audio;
  (** whether [shutil.which("ffmpeg")] finds the transcoder *)
  ffmpeg_found : bool;
  (** one run of the transcoder on an input file with the given contents
      ([None] when the file is missing): its exit code, and what it wrote
      to its output file, if anything *)
  ffmpeg : Path -> option audio -> Z * option audio;
  (** the interpreter's case tables outside ASCII *)
  upper_table : char -> str;
  lower_table : str -> nat -> str
}.

(** ** Observable events and the run-time state *)

Inductive PropValue :=
  | PInt (z : Z)
  | PFloat (q : QArith_base.Q)
  | PStr (s : str).

Inductive Event :=
  | Print (text : str)                   (* print(...), without the newline *)
  | Prompt (text : str)                  (* input(text) writes its prompt *)
  | FileDialog                           (* the Tk window and its dialog *)
  | EngineInit                           (* pyttsx3.init() *)
  | GetVoices                            (* engine.getProperty("voices") *)
  | SetProperty (name : str) (v : PropValue)
  | SaveToFile (text : str) (file : str) (* engine.save_to_file *)
  | Say (text : str)                     (* engine.say *)
  | RunAndWait                           (* engine.runAndWait() *)
  | Spoken (props : EngineProps) (text : str) (* audio played *)
  | Mkdir (dir : Path)
  | Subprocess (argv : list str) (returncode : Z).

(** A command waiting in the engine's queue until [runAndWait]. *)
Inductive Command :=
  | ToFile (text : str) (file : Path)
  | Speak (text : str).

Record State := mkState {
  stdin : list str;            (* the lines the user will type *)
  disk : gmap Path (list N);   (* the audio files on disk *)
  props : EngineProps;         (* the engine's current properties *)
  queue : list Command;        (* the engine's pending commands *)
  trace : list Event           (* what has happened so far, oldest first *)
}.

Definition set_stdin (l : list str) (st : State) : State :=
  mkState l (disk st) (props st) (queue st) (trace st).
Definition set_disk (d : gmap Path (list N)) (st : State) : State :=
  mkState (stdin st) d (props st) (queue st) (trace st).
Definition set_props (p : EngineProps) (st : State) : State :=
  mkState (stdin st) (disk st) p (queue st) (trace st).
Definition set_queue (q : list Command) (st : State) : State :=
  mkState (stdin st) (disk st) (props st) q (trace st).
Definition add_events (evs : list Event) (st : State) : State :=
  mkState (stdin st) (disk st) (props st) (queue st) (trace st ++ evs).

(** ** Computations: state passing with exceptions *)

Definition M (A : Type) : Type := State -> Result A * State.

#[global] Instance M_ret : MRet M := fun A a st => (Ok a, st).

#[global] Instance M_bind : MBind M := fun A B f m st =>
  match m st with
  | (Ok a, st') => f a st'
  | (Raise e, st') => (Raise e, st')
  end.

Definition raise {A} (e : exn) : M A := fun st => (Raise e, st).

Definition emit (e : Event) : M unit := fun st => (Ok tt, add_events [e] st).

Definition print (text : str) : M unit := emit (Print text).

Definition lift {A} (r : Result A) : M A := fun st => (r, st).

(** [for x in l: acc = body(acc, x)] *)
Fixpoint for_each {A B} (l : list A) (acc : B) (body : B -> A -> M B) : M B :=
  match l with
  | [] => mret acc
  | x :: rest => acc' ← body acc x; for_each rest acc' body
  end.

(** [enumerate(l, start)] *)
Definition enumerate {A} (l : list A) (start : nat) : list (nat * A) :=
  zip (seq start (length l)) l.

(** *** Prompt loops

    The three interactive loops of the script have one shape:
    [while True: s = input(prompt); ...], where the rest of the body
    looks at [s] only, may print, and either returns, raises, or falls
    through to the next round.  [input] raises [EOFError] when the console
    has no more lines. *)

Inductive Step (A : Type) :=
  | Return (a : A)      (* return a *)
  | Again               (* reach the end of the loop body *)
  | Throw (e : exn).    (* an exception escapes *)
Arguments Return {A} a.
Arguments Again {A}.
Arguments Throw {A} e.

(** One round of a loop body: what it printed and how it ended. *)
Definition Round (A : Type) : Type := list str * Step A.

Fixpoint ask_from {A} (prompt : str) (body : str -> Round A)
    (lines : list str) (st : State) : Result A * State :=
  match lines with
  | [] => (Raise EOFError, add_events [Prompt prompt] (set_stdin [] st))
  | line :: rest =>
      let (printed, step) := body line in
      let st' := add_events (Prompt prompt :: map Print printed)
                            (set_stdin rest st) in
      match step with
      | Return a => (Ok a, st')
      | Again => ask_from prompt body rest st'
      | Throw e => (Raise e, st')
      end
  end.

Definition ask_until {A} (prompt : str) (body : str -> Round A) : M A :=
  fun st => ask_from prompt body (stdin st) st.

(** * The script *)

(** ** 1) Settings *)

Record TTSSettings := mkSettings {
  voice_id : option str;
  rate : Z;
  mode : str;          (* "S" speak, "R" record, "B" both *)
  save_format : str    (* "wav" or "mp3" *)
}.

Definition newline : str := [0x0A].

(** [x or default] for an optional string [x]. *)
Definition str_or (x : option str) (default : str) : str :=
  match x with
  | Some (c :: s) => c :: s
  | _ => default
  end.

(** ** 2) File picker *)

Definition pick_pdf_file (w : World) : M (option Path) :=
  emit FileDialog;;
  let file_path := dialog_result w in
  if Str.is_empty file_path then mret None
  else mret (Some (resolve w file_path)).

(** ** 3) PDF text extraction *)

Definition page_line (i total chars : nat) : str :=
  lit "Page " ++ Str.of_nat i ++ lit "/" ++ Str.of_nat total
  ++ lit " chars=" ++ Str.of_nat chars.

(** The body of the loop over the pages, lines 79 to 82. *)
Definition extract_page (total : nat) (parts : list str)
    (numbered : nat * option str) : M (list str) :=
  let (i, page) := numbered in
  let text := Str.strip (str_or page []) in
  print (page_line i total (length text));;
  if negb (Str.is_empty text) then mret (parts ++ [text]) else mret parts.

Definition extract_pdf_text (w : World) (pdf_path : Path) : M str :=
  let pages := pdf_pages w pdf_path in
  if bool_decide (pages = []) then mret []
  else
    let total := length pages in
    parts ← for_each (enumerate pages 1) [] (extract_page total);
    mret (Str.strip (Str.join newline parts)).

(** ** The error messages of the prompts *)

Definition invalid_voice : str := lit "Invalid choice. Try again.".

Definition invalid_rate : str :=
  lit "Invalid rate. Enter a number between 80 and 350 (or press Enter).".

Definition invalid_mode : str := lit "Invalid mode. Choose S, R, or B.".

Definition invalid_format : str := lit "Invalid choice. Choose wav or mp3.".

(** ** 5) Voice selection *)

Definition list_voices (w : World) : M (list (nat * str * str)) :=
  emit GetVoices;;
  let voices := default [] (engine_voices w) in
  mret (map (fun '(idx, v) =>
               (idx, str_or (v_name v) (lit "Unknown"), str_or (v_id v) []))
            (enumerate voices 0)).

Definition voice_prompt : str :=
  newline ++ lit "Choose a voice number (Enter for default): ".

Definition voice_round (items : list (nat * str * str)) (line : str)
    : Round (option str) :=
  let s := Str.strip line in
  if Str.is_empty s then ([], Return None)
  else
    let invalid := ([invalid_voice], Again) in
    if Str.isdigit s then
      match Str.to_int s with
      | Raise e => ([], Throw e)
      | Ok i =>
          if (0 <=? i)%Z && (i <? Z.of_nat (length items))%Z then
            match items !! Z.to_nat i with
            | Some item => ([], Return (Some item.2))
            | None => ([], Throw IndexError)
            end
          else invalid
      end
    else invalid.

Definition voice_line (item : nat * str * str) : str :=
  lit "  [" ++ Str.of_nat item.1.1 ++ lit "] " ++ item.1.2.

Definition choose_voice (w : World) : M (option str) :=
  items ← list_voices w;
  if bool_decide (items = []) then
    print (lit "No voices found. Using default voice.");;
    mret None
  else
    print (newline ++ lit "Available voices:");;
    for_each items tt (fun _ item => print (voice_line item));;
    ask_until voice_prompt (voice_round items).

(** ** 6) Rate, mode and format selection *)

Definition rate_prompt (default_rate : Z) : str :=
  lit "Choose speed/rate (default " ++ Str.of_Z default_rate
  ++ lit ", higher=faster): ".

Definition rate_round (default_rate : Z) (line : str) : Round Z :=
  let s := Str.strip line in
  if Str.is_empty s then ([], Return default_rate)
  else
    let invalid := ([invalid_rate], Again) in
    if Str.isdigit s then
      match Str.to_int s with
      | Raise e => ([], Throw e)
      | Ok r => if (80 <=? r)%Z && (r <=? 350)%Z then ([], Return r) else invalid
      end
    else invalid.

Definition choose_rate (default_rate : Z) : M Z :=
  ask_until (rate_prompt default_rate) (rate_round default_rate).

Definition default_rate : Z := 170.

Definition mode_prompt : str := lit "Choose mode [S/R/B] (default S): ".

Definition mode_round (w : World) (line : str) : Round str :=
  let m := Str.upper (upper_table w) (Str.strip line) in
  if Str.is_empty m then ([], Return (lit "S"))
  else if Str.mem m [lit "S"; lit "R"; lit "B"] then ([], Return m)
  else ([invalid_mode], Again).

Definition choose_mode (w : World) : M str :=
  print (newline ++ lit "Mode options:");;
  print (lit "  S = Speak only (no saving)");;
  print (lit "  R = Record only (save audio, no speaking)");;
  print (lit "  B = Both (speak + save)");;
  ask_until mode_prompt (mode_round w).

Definition has_ffmpeg (w : World) : bool := ffmpeg_found w.

Definition format_prompt : str :=
  lit "Choose save format [wav/mp3] (default wav): ".

Definition format_round (w : World) (line : str) : Round str :=
  let s := Str.lower (lower_table w) (Str.strip line) in
  if Str.is_empty s then ([], Return (lit "wav"))
  else if Str.mem s [lit "wav"; lit "mp3"] then ([], Return s)
  else ([invalid_format], Again).

Definition format_menu : list str :=
  [ newline ++ lit "Save format options:";
    lit "  wav = Universal, but bigger files";
    lit "  mp3 = Smaller files (requires ffmpeg, detected " ++ [0x2705]
      ++ lit ")" ].

Definition choose_save_format (w : World) : M str :=
  if negb (has_ffmpeg w) then mret (lit "wav")
  else
    for_each format_menu tt (fun _ line => print line);;
    ask_until format_prompt (format_round w).

Definition collect_settings (w : World) : M TTSSettings :=
  voice_id ← choose_voice w;
  rate ← choose_rate default_rate;
  mode ← choose_mode w;
  save_format ←
    (if Str.mem mode [lit "R"; lit "B"] then choose_save_format w
     else mret (lit "wav"));
  mret (mkSettings voice_id rate mode save_format).

(** ** 7) Speak and/or save *)

(** [pyttsx3.init()].  The library hands out the engine it already has
    while that one is alive, so the script's three handles share one
    property set and one queue, which is what [State] holds. *)
Definition engine_init : M unit := emit EngineInit.

Definition apply_property (name : str) (v : PropValue) (p : EngineProps)
    : EngineProps :=
  match v with
  | PInt z =>
      if Str.eqb name (lit "rate")
      then mkProps (Some z) (prop_volume p) (prop_voice p) else p
  | PFloat q =>
      if Str.eqb name (lit "volume")
      then mkProps (prop_rate p) (Some q) (prop_voice p) else p
  | PStr s =>
      if Str.eqb name (lit "voice")
      then mkProps (prop_rate p) (prop_volume p) (Some s) else p
  end.

(** [engine.setProperty(name, value)] *)
Definition set_property (name : str) (v : PropValue) : M unit :=
  fun st =>
    (Ok tt, add_events [SetProperty name v]
              (set_props (apply_property name v (props st)) st)).

Definition enqueue (c : Command) : M unit :=
  fun st => (Ok tt, set_queue (queue st ++ [c]) st).

(** [engine.save_to_file(text, str(p))] *)
Definition save_to_file (text : str) (p : Path) : M unit :=
  emit (SaveToFile text (PathLib.to_str p));; enqueue (ToFile text p).

(** [engine.say(text)] *)
Definition say (text : str) : M unit :=
  emit (Say text);; enqueue (Speak text).

(** The engine carries out one queued command. *)
Definition perform (w : World) (c : Command) (st : State) : State :=
  match c with
  | ToFile text p => set_disk (<[p := tts w (props st) text]> (disk st)) st
  | Speak text => add_events [Spoken (props st) text] st
  end.

(** [engine.runAndWait()]: carry out the queue, oldest command first. *)
Definition run_and_wait (w : World) : M unit :=
  fun st =>
    let st1 := add_events [RunAndWait] st in
    (Ok tt, set_queue [] (fold_left (fun s c => perform w c s) (queue st1) st1)).

Definition configure_engine (settings : TTSSettings) : M unit :=
  set_property (lit "rate") (PInt (rate settings));;
  set_property (lit "volume") (PFloat (QArith_base.Qmake 1 1));;
  match voice_id settings with
  | Some (c :: s) => set_property (lit "voice") (PStr (c :: s))
  | _ => mret tt
  end.

(** [f"{base_name}_part{idx:03d}.wav"] *)
Definition part_name (base_name : str) (idx : nat) : str :=
  base_name ++ lit "_part" ++ Str.format_03d idx ++ lit ".wav".

(** The body of the loop over the chunks, lines 248 to 250. *)
Definition save_chunk (base_name : str) (out_dir : Path) (files : list Path)
    (numbered : nat * str) : M (list Path) :=
  let (idx, part) := numbered in
  let p := PathLib.joinpath out_dir (part_name base_name idx) in
  save_to_file part p;;
  mret (files ++ [p]).

Definition save_wav_chunks (text base_name : str) (out_dir : Path)
    : M (list Path) :=
  emit (Mkdir out_dir);;
  chunks ← lift (chunk_text text default_max_chars);
  for_each (enumerate chunks 1) [] (save_chunk base_name out_dir).

Definition ffmpeg_argv (wav_file mp3_file : Path) : list str :=
  [lit "ffmpeg"; lit "-y"; lit "-i";
   PathLib.to_str wav_file; PathLib.to_str mp3_file].

Definition convert_wav_to_mp3 (w : World) (wav_file : Path) : M Path :=
  let mp3_file := PathLib.with_suffix wav_file (lit ".mp3") in
  fun st =>
    let argv := ffmpeg_argv wav_file mp3_file in
    let (returncode, written) := ffmpeg w wav_file (disk st !! wav_file) in
    let d := match written with
             | Some a => <[mp3_file := a]> (disk st)
             | None => disk st
             end in
    let st' := add_events [Subprocess argv returncode] (set_disk d st) in
    if (returncode =? 0)%Z then (Ok mp3_file, st')
    else (Raise (CalledProcessError returncode argv), st').

(** One step of the comprehension at line 318. *)
Definition convert_next (w : World) (saved : list Path) (wav : Path)
    : M (list Path) :=
  mp3 ← convert_wav_to_mp3 w wav;
  mret (saved ++ [mp3]).

Definition speak_text (w : World) (text : str) : M unit :=
  chunks ← lift (chunk_text text default_max_chars);
  for_each chunks tt (fun _ part => say part);;
  run_and_wait w.

(** ** 8) Main *)

Definition no_pdf_message : str := lit "No PDF selected. Exiting.".

Definition no_text_message : str :=
  lit "No extractable text found in this PDF." ++ newline
  ++ lit "If it's a scanned PDF (image-only), you'll need OCR first.".

(** Lines 283 to 300: the PDF, its text and the settings. *)
Definition main_setup (w : World) : M (Path * str * TTSSettings) :=
  picked ← pick_pdf_file w;
  match picked with
  | None => raise (SystemExit no_pdf_message)
  | Some pdf_path =>
      print (lit "Selected: " ++ PathLib.to_str pdf_path);;
      text ← extract_pdf_text w pdf_path;
      if Str.is_empty text then raise (SystemExit no_text_message)
      else
        print (lit "TOTAL chars: " ++ Str.of_nat (length text));;
        engine_init;;
        settings ← collect_settings w;
        configure_engine settings;;
        mret (pdf_path, text, settings)
  end.

(** Lines 306 to 320: the recording phase; the value is [saved_files]. *)
Definition main_record (w : World) (settings : TTSSettings)
    (text base_name : str) (out_dir : Path) : M (list Path) :=
  if Str.mem (mode settings) [lit "R"; lit "B"] then
    print (newline ++ lit "Recording enabled" ++ [0x2026]
           ++ lit " (saving WAV chunks)");;
    engine_init;;
    configure_engine settings;;
    wav_files ← save_wav_chunks text base_name out_dir;
    run_and_wait w;;
    if Str.eqb (save_format settings) (lit "mp3") then
      print (lit "Converting to MP3 (ffmpeg)" ++ [0x2026]);;
      for_each wav_files [] (convert_next w)
    else mret wav_files
  else mret [].

(** Lines 322 to 328: the speaking phase. *)
Definition main_speak (w : World) (settings : TTSSettings) (text : str)
    : M unit :=
  if Str.mem (mode settings) [lit "S"; lit "B"] then
    print (newline ++ lit "Speaking" ++ [0x2026]);;
    engine_init;;
    configure_engine settings;;
    speak_text w text
  else mret tt.

(** Lines 331 to 337: the report of the saved files. *)
Definition report (saved_files : list Path) (out_dir : Path) : list str :=
  if bool_decide (saved_files = []) then []
  else
    [newline ++ lit "Saved " ++ Str.of_nat (length saved_files)
       ++ lit " file(s) in: " ++ PathLib.to_str out_dir]
    ++ map (fun f => lit " - " ++ name f) (take 10 saved_files)
    ++ (if (10 <? length saved_files)%nat then [lit " ..."] else []).

Definition main_report (saved_files : list Path) (out_dir : Path) : M unit :=
  for_each (report saved_files out_dir) tt (fun _ line => print line).

(** Lines 302 to 337. *)
Definition main_run (w : World) (pdf_path : Path) (text : str)
    (settings : TTSSettings) : M unit :=
  let base_name := PathLib.stem pdf_path in
  let out_dir := PathLib.joinpath (cwd w) (lit "output_audio") in
  saved_files ← main_record w settings text base_name out_dir;
  main_speak w settings text;;
  main_report saved_files out_dir.

Definition main (w : World) : M unit :=
  '(pdf_path, text, settings) ← main_setup w;
  main_run w pdf_path text settings.

(** * Vocabulary for the statements *)

(** A run starts with nothing queued, no property set and nothing traced. *)
Definition initial (lines : list str) (files : gmap Path (list N)) : State :=
  mkState lines files (mkProps None None None) [] [].

(** What each page contributes: its extracted text, trimmed. *)
Definition page_texts (pages : list (option str)) : list str :=
  map (fun page => Str.strip (str_or page [])) pages.

(** The page texts that are not empty. *)
Definition segments (pages : list (option str)) : list str :=
  List.filter (fun t => negb (Str.is_empty t)) (page_texts pages).

(** The progress lines printed for the pages, numbered from [first]. *)
Fixpoint progress_lines (first total : nat) (texts : list str) : list str :=
  match texts with
  | [] => []
  | t :: rest =>
      page_line first total (length t) :: progress_lines (S first) total rest
  end.

(** A word as [split] produces it: not empty, no whitespace inside. *)
Definition is_word (w : str) : Prop :=
  w ≠ [] ∧ Forall (fun c => Unicode.isspace c = false) w.

(** A string without whitespace at either end. *)
Definition trimmed (s : str) : Prop :=
  (∀ c r, s = c :: r → Unicode.isspace c = false)
  ∧ (∀ c r, s = r ++ [c] → Unicode.isspace c = false).

(** The events that only talk to the user before any prompt. *)
Definition is_notice (e : Event) : Prop :=
  e = FileDialog ∨ ∃ text, e = Print text.

(** Everything the save-format dialogue can show. *)
Definition format_dialogue : list Event :=
  map Print format_menu
  ++ [Prompt format_prompt; Print invalid_format].

(** [console P st st']: from [st] to [st'] only the console was used (some
    input lines were read, some events were added to the trace) and every
    new event satisfies [P]; the disk and the engine are as before. *)
Definition console (P : Event -> Prop) (st st' : State) : Prop :=
  disk st' = disk st ∧ queue st' = queue st ∧ props st' = props st
  ∧ (∃ used, stdin st = used ++ stdin st')
  ∧ ∃ evs, trace st' = trace st ++ evs ∧ Forall P evs.

(** A computation that only uses the console, with events in [P]. *)
Definition console_only (P : Event -> Prop) {A} (m : M A) : Prop :=
  ∀ st r st', m st = (r, st') → console P st st'.

(** The superscript two: a digit for [str.isdigit], not for [int]. *)
Definition superscript_two : str := [0xB2].

(** The mode menu printed before the first mode prompt. *)
Definition mode_menu : list Event :=
  [ Print (newline ++ lit "Mode options:");
    Print (lit "  S = Speak only (no saving)");
    Print (lit "  R = Record only (save audio, no speaking)");
    Print (lit "  B = Both (speak + save)") ].

(** The values of the characters of a string of decimal digits. *)
Definition decimal_values (s : str) : list Z :=
  map (fun c => default 0%Z (Unicode.decimal_value c)) s.

(** The voices as [list_voices] enumerates them. *)
Definition voice_item (numbered : nat * Voice) : nat * str * str :=
  (numbered.1, str_or (v_name numbered.2) (lit "Unknown"),
   str_or (v_id numbered.2) []).

Definition voice_items (w : World) : list (nat * str * str) :=
  map voice_item (enumerate (default [] (engine_voices w)) 0).

Definition no_voices_message : str :=
  lit "No voices found. Using default voice.".

(** ** Files of a recording run *)

(** The output directory and the base name [main] derives from the PDF. *)
Definition out_dir_of (w : World) : Path :=
  PathLib.joinpath (cwd w) (lit "output_audio").

(** The WAV file of the chunk numbered [idx], and the MP3 file the
    transcoder makes of it. *)
Definition wav_path (out_dir : Path) (base_name : str) (idx : nat) : Path :=
  PathLib.joinpath out_dir (part_name base_name idx).

Definition mp3_of (wav : Path) : Path := PathLib.with_suffix wav (lit ".mp3").

(** The chunks of a text at the default size. *)
Definition chunks_of (text : str) : list str :=
  match chunk_text text default_max_chars with
  | Ok chunks => chunks
  | Raise _ => []
  end.

(** The properties of an engine after [configure_engine]. *)
Definition configured (s : TTSSettings) (p : EngineProps) : EngineProps :=
  mkProps (Some (rate s)) (Some (QArith_base.Qmake 1 1))
          (match voice_id s with
           | Some (c :: v) => Some (c :: v)
           | _ => prop_voice p
           end).

Definition configure_events (s : TTSSettings) : list Event :=
  [SetProperty (lit "rate") (PInt (rate s));
   SetProperty (lit "volume") (PFloat (QArith_base.Qmake 1 1))]
  ++ match voice_id s with
     | Some (c :: v) => [SetProperty (lit "voice") (PStr (c :: v))]
     | _ => []
     end.

(** What a recording run puts on disk: for every chunk, in order, the WAV
    file and the audio the engine synthesises for the chunk. *)
Definition recordings (w : World) (s : TTSSettings) (pdf_path : Path)
    (text : str) : list (Path * list N) :=
  map (fun numbered : nat * str =>
         (wav_path (out_dir_of w) (PathLib.stem pdf_path) numbered.1,
          tts w (configured s (mkProps None None None)) numbered.2))
      (enumerate (chunks_of text) 1).

(** The disk after the engine has written the given files. *)
Definition written (files : list (Path * list N)) (d : gmap Path (list N))
    : gmap Path (list N) :=
  fold_left (fun d file => <[file.1 := file.2]> d) files d.

(** The disk after the transcoder has run on the given files, one after the
    other: each run adds whatever it wrote to its output file. *)
Definition transcoded (w : World) (files : list (Path * list N))
    (d : gmap Path (list N)) : gmap Path (list N) :=
  fold_left
    (fun d file =>
       match (ffmpeg w file.1 (Some file.2)).2 with
       | Some b => <[mp3_of file.1 := b]> d
       | None => d
       end)
    files d.

(** The event of one run of the transcoder. *)
Definition transcode_event (w : World) (file : Path * list N) : Event :=
  Subprocess (ffmpeg_argv file.1 (mp3_of file.1))
             (ffmpeg w file.1 (Some file.2)).1.

Definition is_subprocess (e : Event) : bool :=
  match e with Subprocess _ _ => true | _ => false end.

(** The calls and queue entries of [save_wav_chunks] for numbered chunks. *)
Definition save_events (out_dir : Path) (base_name : str)
    (items : list (nat * str)) : list Event :=
  map (fun item : nat * str =>
         SaveToFile item.2 (PathLib.to_str (wav_path out_dir base_name item.1)))
      items.

Definition save_commands (out_dir : Path) (base_name : str)
    (items : list (nat * str)) : list Command :=
  map (fun item : nat * str => ToFile item.2 (wav_path out_dir base_name item.1))
      items.

(** The files the engine writes for numbered chunks with properties [p]. *)
Definition synthesised (w : World) (p : EngineProps) (out_dir : Path)
    (base_name : str) (items : list (nat * str)) : list (Path * list N) :=
  map (fun item : nat * str =>
         (wav_path out_dir base_name item.1, tts w p item.2))
      items.

(** Events the prompts produce. *)
Definition is_talk (e : Event) : Prop :=
  match e with
  | Print _ | Prompt _ | GetVoices => True
  | _ => False
  end.

(** What happens in the recording phase up to the end of [runAndWait]. *)
Definition recording_events (s : TTSSettings) (out_dir : Path)
    (base_name : str) (items : list (nat * str)) : list Event :=
  [Print (newline ++ lit "Recording enabled" ++ [0x2026]
          ++ lit " (saving WAV chunks)"); EngineInit]
  ++ configure_events s
  ++ Mkdir out_dir :: save_events out_dir base_name items
  ++ [RunAndWait].

(** The files are on disk with their contents. *)
Definition ready (files : list (Path * list N)) (d : gmap Path (list N))
    : Prop :=
  ∀ file, file ∈ files → d !! file.1 = Some file.2.

(** No output of the transcoder is one of its inputs. *)
Definition apart (files : list (Path * list N)) : Prop :=
  ∀ f g, f ∈ files → g ∈ files → mp3_of f.1 ≠ g.1.

(** The file names the final report lists. *)
Definition listed_names (tr : list Event) : list str :=
  omap (fun e =>
          match e with
          | Print t =>
              if Str.eqb (take 3 t) (lit " - ") then Some (drop 3 t) else None
          | _ => None
          end)
       tr.

Definition converting_message : str :=
  lit "Converting to MP3 (ffmpeg)" ++ [0x2026].

(** [saved_files] at the end of a recording run: the MP3 files when the
    format is "mp3", the WAV files otherwise, one per chunk in order. *)
Definition saved_files (w : World) (s : TTSSettings) (pdf_path : Path)
    (text : str) : list Path :=
  if Str.eqb (save_format s) (lit "mp3")
  then map (fun file : Path * list N => mp3_of file.1)
           (recordings w s pdf_path text)
  else map fst (recordings w s pdf_path text).

(** The lines of the final report. *)
Definition saved_line (count : nat) (out_dir : Path) : str :=
  newline ++ lit "Saved " ++ Str.of_nat count ++ lit " file(s) in: "
  ++ PathLib.to_str out_dir.

Definition name_line (f : Path) : str := lit " - " ++ name f.

Definition ellipsis_line : str := lit " ...".

(** * Sample worlds *)

Module Sample.

Definition book : Path := mkPath (lit "/home/u") (lit "book.pdf").

(** A world with a three-page PDF, two voices and a working transcoder.
    Synthesised audio is the text with a tag in front; the transcoder puts
    another tag in front of its input. *)
Definition world (pages : list (option str)) : World := {|
  dialog_result := lit "/home/u/book.pdf";
  resolve := fun _ => book;
  cwd := mkPath (lit "/home") (lit "u");
  pdf_pages := fun _ => pages;
  engine_voices :=
    Some [mkVoice (Some (lit "Alex")) (Some (lit "com.voice.alex"));
          mkVoice None None];
  tts := fun _ text => 1 :: text;
  ffmpeg_found := true;
  ffmpeg := fun _ input =>
    match input with
    | Some a => (0%Z, Some (2 :: a))
    | None => (1%Z, None)
    end;
  upper_table := fun c => [c];
  lower_table := fun s i => from_option (fun c => [c]) [] (s !! i)
|}.

(** The same world on a system without the transcoder. *)
Definition without_ffmpeg (w : World) : World := {|
  dialog_result := dialog_result w;
  resolve := resolve w;
  cwd := cwd w;
  pdf_pages := pdf_pages w;
  engine_voices := engine_voices w;
  tts := tts w;
  ffmpeg_found := false;
  ffmpeg := ffmpeg w;
  upper_table := upper_table w;
  lower_table := lower_table w
|}.

(** The same world with another transcoder. *)
Definition with_transcoder (run : Path -> option (list N) -> Z * option (list N))
    (w : World) : World := {|
  dialog_result := dialog_result w;
  resolve := resolve w;
  cwd := cwd w;
  pdf_pages := pdf_pages w;
  engine_voices := engine_voices w;
  tts := tts w;
  ffmpeg_found := ffmpeg_found w;
  ffmpeg := run;
  upper_table := upper_table w;
  lower_table := lower_table w
|}.

(** A transcoder that converts the first chunk and exits with 1 on the
    second, leaving nothing behind. *)
Definition fails_on_second (wav : Path) (input : option (list N))
    : Z * option (list N) :=
  if Str.eqb (name wav) (lit "book_part002.wav") then (1%Z, None)
  else match input with
       | Some a => (0%Z, Some (2 :: a))
       | None => (1%Z, None)
       end.

(** One page of [n] letters. *)
Definition letters (n : nat) : list (option str) := [Some (repeat 0x61 n)].

(** Pages that extract to "Hello world.", "" and "Goodbye.". *)
Definition three_pages : list (option str) :=
  [Some (lit "Hello world."); Some []; Some (lit "Goodbye.")].

(** A scanned document: nothing but blank or missing page text. *)
Definition blank_pages : list (option str) :=
  [Some (lit "  "); None; Some []].

End Sample.

(** * Further vocabulary *)

(** The characters of a string that are not whitespace. *)
Definition non_space (s : str) : str :=
  List.filter (fun c => negb (Unicode.isspace c)) s.

(** Words separated by single spaces: the only whitespace is U+0020, there
    is none at either end and there are no two in a row.  [prev_space]
    tells whether the character before [s] was a space (or [s] is the
    start of the string). *)
Fixpoint single_spaced_from (prev_space : bool) (s : str) : bool :=
  match s with
  | [] => negb prev_space
  | c :: rest =>
      if Unicode.isspace c
      then (c =? 0x20) && negb prev_space && single_spaced_from true rest
      else single_spaced_from false rest
  end.

Definition single_spaced (s : str) : bool :=
  match s with
  | [] => true
  | _ => single_spaced_from true s
  end.

(** What [choose_voice] shows before its first prompt when there are
    voices. *)
Definition voice_menu (w : World) : list Event :=
  GetVoices :: Print (newline ++ lit "Available voices:")
    :: map (fun item => Print (voice_line item)) (voice_items w).

(** The prompts and error messages of [n] rejected lines. *)
Definition rejections (prompt message : str) (n : nat) : list Event :=
  concat (repeat [Prompt prompt; Print message] n).

(** The same world in which the user closes the file dialog without
    choosing a file. *)
Definition dialog_cancelled (w : World) : World := {|
  dialog_result := [];
  resolve := resolve w;
  cwd := cwd w;
  pdf_pages := pdf_pages w;
  engine_voices := engine_voices w;
  tts := tts w;
  ffmpeg_found := ffmpeg_found w;
  ffmpeg := ffmpeg w;
  upper_table := upper_table w;
  lower_table := lower_table w
|}.

(** What happens in the speaking phase of a run with settings [s]. *)
Definition speaking_events (s : TTSSettings) (text : str) : list Event :=
  [Print (newline ++ lit "Speaking" ++ [0x2026]); EngineInit]
  ++ configure_events s
  ++ map Say (chunks_of text)
  ++ RunAndWait
     :: map (Spoken (configured s (mkProps None None None))) (chunks_of text).

(** The runs of the transcoder in a recording run that converts every
    file, with the message before them. *)
Definition transcoding_events (w : World) (s : TTSSettings) (pdf_path : Path)
    (text : str) : list Event :=
  if Str.eqb (save_format s) (lit "mp3")
  then Print converting_message
         :: map (transcode_event w) (recordings w s pdf_path text)
  else [].

(** ** Where a computation writes *)

(** Every file command waiting in the engine's queue writes into the
    directory [dir]. *)
Definition queue_in (dir : str) (st : State) : Prop :=
  Forall (fun c => match c with
                   | ToFile _ p => parent p = dir
                   | Speak _ => True
                   end)
         (queue st).

(** [writes_in dir m post]: run from a state whose queue writes into [dir]
    only, [m] leaves such a state, has changed no file outside [dir], and
    a value it returns satisfies [post]. *)
Definition writes_in (dir : str) {A} (m : M A) (post : A -> Prop) : Prop :=
  ∀ st r st', m st = (r, st') → queue_in dir st →
    queue_in dir st'
    ∧ (∀ p, parent p ≠ dir → disk st' !! p = disk st !! p)
    ∧ (∀ a, r = Ok a → post a).

(** A computation that leaves the disk and the queue as they are. *)
Definition quiet {A} (m : M A) : Prop :=
  ∀ st r st', m st = (r, st') → disk st' = disk st ∧ queue st' = queue st.
(** * Properties of normalisation and chunking *)

Section Normalize.

Lemma split_from_words word s :
  Forall (fun c => Unicode.isspace c = false) word →
  Forall is_word (Str.split_from word s).
Proof.
  revert word. induction s as [|c rest IH]; intros word Hw; simpl.
  - destruct word as [|d word']; [constructor|].
    constructor; [|constructor]. split.
    + intros E. apply (f_equal (@length N)) in E.
      rewrite length_reverse in E. discriminate.
    + apply Forall_reverse. exact Hw.
  - destruct (Unicode.isspace c) eqn:Hc.
    + destruct word as [|d word'].
      * apply IH. constructor.
      * constructor; [|apply IH; constructor]. split.
        -- intros E. apply (f_equal (@length N)) in E.
           rewrite length_reverse in E. discriminate.
        -- apply Forall_reverse. exact Hw.
    + apply IH. constructor; assumption.
Qed.

Lemma split_words s : Forall is_word (Str.split s).
Proof. apply split_from_words. constructor. Qed.

(** Scanning over characters that are not whitespace only grows the
    current word. *)
Lemma split_from_nonspace w word rest :
  Forall (fun c => Unicode.isspace c = false) w →
  Str.split_from word (w ++ rest) = Str.split_from (reverse w ++ word) rest.
Proof.
  revert word. induction w as [|c w IH]; intros word Hw; [done|].
  inversion Hw as [|? ? Hc Hw']; subst.
  rewrite reverse_cons, <- app_assoc. simpl.
  by rewrite Hc, IH.
Qed.

Lemma space_isspace : Unicode.isspace 0x20 = true.
Proof. reflexivity. Qed.

(** Splitting what [join] glued together with single spaces gives the
    words back. *)
Lemma split_join ws :
  Forall is_word ws → Str.split (Str.join (lit " ") ws) = ws.
Proof.
  unfold Str.split. induction ws as [|w ws IH]; intros Hws; [done|].
  inversion Hws as [|? ? [Hne Hw] Hws']; subst.
  destruct ws as [|w' ws].
  - simpl. rewrite <- (app_nil_r w) at 1.
    rewrite split_from_nonspace by assumption. simpl.
    rewrite app_nil_r. destruct (reverse w) eqn:E.
    + apply (f_equal (@length N)) in E. rewrite length_reverse in E.
      destruct w; [done | discriminate].
    + by rewrite <- E, reverse_involutive.
  - change (Str.join (lit " ") (w :: w' :: ws))
      with (w ++ 0x20 :: Str.join (lit " ") (w' :: ws)).
    rewrite split_from_nonspace by assumption.
    rewrite app_nil_r. simpl Str.split_from at 1.
    change (Unicode.isspace 32) with true. cbv iota.
    destruct (reverse w) eqn:E.
    + apply (f_equal (@length N)) in E. rewrite length_reverse in E.
      destruct w; [done | discriminate].
    + rewrite <- E, reverse_involutive. f_equal. by apply IH.
Qed.

End Normalize.

(** C8: whitespace normalisation (collapse every run of whitespace to one
    space and trim both ends, as [chunk_text] does at line 96) is
    idempotent: normalising a normalised string returns it unchanged. *)
Theorem normalize_idempotent (s : str) :
  normalize (normalize s) = normalize s.
Proof.
  unfold normalize at 1 3. f_equal. apply split_join, split_words.
Qed.

Section Chunks.

Lemma concat_slices (l : str) (m n : nat) :
  concat (map (fun i => slice l i m) (map (fun k => k * m)%nat (seq 0 n)))
  = take (n * m) l.
Proof.
  induction n as [|n IH]; [done|].
  rewrite seq_S, !map_app, concat_app, IH. simpl.
  rewrite app_nil_r. unfold slice.
  rewrite take_take_drop. f_equal. lia.
Qed.

(** The number of starting points [range] computes is the ceiling of
    [stop / m]. *)
Lemma ceil_div_bounds (stop m : nat) :
  (0 < m)%nat →
  let n := ((stop + m - 1) / m)%nat in
  (stop ≤ n * m)%nat ∧ (n * m < stop + m)%nat.
Proof.
  intros Hm n. subst n.
  pose proof (Nat.div_mod (stop + m - 1) m ltac:(lia)) as Hd.
  pose proof (Nat.mod_upper_bound (stop + m - 1) m ltac:(lia)) as Hr.
  nia.
Qed.

Lemma range0_positive (stop : nat) (step : Z) :
  (0 < step)%Z →
  range0 stop step
  = Ok (map (fun k => k * Z.to_nat step)%nat
            (seq 0 ((stop + Z.to_nat step - 1) / Z.to_nat step)%nat)).
Proof.
  intros H. unfold range0.
  destruct (Z.eqb_spec step 0); [lia|].
  destruct (Z.ltb_spec step 0); [lia|]. done.
Qed.

End Chunks.



Example chunk_text_example :
  chunk_text (lit "  a b   c ") 2 = Ok [lit "a "; lit "b "; lit "c"].
Proof. reflexivity. Qed.

(** * Properties of the script *)

Section StateLemmas.

Lemma add_events_nil st : add_events [] st = st.
Proof. destruct st. unfold add_events. simpl. by rewrite app_nil_r. Qed.

Lemma add_events_app evs1 evs2 st :
  add_events evs2 (add_events evs1 st) = add_events (evs1 ++ evs2) st.
Proof. unfold add_events. simpl. by rewrite app_assoc. Qed.

Lemma set_stdin_add_events l evs st :
  set_stdin l (add_events evs st) = add_events evs (set_stdin l st).
Proof. reflexivity. Qed.

Lemma set_stdin_twice l l' st : set_stdin l (set_stdin l' st) = set_stdin l st.
Proof. reflexivity. Qed.

(** Two states with the same components are the same state. *)
Lemma state_ext (a b : State) :
  stdin a = stdin b → disk a = disk b → props a = props b →
  queue a = queue b → trace a = trace b → a = b.
Proof. destruct a, b. simpl. by intros -> -> -> -> ->. Qed.

(** What each update leaves of each component. *)
Lemma stdin_set_stdin l st : stdin (set_stdin l st) = l.
Proof. reflexivity. Qed.
Lemma disk_set_stdin l st : disk (set_stdin l st) = disk st.
Proof. reflexivity. Qed.
Lemma props_set_stdin l st : props (set_stdin l st) = props st.
Proof. reflexivity. Qed.
Lemma queue_set_stdin l st : queue (set_stdin l st) = queue st.
Proof. reflexivity. Qed.
Lemma trace_set_stdin l st : trace (set_stdin l st) = trace st.
Proof. reflexivity. Qed.
Lemma stdin_set_disk d st : stdin (set_disk d st) = stdin st.
Proof. reflexivity. Qed.
Lemma disk_set_disk d st : disk (set_disk d st) = d.
Proof. reflexivity. Qed.
Lemma props_set_disk d st : props (set_disk d st) = props st.
Proof. reflexivity. Qed.
Lemma queue_set_disk d st : queue (set_disk d st) = queue st.
Proof. reflexivity. Qed.
Lemma trace_set_disk d st : trace (set_disk d st) = trace st.
Proof. reflexivity. Qed.
Lemma stdin_set_props p st : stdin (set_props p st) = stdin st.
Proof. reflexivity. Qed.
Lemma disk_set_props p st : disk (set_props p st) = disk st.
Proof. reflexivity. Qed.
Lemma props_set_props p st : props (set_props p st) = p.
Proof. reflexivity. Qed.
Lemma queue_set_props p st : queue (set_props p st) = queue st.
Proof. reflexivity. Qed.
Lemma trace_set_props p st : trace (set_props p st) = trace st.
Proof. reflexivity. Qed.
Lemma stdin_set_queue q st : stdin (set_queue q st) = stdin st.
Proof. reflexivity. Qed.
Lemma disk_set_queue q st : disk (set_queue q st) = disk st.
Proof. reflexivity. Qed.
Lemma props_set_queue q st : props (set_queue q st) = props st.
Proof. reflexivity. Qed.
Lemma queue_set_queue q st : queue (set_queue q st) = q.
Proof. reflexivity. Qed.
Lemma trace_set_queue q st : trace (set_queue q st) = trace st.
Proof. reflexivity. Qed.
Lemma stdin_add_events evs st : stdin (add_events evs st) = stdin st.
Proof. reflexivity. Qed.
Lemma disk_add_events evs st : disk (add_events evs st) = disk st.
Proof. reflexivity. Qed.
Lemma props_add_events evs st : props (add_events evs st) = props st.
Proof. reflexivity. Qed.
Lemma queue_add_events evs st : queue (add_events evs st) = queue st.
Proof. reflexivity. Qed.
Lemma trace_add_events evs st : trace (add_events evs st) = trace st ++ evs.
Proof. reflexivity. Qed.

Lemma bind_ok {A B} (m : M A) (f : A → M B) st a st' :
  m st = (Ok a, st') → (m ≫= f) st = f a st'.
Proof. intros H. unfold mbind, M_bind. by rewrite H. Qed.

Lemma bind_raise {A B} (m : M A) (f : A → M B) st e st' :
  m st = (Raise e, st') → (m ≫= f) st = (Raise e, st').
Proof. intros H. unfold mbind, M_bind. by rewrite H. Qed.

Lemma for_each_cons {A B} (x : A) (l : list A) (acc : B) body :
  for_each (x :: l) acc body = (body acc x ≫= fun acc' => for_each l acc' body).
Proof. reflexivity. Qed.

Lemma for_each_nil {A B} (acc : B) (body : B → A → M B) :
  for_each [] acc body = mret acc.
Proof. reflexivity. Qed.

Lemma print_eq text st : print text st = (Ok tt, add_events [Print text] st).
Proof. reflexivity. Qed.

Lemma emit_eq e st : emit e st = (Ok tt, add_events [e] st).
Proof. reflexivity. Qed.

Lemma pick_pdf_file_eq w st :
  pick_pdf_file w st
  = (Ok (if Str.is_empty (dialog_result w) then None
         else Some (resolve w (dialog_result w))),
     add_events [FileDialog] st).
Proof.
  unfold pick_pdf_file, mbind, M_bind, emit.
  by destruct (Str.is_empty (dialog_result w)).
Qed.

End StateLemmas.

Create Rewrite HintDb state.
#[global] Hint Rewrite stdin_set_stdin disk_set_stdin props_set_stdin queue_set_stdin trace_set_stdin
  stdin_set_disk disk_set_disk props_set_disk queue_set_disk trace_set_disk
  stdin_set_props disk_set_props props_set_props queue_set_props trace_set_props
  stdin_set_queue disk_set_queue props_set_queue queue_set_queue trace_set_queue
  stdin_add_events disk_add_events props_add_events queue_add_events trace_add_events : state.

(** Run the first computation of a sequence with a known result. *)
Ltac run_with lem := erewrite bind_ok by (apply lem); cbv beta.

Section Trimming.

Lemma lstrip_head s c r : Str.lstrip s = c :: r → Unicode.isspace c = false.
Proof.
  induction s as [|d s IH]; simpl; [done|].
  destruct (Unicode.isspace d) eqn:Hd; [done|].
  intros [= -> ->]. done.
Qed.

Lemma lstrip_fixed s :
  (∀ c r, s = c :: r → Unicode.isspace c = false) → Str.lstrip s = s.
Proof. destruct s as [|c r]; [done|]. intros H. simpl. by rewrite (H c r). Qed.

(** [lstrip] removes a prefix, so [rstrip] removes a suffix. *)
Lemma lstrip_suffix s : ∃ p, s = p ++ Str.lstrip s.
Proof.
  induction s as [|c s [p IH]]; [by exists []|]. simpl.
  destruct (Unicode.isspace c).
  - exists (c :: p). simpl. by f_equal.
  - by exists [].
Qed.

Lemma rstrip_prefix s : ∃ q, s = Str.rstrip s ++ q.
Proof.
  unfold Str.rstrip. destruct (lstrip_suffix (reverse s)) as [p Hp].
  exists (reverse p). rewrite <- reverse_app, <- Hp. by rewrite reverse_involutive.
Qed.

Lemma strip_trimmed s : trimmed (Str.strip s).
Proof.
  unfold Str.strip. split.
  - intros c r E. destruct (rstrip_prefix (Str.lstrip s)) as [q Hq].
    rewrite E in Hq. simpl in Hq. by apply lstrip_head in Hq.
  - intros c r E. unfold Str.rstrip in E.
    apply (f_equal (@reverse N)) in E. rewrite reverse_involutive, reverse_app in E.
    simpl in E. by apply lstrip_head in E.
Qed.

Lemma strip_fixed s : trimmed s → Str.strip s = s.
Proof.
  intros [Hh Hl]. unfold Str.strip. rewrite (lstrip_fixed s Hh).
  unfold Str.rstrip. rewrite lstrip_fixed; [apply reverse_involutive|].
  intros c r E. apply (Hl c (reverse r)).
  apply (f_equal (@reverse N)) in E. rewrite reverse_involutive in E.
  by rewrite E, reverse_cons.
Qed.

(** Joining trimmed, non-empty segments leaves no whitespace at the
    ends, whatever the separator. *)
Lemma join_trimmed sep parts :
  Forall (fun t => t ≠ [] ∧ trimmed t) parts → trimmed (Str.join sep parts).
Proof.
  induction parts as [|p ps IH]; intros H.
  - split; intros c r E; [done|]. by destruct r.
  - inversion H as [|? ? [Hne [Hh Hl]] Hps]; subst.
    destruct ps as [|p' ps]; [by split|].
    specialize (IH Hps). destruct IH as [_ IHl].
    change (Str.join sep (p :: p' :: ps))
      with (p ++ sep ++ Str.join sep (p' :: ps)).
    split.
    + intros c r E. destruct p as [|d p]; [done|].
      simpl in E. injection E as -> _. by apply (Hh c p).
    + intros c r E.
      assert (Hj : Str.join sep (p' :: ps) ≠ []).
      { inversion Hps as [|? ? [Hne' _] _]; subst.
        destruct p'; [done|]. by destruct ps. }
      destruct (exists_last Hj) as (r' & c' & Hr').
      rewrite Hr', !app_assoc in E.
      apply app_inj_tail in E as [_ <-]. by apply (IHl c' r').
Qed.

End Trimming.

Section Extraction.

Lemma segments_trimmed pages :
  Forall (fun t => t ≠ [] ∧ trimmed t) (segments pages).
Proof.
  unfold segments, page_texts. apply Forall_forall. intros t Ht.
  apply list_elem_of_In, filter_In in Ht as [Hin Hne].
  apply in_map_iff in Hin as (page & <- & _).
  split; [|apply strip_trimmed].
  by destruct (Str.strip (str_or page [])).
Qed.

Lemma extract_page_eq total parts i page st :
  extract_page total parts (i, page) st
  = (Ok (parts ++ segments [page]),
     add_events [Print (page_line i total (length (Str.strip (str_or page []))))]
                st).
Proof.
  unfold extract_page, segments, mbind, M_bind, print, emit. simpl.
  destruct (Str.is_empty (Str.strip (str_or page []))); simpl;
    unfold mret, M_ret; by rewrite ?app_nil_r.
Qed.

Lemma extract_loop total pages first parts st :
  for_each (zip (seq first (length pages)) pages) parts (extract_page total) st
  = (Ok (parts ++ segments pages),
     add_events (map Print (progress_lines first total (page_texts pages))) st).
Proof.
  revert first parts st.
  induction pages as [|page pages IH]; intros first parts st.
  - simpl. unfold mret, M_ret. by rewrite app_nil_r, add_events_nil.
  - simpl length. simpl seq. simpl zip. rewrite for_each_cons.
    rewrite (bind_ok _ _ _ _ _ (extract_page_eq _ _ _ _ _)), IH.
    rewrite add_events_app, <- app_assoc.
    change (page :: pages) with ([page] ++ pages).
    unfold segments, page_texts. by rewrite map_app, List.filter_app.
Qed.

Lemma extract_pdf_text_eq w pdf_path st :
  let pages := pdf_pages w pdf_path in
  extract_pdf_text w pdf_path st
  = (Ok (Str.join newline (segments pages)),
     add_events (map Print (progress_lines 1 (length pages) (page_texts pages)))
                st).
Proof.
  intros pages. unfold extract_pdf_text. fold pages.
  case_bool_decide as Hp.
  - rewrite Hp. unfold mret, M_ret. simpl. by rewrite add_events_nil.
  - unfold enumerate. unfold mbind, M_bind.
    rewrite extract_loop. unfold mret, M_ret. simpl app.
    by rewrite strip_fixed by apply join_trimmed, segments_trimmed.
Qed.

Lemma join_nil_iff sep parts :
  Forall (fun t : str => t ≠ []) parts → Str.join sep parts = [] → parts = [].
Proof.
  destruct parts as [|p ps]; [done|]. intros H E.
  inversion H as [|? ? Hne _]; subst. destruct ps; simpl in E.
  - done.
  - by destruct p.
Qed.

Lemma segments_nil_iff pages :
  segments pages = [] ↔ Forall (fun t => t = []) (page_texts pages).
Proof.
  unfold segments. induction (page_texts pages) as [|t ts IH]; simpl.
  - split; [constructor | done].
  - destruct t as [|c t]; simpl.
    + rewrite IH. split; [by constructor|]. by inversion 1.
    + split; [done|]. inversion 1; done.
Qed.

End Extraction.

(** C3, as stated, fails: the extracted text of the three pages
    "Hello world.", "" and "Goodbye." keeps the newline between the two
    non-empty pages, so it is not whitespace-collapsed. *)
Lemma extract_pdf_text_not_collapsed :
  ∃ text st',
    extract_pdf_text (Sample.world Sample.three_pages) Sample.book
                     (initial [] ∅) = (Ok text, st')
    ∧ text = lit "Hello world." ++ newline ++ lit "Goodbye."
    ∧ normalize text = lit "Hello world. Goodbye."
    ∧ normalize text ≠ text.
Proof.
  eexists _, _. split; [rewrite extract_pdf_text_eq; reflexivity|].
  split; [reflexivity|]. split; [reflexivity|]. discriminate.
Qed.

(** C3, amended: [extract_pdf_text] returns the page texts that are not
    empty after trimming, each trimmed, joined by a newline; the result has
    no whitespace at either end, and it is empty exactly when no page has
    text (in particular when there are no pages).  Along the way one
    progress line per page is printed and nothing else happens.  The
    whitespace inside a page and the joining newlines are kept. *)
Theorem extract_pdf_text_segments (w : World) (pdf_path : Path) (st : State) :
  let pages := pdf_pages w pdf_path in
  let text := Str.join newline (segments pages) in
  extract_pdf_text w pdf_path st
  = (Ok text,
     add_events (map Print (progress_lines 1 (length pages) (page_texts pages)))
                st)
  ∧ trimmed text
  ∧ Str.strip text = text
  ∧ (text = [] ↔ Forall (fun t => t = []) (page_texts pages)).
Proof.
  intros pages text.
  assert (Ht : trimmed text) by apply join_trimmed, segments_trimmed.
  split; [apply extract_pdf_text_eq|].
  split; [exact Ht|]. split; [by apply strip_fixed|].
  etrans; [|apply segments_nil_iff]. subst text. split.
  - apply join_nil_iff.
    eapply Forall_impl; [apply segments_trimmed|]. by intros t [? _].
  - by intros ->.
Qed.

(** Every page without text gives the empty string. *)
Lemma extract_blank_pages (w : World) (pdf_path : Path) (st : State) :
  Forall (fun page => Str.strip (str_or page []) = []) (pdf_pages w pdf_path) →
  (extract_pdf_text w pdf_path st).1 = Ok [].
Proof.
  intros H. rewrite extract_pdf_text_eq. simpl. f_equal.
  replace (segments (pdf_pages w pdf_path)) with (@nil (list N)); [done|].
  symmetry. apply segments_nil_iff. unfold page_texts. by apply Forall_fmap.
Qed.

(** C2: when extraction yields the empty string, [main] ends with
    [SystemExit] and its message; up to then it has only shown the file
    dialog and printed lines: no input was read, no engine was initialised,
    no property set, nothing queued and no file written. *)
Theorem empty_text_exits_before_engine (w : World) (st st0 : State) :
  dialog_result w ≠ [] →
  (extract_pdf_text w (resolve w (dialog_result w)) st0).1 = Ok [] →
  ∃ evs,
    main w st = (Raise (SystemExit no_text_message), add_events evs st)
    ∧ Forall is_notice evs.
Proof.
  intros Hsel Hempty.
  rewrite extract_pdf_text_eq in Hempty. simpl in Hempty.
  injection Hempty as Hempty.
  destruct (dialog_result w) as [|c file] eqn:Hd; [done|].
  eexists. split.
  - unfold main. erewrite bind_raise; [reflexivity|].
    unfold main_setup. run_with pick_pdf_file_eq. rewrite Hd.
    change (Str.is_empty (c :: file)) with false. cbv iota.
    run_with print_eq. run_with extract_pdf_text_eq.
    rewrite Hempty. change (Str.is_empty []) with true. cbv iota. unfold raise.
    rewrite !add_events_app. reflexivity.
  - apply Forall_app. split; [|apply Forall_app; split].
    + constructor; [by left | constructor].
    + constructor; [right; eauto | constructor].
    + apply Forall_fmap, Forall_true. intros t. right. eauto.
Qed.

(** The theorem at a scanned document. *)
Lemma empty_text_exits_before_engine_witness :
  ∃ evs,
    main (Sample.world Sample.blank_pages) (initial [lit "0"; lit "90"] ∅)
    = (Raise (SystemExit no_text_message),
       add_events evs (initial [lit "0"; lit "90"] ∅))
    ∧ Forall is_notice evs.
Proof.
  apply (empty_text_exits_before_engine
           (Sample.world Sample.blank_pages) _ (initial [] ∅)).
  - discriminate.
  - reflexivity.
Defined.

(** ** Prompt loops *)

Section AskUntil.

Context {A : Type} (prompt : str) (body : str → Round A).

Lemma ask_until_eof st :
  stdin st = [] →
  ask_until prompt body st
  = (Raise EOFError, add_events [Prompt prompt] (set_stdin [] st)).
Proof. intros H. unfold ask_until. by rewrite H. Qed.

(** One round: the prompt is written, a line is read, the body's lines
    are printed, and the body's verdict decides how to go on. *)
Lemma ask_until_round st line rest :
  stdin st = line :: rest →
  let st' := add_events (Prompt prompt :: map Print (body line).1)
                        (set_stdin rest st) in
  ask_until prompt body st
  = match (body line).2 with
    | Return a => (Ok a, st')
    | Again => ask_until prompt body st'
    | Throw e => (Raise e, st')
    end.
Proof.
  intros H. unfold ask_until. rewrite H. simpl.
  destruct (body line) as [printed step]. simpl. by destruct step.
Qed.

(** A value the loop returns was returned by the body on some line. *)
Lemma ask_from_returns lines st a st' :
  ask_from prompt body lines st = (Ok a, st') →
  ∃ line, line ∈ lines ∧ (body line).2 = Return a.
Proof.
  revert st. induction lines as [|line rest IH]; intros st; simpl; [done|].
  destruct (body line) as [printed step] eqn:Hb. destruct step.
  - intros [= -> _]. exists line. rewrite Hb. split; [left | done].
  - intros H. apply IH in H as (l & Hl & Hr). exists l. split; [by right | done].
  - done.
Qed.

Lemma ask_until_returns st a st' :
  ask_until prompt body st = (Ok a, st') →
  ∃ line, line ∈ stdin st ∧ (body line).2 = Return a.
Proof. apply ask_from_returns. Qed.

End AskUntil.

(** ** Computations that only use the console *)

Section Console.

Context (P : Event → Prop).

Lemma console_refl st : console P st st.
Proof.
  repeat split; [by exists [] | exists []]. by rewrite app_nil_r.
Qed.

Lemma console_trans st1 st2 st3 :
  console P st1 st2 → console P st2 st3 → console P st1 st3.
Proof.
  intros (Hd & Hq & Hp & [u Hu] & evs & Ht & Hevs)
         (Hd' & Hq' & Hp' & [u' Hu'] & evs' & Ht' & Hevs').
  repeat split; try congruence.
  - exists (u ++ u'). by rewrite Hu, Hu', app_assoc.
  - exists (evs ++ evs'). split; [by rewrite Ht', Ht, app_assoc|].
    by apply Forall_app.
Qed.

Lemma console_add_events evs st :
  Forall P evs → console P st (add_events evs st).
Proof. intros H. repeat split; [by exists [] | by exists evs]. Qed.

Lemma console_read evs line rest st :
  stdin st = line :: rest → Forall P evs →
  console P st (add_events evs (set_stdin rest st)).
Proof.
  intros Hs H. repeat split; [exists [line]; by rewrite Hs | by exists evs].
Qed.

Lemma console_only_ret {A} (a : A) : console_only P (mret a).
Proof. intros st r st' [= <- <-]. apply console_refl. Qed.

Lemma console_only_raise {A} e : console_only P (@raise A e).
Proof. intros st r st' [= <- <-]. apply console_refl. Qed.

Lemma console_only_emit e : P e → console_only P (emit e).
Proof.
  intros He st r st' [= <- <-]. apply console_add_events. by constructor.
Qed.

Lemma console_only_bind {A B} (m : M A) (f : A → M B) :
  console_only P m → (∀ a, console_only P (f a)) → console_only P (m ≫= f).
Proof.
  intros Hm Hf st r st'. unfold mbind, M_bind.
  destruct (m st) as [[a|e] st1] eqn:E.
  - intros H. eapply console_trans; [by eapply Hm | by eapply Hf].
  - intros [= <- <-]. by eapply Hm.
Qed.

Lemma console_only_for_each {A B} (l : list A) (acc : B) body :
  (∀ acc x, x ∈ l → console_only P (body acc x)) →
  console_only P (for_each l acc body).
Proof.
  revert acc. induction l as [|x l IH]; intros acc H.
  - apply console_only_ret.
  - rewrite for_each_cons. apply console_only_bind.
    + apply H. by left.
    + intros acc'. apply IH. intros ? ? ?. apply H. by right.
Qed.

Lemma console_ask_from {A} prompt (body : str → Round A) lines :
  P (Prompt prompt) →
  (∀ line, Forall P (map Print (body line).1)) →
  ∀ st r st', stdin st = lines →
    ask_from prompt body lines st = (r, st') → console P st st'.
Proof.
  intros Hp Hb. induction lines as [|line rest IH]; intros st r st' Hs; simpl.
  - intros [= <- <-]. rewrite <- Hs.
    replace (set_stdin (stdin st) st) with st by by destruct st.
    apply console_add_events. by constructor.
  - specialize (Hb line). destruct (body line) as [printed step].
    simpl in Hb.
    assert (Hc : console P st (add_events (Prompt prompt :: map Print printed)
                                          (set_stdin rest st))).
    { eapply console_read; [done|]. by constructor. }
    destruct step.
    + by intros [= <- <-].
    + intros H. eapply console_trans; [exact Hc|]. by eapply IH.
    + by intros [= <- <-].
Qed.

Lemma console_only_ask_until {A} prompt (body : str → Round A) :
  P (Prompt prompt) →
  (∀ line, Forall P (map Print (body line).1)) →
  console_only P (ask_until prompt body).
Proof.
  intros Hp Hb st r st'. unfold ask_until. by apply console_ask_from.
Qed.

End Console.

Lemma console_weaken (P Q : Event → Prop) st st' :
  (∀ e, P e → Q e) → console P st st' → console Q st st'.
Proof.
  intros H (Hd & Hq & Hp & Hu & evs & Ht & Hevs).
  repeat split; try done. exists evs. split; [done|].
  by eapply Forall_impl.
Qed.

(** ** The rate, mode and voice prompts *)

Section Rounds.

Lemma mem_elem_of s l : Str.mem s l = true ↔ s ∈ l.
Proof.
  unfold Str.mem, Str.eqb. rewrite existsb_exists. split.
  - intros (t & Hin & Heq). apply bool_decide_eq_true in Heq as ->.
    by apply list_elem_of_In.
  - intros H. exists s. split; [by apply list_elem_of_In|].
    by apply bool_decide_eq_true.
Qed.

Lemma mapM_decimal s :
  forallb Unicode.isdecimal s = true →
  mapM Unicode.decimal_value s = Some (decimal_values s).
Proof.
  intros H. apply mapM_Some. unfold decimal_values.
  apply Forall2_fmap_r, Forall_Forall2_diag, Forall_forall.
  intros c Hc. apply list_elem_of_In in Hc.
  rewrite forallb_forall in H. specialize (H c Hc).
  unfold Unicode.isdecimal in H. unfold compose.
  destruct (Unicode.decimal_value c); [reflexivity | discriminate].
Qed.

Lemma isdecimal_isdigit s :
  forallb Unicode.isdecimal s = true → forallb Unicode.isdigit s = true.
Proof.
  rewrite !forallb_forall. intros H c Hc. unfold Unicode.isdigit.
  by rewrite (H c Hc).
Qed.

(** [int] of a non-empty string of decimal digits within the length limit
    is the number the digits denote. *)
Lemma to_int_decimal s :
  s ≠ [] → forallb Unicode.isdecimal s = true →
  (length s ≤ Str.int_max_str_digits)%nat →
  Str.to_int s = Ok (Str.horner (decimal_values s)).
Proof.
  intros Hne Hd Hlen. unfold Str.to_int.
  destruct s as [|c s]; [done|]. rewrite mapM_decimal by done.
  destruct (Nat.ltb_spec Str.int_max_str_digits (length (c :: s))); [lia|done].
Qed.

(** The verdict of one round of the rate prompt on a line made of
    decimal digits (with any whitespace around them). *)
Lemma rate_round_decimal default line :
  let s := Str.strip line in
  s ≠ [] → forallb Unicode.isdecimal s = true →
  (length s ≤ Str.int_max_str_digits)%nat →
  rate_round default line
  = if (80 <=? Str.horner (decimal_values s))%Z
       && (Str.horner (decimal_values s) <=? 350)%Z
    then ([], Return (Str.horner (decimal_values s)))
    else ([invalid_rate], Again).
Proof.
  intros s Hne Hd Hlen. unfold rate_round. fold s.
  destruct s as [|c s'] eqn:Hs; [done|]. rewrite <- Hs in *.
  replace (Str.is_empty s) with false by by rewrite Hs.
  unfold Str.isdigit. replace (Str.is_empty s) with false by by rewrite Hs.
  rewrite isdecimal_isdigit by done. simpl negb. cbv iota. simpl andb.
  rewrite to_int_decimal by (done || by rewrite Hs). done.
Qed.

(** A line that is not made of digits only is answered with the
    error message and another round. *)
Lemma rate_round_not_digits default line :
  Str.strip line ≠ [] → Str.isdigit (Str.strip line) = false →
  rate_round default line = ([invalid_rate], Again).
Proof.
  intros Hne Hd. unfold rate_round. rewrite Hd.
  by destruct (Str.strip line).
Qed.

(** Whatever the line, a round of the rate prompt returns the default or
    a number in [80, 350], or asks again after the error message, or lets
    the [ValueError] of [int] escape. *)
Lemma rate_round_verdict default line :
  match rate_round default line with
  | (printed, Return r) => printed = [] ∧ (r = default ∨ (80 ≤ r ≤ 350)%Z)
  | (printed, Again) => printed = [invalid_rate]
  | (printed, Throw e) =>
      printed = [] ∧ e = ValueError (IntOfStr (Str.strip line))
  end.
Proof.
  unfold rate_round. destruct (Str.is_empty (Str.strip line)); [by auto|].
  destruct (Str.isdigit (Str.strip line)); [|done].
  unfold Str.to_int.
  destruct (Str.strip line) as [|c s]; [done|].
  destruct (mapM Unicode.decimal_value (c :: s)); [|done].
  destruct (_ <? _)%nat; [done|].
  destruct (Z.leb_spec 80 (Str.horner l)); [|done].
  destruct (Z.leb_spec (Str.horner l) 350); [|done].
  simpl. split; [done|]. right. lia.
Qed.

Example rate_round_90 default : rate_round default (lit "90") = ([], Return 90%Z).
Proof. reflexivity. Qed.

Example rate_round_400 default :
  rate_round default (lit "400") = ([invalid_rate], Again).
Proof. reflexivity. Qed.

Example rate_round_blank default : rate_round default [] = ([], Return default).
Proof. reflexivity. Qed.

(** Digits of another script are accepted as well: Arabic-Indic "90". *)
Example rate_round_arabic_indic default :
  rate_round default [0x669; 0x660] = ([], Return 90%Z).
Proof. reflexivity. Qed.

Example rate_round_superscript default :
  rate_round default superscript_two
  = ([], Throw (ValueError (IntOfStr superscript_two))).
Proof. reflexivity. Qed.

(** Whatever the line, a round of the mode prompt returns one of the
    three letters or asks again after the error message. *)
Lemma mode_round_verdict w line :
  match mode_round w line with
  | (printed, Return m) => printed = [] ∧ m ∈ [lit "S"; lit "R"; lit "B"]
  | (printed, Again) => printed = [invalid_mode]
  | (_, Throw _) => False
  end.
Proof.
  unfold mode_round.
  destruct (Str.is_empty _); [split; [done | by left]|].
  destruct (Str.mem _ _) eqn:Hm; [|done].
  split; [done | by apply mem_elem_of].
Qed.

(** Upper-casing an ASCII string maps each character on its own. *)
Lemma upper_ascii tbl s :
  forallb Unicode.is_ascii s = true →
  Str.upper tbl s = map Unicode.ascii_upper s.
Proof.
  unfold Str.upper. induction s as [|c s IH]; [done|]. simpl.
  intros H. apply andb_true_iff in H as [Hc Hs]. by rewrite Hc, IH.
Qed.

(** A character whose upper case is [x] is [x] or its lower-case form. *)
Lemma ascii_upper_inv c x :
  Unicode.ascii_upper c = x → c = x ∨ c = x + 0x20.
Proof.
  unfold Unicode.ascii_upper.
  destruct ((0x61 <=? c) && (c <=? 0x7A)) eqn:E; intros <-; [|by left].
  apply andb_true_iff in E as [H1 _]. apply N.leb_le in H1. right. lia.
Qed.

(** One ASCII character is what upper-cases to one capital letter. *)
Lemma upper_ascii_letter tbl s x :
  forallb Unicode.is_ascii s = true →
  Str.upper tbl s = [x] → s = [x] ∨ s = [x + 0x20].
Proof.
  intros Ha. rewrite upper_ascii by done.
  destruct s as [|c [|d s]]; [done| |done]. simpl. intros [= H].
  apply ascii_upper_inv in H as [->| ->]; [by left | by right].
Qed.

(** The verdict of a round of the mode prompt is decided by the
    upper-cased text of the line: empty gives "S", one of the three letters
    gives that letter, and every other line is rejected. *)
Lemma mode_round_blank w line :
  Str.upper (upper_table w) (Str.strip line) = [] →
  mode_round w line = ([], Return (lit "S")).
Proof. intros H. unfold mode_round. by rewrite H. Qed.

Lemma mode_round_accepts w line :
  Str.upper (upper_table w) (Str.strip line) ∈ [lit "S"; lit "R"; lit "B"] →
  mode_round w line
  = ([], Return (Str.upper (upper_table w) (Str.strip line))).
Proof.
  intros H. unfold mode_round.
  rewrite (proj2 (mem_elem_of _ _) H).
  destruct (Str.upper _ _) eqn:E; [|done].
  repeat (apply elem_of_cons in H as [H|H]; [discriminate H|]).
  by apply elem_of_nil in H.
Qed.

Lemma mode_round_rejects w line :
  Str.upper (upper_table w) (Str.strip line)
    ∉ [[]; lit "S"; lit "R"; lit "B"] →
  mode_round w line = ([invalid_mode], Again).
Proof.
  intros H. unfold mode_round.
  destruct (Str.upper _ _) as [|c m] eqn:E; [exfalso; apply H; left|].
  cbn [Str.is_empty].
  destruct (Str.mem (c :: m) _) eqn:Hm; [|done].
  apply mem_elem_of in Hm. exfalso. apply H. by right.
Qed.

(** Among the lines of ASCII characters only the empty one and the six
    single letters are not rejected. *)
Lemma mode_round_rejects_ascii w line :
  forallb Unicode.is_ascii (Str.strip line) = true →
  Str.strip line
    ∉ [[]; lit "S"; lit "s"; lit "R"; lit "r"; lit "B"; lit "b"] →
  mode_round w line = ([invalid_mode], Again).
Proof.
  intros Ha Hnot. apply mode_round_rejects. intros Hin. apply Hnot.
  apply elem_of_cons in Hin as [Hin|Hin].
  { rewrite upper_ascii in Hin by done.
    destruct (Str.strip line); [left | done]. }
  apply elem_of_cons in Hin as [Hin|Hin].
  { destruct (upper_ascii_letter _ _ 0x53 Ha Hin) as [E|E]; rewrite E;
      apply list_elem_of_lookup; [by exists 1%nat | by exists 2%nat]. }
  apply elem_of_cons in Hin as [Hin|Hin].
  { destruct (upper_ascii_letter _ _ 0x52 Ha Hin) as [E|E]; rewrite E;
      apply list_elem_of_lookup; [by exists 3%nat | by exists 4%nat]. }
  apply list_elem_of_singleton in Hin.
  destruct (upper_ascii_letter _ _ 0x42 Ha Hin) as [E|E]; rewrite E;
    apply list_elem_of_lookup; [by exists 5%nat | by exists 6%nat].
Qed.

End Rounds.

(** C5, on the input on which the rate prompt fails: the line "²" passes
    the guard [s.isdigit()], then [int(s)] raises [ValueError], which
    nothing catches.  [choose_rate] neither returns a rate nor prompts
    again: the exception ends it, with the lines after "²" still unread. *)
Theorem choose_rate_superscript_raises (default : Z) (rest : list str)
    (st : State) :
  choose_rate default (set_stdin (superscript_two :: rest) st)
  = (Raise (ValueError (IntOfStr superscript_two)),
     add_events [Prompt (rate_prompt default)] (set_stdin rest st)).
Proof.
  unfold choose_rate.
  rewrite (ask_until_round _ _ _ superscript_two rest) by reflexivity.
  rewrite rate_round_superscript. reflexivity.
Qed.

(** The three inputs named for the rate prompt, run through the loop:
    "400" is rejected and the prompt comes again, "90" is then accepted and
    the blank line after it is left for the next prompt. *)
Example choose_rate_400_then_90 :
  choose_rate default_rate (initial [lit "400"; lit "90"; []] ∅)
  = (Ok 90%Z,
     add_events [Prompt (rate_prompt default_rate); Print invalid_rate;
                 Prompt (rate_prompt default_rate)]
                (initial [[]] ∅)).
Proof. reflexivity. Qed.

Example choose_rate_blank :
  choose_rate default_rate (initial [[]] ∅)
  = (Ok 170%Z, add_events [Prompt (rate_prompt default_rate)] (initial [] ∅)).
Proof. reflexivity. Qed.

(** C6: the mode prompt.  "b" is read as "B" (Both), a blank line as "S"
    (Speak), "X" is answered with the error message and another round; the
    letters S, R and B are accepted in either case, and nothing else is:
    the verdict depends on the upper-cased text of the line without the
    whitespace around it, which must be empty (Speak) or exactly one of the
    three letters, and every other line, such as "record", "sx" or
    "both please", is rejected with the error message and another round;
    among the lines of ASCII characters the accepted ones are the empty
    line and the six single letters.  Whatever the line, a round either
    returns one of "S", "R", "B" or prints the error message and asks
    again, and never raises; so [choose_mode] can only return one of the
    three. *)
Theorem choose_mode_letters (w : World) :
  mode_round w (lit "b") = ([], Return (lit "B"))
  ∧ mode_round w [] = ([], Return (lit "S"))
  ∧ mode_round w (lit "X") = ([invalid_mode], Again)
  ∧ Forall (fun letter =>
              mode_round w letter.1 = ([], Return letter.2)
              ∧ mode_round w letter.2 = ([], Return letter.2))
           [(lit "s", lit "S"); (lit "r", lit "R"); (lit "b", lit "B")]
  ∧ (∀ line,
       match mode_round w line with
       | (printed, Return m) =>
           printed = [] ∧ m ∈ [lit "S"; lit "R"; lit "B"]
       | (printed, Again) => printed = [invalid_mode]
       | (_, Throw _) => False
       end)
  ∧ (∀ st line rest,
       let st' := add_events
                    (mode_menu ++ Prompt mode_prompt
                       :: map Print (mode_round w line).1)
                    (set_stdin rest st) in
       choose_mode w (set_stdin (line :: rest) st)
       = match (mode_round w line).2 with
         | Return m => (Ok m, st')
         | Again => ask_until mode_prompt (mode_round w) st'
         | Throw e => (Raise e, st')
         end)
  ∧ (∀ st,
       match choose_mode w st with
       | (Ok m, _) => m ∈ [lit "S"; lit "R"; lit "B"]
       | (Raise e, _) => e = EOFError
       end)
  ∧ (∀ line,
       let m := Str.upper (upper_table w) (Str.strip line) in
       (m = [] → mode_round w line = ([], Return (lit "S")))
       ∧ (m ∈ [lit "S"; lit "R"; lit "B"] →
            mode_round w line = ([], Return m))
       ∧ (m ∉ [[]; lit "S"; lit "R"; lit "B"] →
            mode_round w line = ([invalid_mode], Again)))
  ∧ (∀ line,
       forallb Unicode.is_ascii (Str.strip line) = true →
       Str.strip line
         ∉ [[]; lit "S"; lit "s"; lit "R"; lit "r"; lit "B"; lit "b"] →
       mode_round w line = ([invalid_mode], Again))
  ∧ Forall (fun line => mode_round w line = ([invalid_mode], Again))
           [lit "record"; lit "sx"; lit "both please"; lit "SS"; lit "s r"].
Proof.
  pose proof (mode_round_verdict w) as Hround.
  split; [reflexivity|]. split; [reflexivity|]. split; [reflexivity|].
  split; [repeat constructor|]. split; [exact Hround|].
  split; [|split; [|split; [|split]]].
  - intros st line rest st'. unfold choose_mode.
    do 4 run_with print_eq.
    rewrite (ask_until_round _ _ _ line rest) by reflexivity.
    subst st'. cbv zeta.
    rewrite !set_stdin_add_events, set_stdin_twice, !add_events_app.
    by destruct (mode_round w line).2.
  - intros st. unfold choose_mode. do 4 run_with print_eq.
    unfold ask_until.
    generalize (add_events [Print (lit "  B = Both (speak + save)")]
      (add_events [Print (lit "  R = Record only (save audio, no speaking)")]
         (add_events [Print (lit "  S = Speak only (no saving)")]
            (add_events [Print (newline ++ lit "Mode options:")] st)))).
    intros st1. generalize (stdin st1) as lines. intros lines. revert st1.
    induction lines as [|line rest IH]; intros st1; simpl; [done|].
    specialize (Hround line).
    destruct (mode_round w line) as [printed [m| |e]]; [|apply IH|done].
    by destruct Hround.
  - intros line m. subst m. split; [apply mode_round_blank|].
    split; [apply mode_round_accepts | apply mode_round_rejects].
  - apply mode_round_rejects_ascii.
  - repeat constructor.
Qed.

Example choose_mode_X_then_b :
  choose_mode (Sample.world []) (initial [lit "X"; lit " b "; lit "r"] ∅)
  = (Ok (lit "B"),
     add_events (mode_menu ++ [Prompt mode_prompt; Print invalid_mode;
                               Prompt mode_prompt])
                (initial [lit "r"] ∅)).
Proof. reflexivity. Qed.

Section Voices.

Lemma list_voices_eq w st :
  list_voices w st = (Ok (voice_items w), add_events [GetVoices] st).
Proof.
  unfold list_voices, voice_items, mbind, M_bind, emit, mret, M_ret.
  do 2 f_equal. apply map_ext. by intros [idx v].
Qed.

Lemma for_each_print {A} (f : A → str) (l : list A) st :
  for_each l tt (fun _ x => print (f x)) st
  = (Ok tt, add_events (map (fun x => Print (f x)) l) st).
Proof.
  revert st. induction l as [|x l IH]; intros st.
  - simpl. unfold mret, M_ret. by rewrite add_events_nil.
  - rewrite for_each_cons. run_with print_eq. rewrite IH.
    by rewrite add_events_app.
Qed.

Lemma enumerate_lookup {A} (l : list A) (start i : nat) :
  enumerate l start !! i = (fun x => (start + i, x)%nat) <$> l !! i.
Proof.
  unfold enumerate. revert start i.
  induction l as [|x l IH]; intros start i; [done|].
  destruct i as [|i]; simpl.
  - by rewrite Nat.add_0_r.
  - rewrite IH. destruct (l !! i); simpl; [|done]. do 2 f_equal. lia.
Qed.

Lemma length_enumerate {A} (l : list A) start :
  length (enumerate l start) = length l.
Proof.
  unfold enumerate. rewrite length_zip_with, length_seq. lia.
Qed.

(** The [i]-th item is the [i]-th voice with its number and its id. *)
Lemma voice_items_lookup w i :
  voice_items w !! i
  = (fun v => (i, str_or (v_name v) (lit "Unknown"), str_or (v_id v) []))
      <$> default [] (engine_voices w) !! i.
Proof.
  unfold voice_items.
  change (map voice_item ?l) with (voice_item <$> l).
  rewrite list_lookup_fmap, enumerate_lookup.
  by destruct (default [] (engine_voices w) !! i).
Qed.

Lemma length_voice_items w :
  length (voice_items w) = length (default [] (engine_voices w)).
Proof. unfold voice_items. by rewrite length_map, length_enumerate. Qed.

(** Whatever the line, a round of the voice prompt returns "no
    override" for a blank line, or the id of the voice whose number was
    typed, or asks again after the error message, or lets the [ValueError]
    of [int] escape.  The index is always in range. *)
Lemma voice_round_verdict items line :
  match voice_round items line with
  | (printed, Return None) => printed = [] ∧ Str.strip line = []
  | (printed, Return (Some vid)) =>
      printed = [] ∧
      ∃ i item, Str.to_int (Str.strip line) = Ok (Z.of_nat i)
                ∧ items !! i = Some item ∧ vid = item.2
  | (printed, Again) => printed = [invalid_voice]
  | (printed, Throw e) =>
      printed = [] ∧ e = ValueError (IntOfStr (Str.strip line))
  end.
Proof.
  unfold voice_round.
  destruct (Str.strip line) as [|c s] eqn:Hs; [done|]. simpl Str.is_empty.
  cbv iota. destruct (Str.isdigit (c :: s)); [|done].
  destruct (Str.to_int (c :: s)) as [i|e] eqn:Hi.
  - destruct (Z.leb_spec 0 i); [|done].
    destruct (Z.ltb_spec i (Z.of_nat (length items))); [|done]. simpl.
    destruct (items !! Z.to_nat i) as [item|] eqn:Hl.
    + split; [done|]. exists (Z.to_nat i), item.
      split; [f_equal; lia | done].
    + apply lookup_ge_None in Hl. lia.
  - split; [done|]. unfold Str.to_int in Hi.
    destruct (mapM _ _); [destruct (_ <? _)%nat|]; congruence.
Qed.

(** A line of decimal digits is accepted exactly when the number is
    below the number of voices. *)
Lemma voice_round_decimal items line :
  let s := Str.strip line in
  s ≠ [] → forallb Unicode.isdecimal s = true →
  (length s ≤ Str.int_max_str_digits)%nat →
  voice_round items line
  = match items !! Z.to_nat (Str.horner (decimal_values s)) with
    | Some item =>
        if (0 <=? Str.horner (decimal_values s))%Z
        then ([], Return (Some item.2)) else ([invalid_voice], Again)
    | None => ([invalid_voice], Again)
    end.
Proof.
  intros s Hne Hd Hlen. unfold voice_round. fold s.
  destruct s as [|c s'] eqn:Hs; [done|]. rewrite <- Hs in *.
  replace (Str.is_empty s) with false by by rewrite Hs.
  unfold Str.isdigit. replace (Str.is_empty s) with false by by rewrite Hs.
  rewrite isdecimal_isdigit by done. simpl negb. cbv iota. simpl andb.
  rewrite to_int_decimal by (done || by rewrite Hs).
  set (i := Str.horner (decimal_values s)).
  destruct (Z.leb_spec 0 i); simpl.
  - destruct (Z.ltb_spec i (Z.of_nat (length items))).
    + destruct (items !! Z.to_nat i) eqn:Hl; [done|].
      apply lookup_ge_None in Hl. lia.
    + rewrite (proj2 (lookup_ge_None items (Z.to_nat i))) by lia. done.
  - by destruct (items !! Z.to_nat i).
Qed.

Example voice_round_blank items : voice_round items (lit "  ") = ([], Return None).
Proof. reflexivity. Qed.

Example voice_round_negative items :
  voice_round items (lit "-1") = ([invalid_voice], Again).
Proof. reflexivity. Qed.

Example voice_round_superscript items :
  voice_round items superscript_two
  = ([], Throw (ValueError (IntOfStr superscript_two))).
Proof. reflexivity. Qed.

(** Without voices [choose_voice] says so and returns "no override";
    it does not prompt and reads nothing. *)
Lemma choose_voice_no_voices w st :
  voice_items w = [] →
  choose_voice w st
  = (Ok None, add_events [GetVoices; Print no_voices_message] st).
Proof.
  intros H. unfold choose_voice. run_with list_voices_eq. rewrite H.
  rewrite bool_decide_eq_true_2 by done. run_with print_eq.
  unfold mret, M_ret. by rewrite add_events_app.
Qed.

(** With voices, the menu is printed and the prompt loop starts. *)
Lemma choose_voice_menu w st :
  voice_items w ≠ [] →
  choose_voice w st
  = ask_until voice_prompt (voice_round (voice_items w))
      (add_events
         (GetVoices :: Print (newline ++ lit "Available voices:")
            :: map (fun item => Print (voice_line item)) (voice_items w))
         st).
Proof.
  intros H. unfold choose_voice. run_with list_voices_eq.
  rewrite bool_decide_eq_false_2 by done.
  run_with print_eq. run_with (for_each_print voice_line).
  by rewrite !add_events_app.
Qed.

End Voices.

(** C10, on the input on which the voice prompt fails: with at least one
    voice, the line "²" passes the guard [s.isdigit()], then [int(s)]
    raises [ValueError], which nothing catches.  [choose_voice] neither
    returns nor prompts again; the lines after "²" stay unread. *)
Theorem choose_voice_superscript_raises (w : World) (rest : list str)
    (st : State) :
  voice_items w ≠ [] →
  ∃ evs,
    choose_voice w (set_stdin (superscript_two :: rest) st)
    = (Raise (ValueError (IntOfStr superscript_two)),
       add_events (evs ++ [Prompt voice_prompt]) (set_stdin rest st)).
Proof.
  intros H. rewrite choose_voice_menu by done.
  rewrite (ask_until_round _ _ _ superscript_two rest) by reflexivity.
  rewrite voice_round_superscript. cbv iota zeta. simpl map.
  rewrite !set_stdin_add_events, set_stdin_twice, add_events_app.
  by eexists.
Qed.

(** The theorem in the sample world, which has two voices. *)
Lemma choose_voice_superscript_raises_witness :
  ∃ evs,
    choose_voice (Sample.world [])
                 (set_stdin [superscript_two; lit "0"] (initial [] ∅))
    = (Raise (ValueError (IntOfStr superscript_two)),
       add_events (evs ++ [Prompt voice_prompt])
                  (set_stdin [lit "0"] (initial [] ∅))).
Proof.
  apply (choose_voice_superscript_raises (Sample.world []) [lit "0"]).
  discriminate.
Defined.

(** In the sample world: "7" is out of range and "-1" is not a number,
    so the prompt comes again twice; "1" picks the second voice, whose id
    is missing and therefore empty. *)
Example choose_voice_sample :
  (choose_voice (Sample.world []) (initial [lit "7"; lit "-1"; lit "1"] ∅)).1
  = Ok (Some []).
Proof. reflexivity. Qed.

Example choose_voice_first :
  (choose_voice (Sample.world []) (initial [lit "0"] ∅)).1
  = Ok (Some (lit "com.voice.alex")).
Proof. reflexivity. Qed.

(** ** Collecting the settings *)

Section FormatDialogue.

Lemma differ_on_prefix (n : nat) (s t : str) : take n s ≠ take n t → s ≠ t.
Proof. intros H ->. by apply H. Qed.

Lemma other_event_not_format e :
  (∀ t, e ≠ Print t) → (∀ t, e ≠ Prompt t) → e ∉ format_dialogue.
Proof.
  intros Hprint Hprompt Hin. unfold format_dialogue, format_menu in Hin.
  simpl in Hin.
  repeat (apply elem_of_cons in Hin as [Hin|Hin];
          [first [by eapply Hprint | by eapply Hprompt]|]).
  by apply elem_of_nil in Hin.
Qed.

Lemma print_not_format t :
  take 3 t ≠ take 3 (newline ++ lit "Save format options:") →
  take 3 t ≠ lit "  w" → take 3 t ≠ lit "  m" → t ≠ invalid_format →
  Print t ∉ format_dialogue.
Proof.
  intros H1 H2 H3 H4 Hin. unfold format_dialogue, format_menu in Hin.
  simpl in Hin.
  repeat (apply elem_of_cons in Hin as [Hin|Hin];
          [try discriminate; injection Hin as ->|]).
  - by apply H1.
  - by apply H2.
  - by apply H3.
  - by apply H4.
  - by apply elem_of_nil in Hin.
Qed.

Lemma prompt_not_format t : t ≠ format_prompt → Prompt t ∉ format_dialogue.
Proof.
  intros H Hin. unfold format_dialogue, format_menu in Hin. simpl in Hin.
  repeat (apply elem_of_cons in Hin as [Hin|Hin];
          [try discriminate; injection Hin as ->|]).
  - done.
  - by apply elem_of_nil in Hin.
Qed.

(** No line the first three prompts print belongs to the save-format
    dialogue. *)
Ltac not_format :=
  first
    [ apply other_event_not_format; intros; discriminate
    | apply prompt_not_format; apply (differ_on_prefix 9);
      vm_compute; discriminate
    | apply print_not_format;
      first [ vm_compute; discriminate
            | apply (differ_on_prefix 3); vm_compute; discriminate ] ].

Lemma choose_voice_console w :
  console_only (fun e => e ∉ format_dialogue) (choose_voice w).
Proof.
  unfold choose_voice. apply console_only_bind.
  - unfold list_voices. apply console_only_bind.
    + apply console_only_emit. not_format.
    + intros _. apply console_only_ret.
  - intros items. case_bool_decide.
    + apply console_only_bind; [|intros _; apply console_only_ret].
      apply console_only_emit. not_format.
    + apply console_only_bind; [apply console_only_emit; not_format|].
      intros _. apply console_only_bind.
      * apply console_only_for_each. intros _ item _.
        apply console_only_emit. unfold voice_line. not_format.
      * intros _. apply console_only_ask_until; [not_format|].
        intros line. pose proof (voice_round_verdict items line) as Hv.
        destruct (voice_round items line) as [printed [[vid|]| |e]];
          simpl; [by destruct Hv as [-> _]..| |by destruct Hv as [-> _]].
        rewrite Hv. repeat constructor. not_format.
Qed.

Lemma choose_rate_console :
  console_only (fun e => e ∉ format_dialogue) (choose_rate default_rate).
Proof.
  apply console_only_ask_until; [not_format|].
  intros line. pose proof (rate_round_verdict default_rate line) as Hv.
  destruct (rate_round default_rate line) as [printed [r| |e]];
    simpl; [by destruct Hv as [-> _]| |by destruct Hv as [-> _]].
  rewrite Hv. repeat constructor. not_format.
Qed.

Lemma choose_mode_console w :
  console_only (fun e => e ∉ format_dialogue) (choose_mode w).
Proof.
  unfold choose_mode.
  do 4 (apply console_only_bind; [apply console_only_emit; not_format|];
        intros _).
  apply console_only_ask_until; [not_format|].
  intros line. pose proof (mode_round_verdict w line) as Hv.
  destruct (mode_round w line) as [printed [m| |e]];
    simpl; [by destruct Hv as [-> _]| |done].
  rewrite Hv. repeat constructor. not_format.
Qed.

Lemma choose_mode_result w st m st' :
  choose_mode w st = (Ok m, st') → m ∈ [lit "S"; lit "R"; lit "B"].
Proof.
  unfold choose_mode. do 4 run_with print_eq. intros H.
  apply ask_until_returns in H as (line & _ & Hr).
  pose proof (mode_round_verdict w line) as Hv.
  destruct (mode_round w line) as [printed step]. simpl in Hr. subst step.
  by destruct Hv.
Qed.

Lemma format_round_verdict w line :
  match format_round w line with
  | (printed, Return f) => printed = [] ∧ f ∈ [lit "wav"; lit "mp3"]
  | (printed, Again) => printed = [invalid_format]
  | (_, Throw _) => False
  end.
Proof.
  unfold format_round.
  destruct (Str.is_empty _); [split; [done | by left]|].
  destruct (Str.mem _ _) eqn:Hm; [|done].
  split; [done | by apply mem_elem_of].
Qed.

Lemma choose_save_format_result w st f st' :
  choose_save_format w st = (Ok f, st') → f ∈ [lit "wav"; lit "mp3"].
Proof.
  unfold choose_save_format. destruct (has_ffmpeg w); cbn [negb].
  - run_with (for_each_print (fun line : str => line)). intros H.
    apply ask_until_returns in H as (line & _ & Hr).
    pose proof (format_round_verdict w line) as Hv.
    destruct (format_round w line) as [printed step]. simpl in Hr.
    subst step. by destruct Hv.
  - intros [= <- _]. by left.
Qed.

(** The save-format dialogue uses the console only. *)
Lemma choose_save_format_console w :
  console_only (fun _ => True) (choose_save_format w).
Proof.
  unfold choose_save_format. destruct (has_ffmpeg w); cbn [negb].
  - apply console_only_bind.
    + apply console_only_for_each. intros _ line _.
      by apply console_only_emit.
    + intros _. apply console_only_ask_until; [done|].
      intros line. by apply Forall_true.
  - apply console_only_ret.
Qed.

End FormatDialogue.

(** C4: the save-format dialogue (menu, prompt, error message) appears
    only when the transcoder was found and the mode just chosen is "R" or
    "B"; settings produced with mode "S", or on a system without the
    transcoder, have [save_format = "wav"] and nothing of the dialogue was
    shown.  Every settings record has a mode among "S", "R", "B" and a
    format among "wav", "mp3". *)
Theorem format_asked_only_when_recording (w : World) (st : State) :
  ∃ evs,
    trace (collect_settings w st).2 = trace st ++ evs
    ∧ (Exists (fun e => e ∈ format_dialogue) evs →
         has_ffmpeg w = true
         ∧ ∃ m st1,
             (choose_voice w;; choose_rate default_rate;; choose_mode w) st
             = (Ok m, st1)
             ∧ m ∈ [lit "R"; lit "B"])
    ∧ (∀ s, (collect_settings w st).1 = Ok s →
         mode s ∈ [lit "S"; lit "R"; lit "B"]
         ∧ save_format s ∈ [lit "wav"; lit "mp3"]
         ∧ (mode s ∉ [lit "R"; lit "B"] ∨ has_ffmpeg w = false →
              save_format s = lit "wav"
              ∧ Forall (fun e => e ∉ format_dialogue) evs)).
Proof.
  set (quiet := fun e : Event => e ∉ format_dialogue).
  assert (Hquiet : ∀ evs, Forall quiet evs →
            ¬ Exists (fun e => e ∈ format_dialogue) evs).
  { intros evs Hall Hex. apply Exists_exists in Hex as (e & He & Hin).
    rewrite Forall_forall in Hall. by apply (Hall e). }
  unfold collect_settings.
  destruct (choose_voice w st) as [[v|e] st1] eqn:Hv.
  2:{ rewrite (bind_raise _ _ _ _ _ Hv).
      apply choose_voice_console in Hv as (_ & _ & _ & _ & evs & Ht & Hall).
      exists evs. split; [done|]. split; [by intros ?%Hquiet | done]. }
  rewrite (bind_ok _ _ _ _ _ Hv).
  destruct (choose_rate default_rate st1) as [[r|e] st2] eqn:Hr.
  2:{ rewrite (bind_raise _ _ _ _ _ Hr).
      pose proof (console_trans _ _ _ _ (choose_voice_console _ _ _ _ Hv)
                    (choose_rate_console _ _ _ Hr))
        as (_ & _ & _ & _ & evs & Ht & Hall).
      exists evs. split; [done|]. split; [by intros ?%Hquiet | done]. }
  rewrite (bind_ok _ _ _ _ _ Hr).
  destruct (choose_mode w st2) as [[m|e] st3] eqn:Hm.
  2:{ rewrite (bind_raise _ _ _ _ _ Hm).
      pose proof (console_trans _ _ _ _
                    (console_trans _ _ _ _ (choose_voice_console _ _ _ _ Hv)
                       (choose_rate_console _ _ _ Hr))
                    (choose_mode_console _ _ _ _ Hm))
        as (_ & _ & _ & _ & evs & Ht & Hall).
      exists evs. split; [done|]. split; [by intros ?%Hquiet | done]. }
  rewrite (bind_ok _ _ _ _ _ Hm).
  pose proof (console_trans _ _ _ _
                (console_trans _ _ _ _ (choose_voice_console _ _ _ _ Hv)
                   (choose_rate_console _ _ _ Hr))
                (choose_mode_console _ _ _ _ Hm))
    as (_ & _ & _ & _ & evs & Ht & Hall).
  assert (Hprefix :
    (choose_voice w;; choose_rate default_rate;; choose_mode w) st
    = (Ok m, st3)).
  { by rewrite (bind_ok _ _ _ _ _ Hv), (bind_ok _ _ _ _ _ Hr). }
  pose proof (choose_mode_result _ _ _ _ Hm) as Hmode.
  destruct (Str.mem m [lit "R"; lit "B"]) eqn:Hrec.
  - (* a recording mode *)
    apply mem_elem_of in Hrec.
    destruct (has_ffmpeg w) eqn:Hff.
    + (* the dialogue takes place *)
      destruct (choose_save_format w st3) as [[f|e] st4] eqn:Hf.
      * rewrite (bind_ok _ _ _ _ _ Hf). unfold mret, M_ret. simpl.
        pose proof (choose_save_format_result _ _ _ _ Hf) as Hfmt.
        apply choose_save_format_console
          in Hf as (_ & _ & _ & _ & evs' & Ht' & _).
        exists (evs ++ evs'). split; [by rewrite Ht', Ht, app_assoc|].
        split; [by eauto|]. intros s [= <-]. simpl.
        split; [done|]. split; [done|]. by intros [?|?].
      * rewrite (bind_raise _ _ _ _ _ Hf). simpl.
        apply choose_save_format_console
          in Hf as (_ & _ & _ & _ & evs' & Ht' & _).
        exists (evs ++ evs'). split; [by rewrite Ht', Ht, app_assoc|].
        split; [by eauto | done].
    + (* no transcoder: the format is fixed silently *)
      unfold choose_save_format. rewrite Hff. cbn [negb].
      unfold mbind, M_bind, mret, M_ret. simpl.
      exists evs. split; [done|]. split; [by intros ?%Hquiet|].
      intros s [= <-]. simpl. split; [done|]. split; [by left | done].
  - (* mode "S": the format is fixed silently *)
    unfold mbind, M_bind, mret, M_ret. simpl.
    exists evs. split; [done|]. split; [by intros ?%Hquiet|].
    intros s [= <-]. simpl. split; [done|]. split; [by left | done].
Qed.

(** On a system without the transcoder a recording mode gets "wav" without
    any question. *)
Lemma format_asked_only_when_recording_witness :
  ∃ s,
    (collect_settings (Sample.without_ffmpeg (Sample.world []))
                      (initial [[]; lit "90"; lit "r"; lit "mp3"] ∅)).1
    = Ok s
    ∧ mode s = lit "R" ∧ save_format s = lit "wav".
Proof.
  destruct (format_asked_only_when_recording
              (Sample.without_ffmpeg (Sample.world []))
              (initial [[]; lit "90"; lit "r"; lit "mp3"] ∅))
    as (evs & _ & _ & H).
  eexists. split; [reflexivity|]. split; [reflexivity|].
  apply (H _ eq_refl). by right.
Defined.

(** With the transcoder and a recording mode the dialogue takes place. *)
Example collect_settings_asks_format :
  (collect_settings (Sample.world []) (initial [[]; []; lit "b"; lit "MP3"] ∅)).1
  = Ok (mkSettings None 170 (lit "B") (lit "mp3"))
  ∧ Prompt format_prompt
    ∈ trace (collect_settings (Sample.world [])
               (initial [[]; []; lit "b"; lit "MP3"] ∅)).2.
Proof.
  split; [reflexivity|]. apply list_elem_of_lookup. by exists 14%nat.
Qed.

(** ** File names *)

Section Names.

Lemma horner_snoc ds d : Str.horner (ds ++ [d]) = (10 * Str.horner ds + d)%Z.
Proof. unfold Str.horner. by rewrite fold_left_app. Qed.

Lemma decimal_value_ascii (k : nat) :
  (k < 10)%nat →
  Unicode.decimal_value (0x30 + N.of_nat k) = Some (Z.of_nat k).
Proof.
  intros H. do 10 (destruct k as [|k]; [reflexivity|]). lia.
Qed.

Lemma digits_upto_S fuel n :
  Str.digits_upto (S fuel) n
  = if (n <? 10)%nat then [0x30 + N.of_nat n]
    else Str.digits_upto fuel (n / 10)%nat ++ [0x30 + N.of_nat (n mod 10)%nat].
Proof. reflexivity. Qed.

Lemma digits_upto_value fuel n :
  (n < fuel)%nat →
  Str.horner (decimal_values (Str.digits_upto fuel n)) = Z.of_nat n.
Proof.
  revert n. induction fuel as [|fuel IH]; intros n Hn; [lia|].
  rewrite digits_upto_S.
  destruct (Nat.ltb_spec n 10) as [Hlt|Hge].
  - unfold decimal_values. cbn [map]. rewrite decimal_value_ascii by done.
    unfold Str.horner. cbn [fold_left default from_option id]. lia.
  - pose proof (Nat.div_mod n 10 ltac:(lia)) as Hd.
    pose proof (Nat.mod_upper_bound n 10 ltac:(lia)) as Hm.
    unfold decimal_values. rewrite map_app.
    change (map _ (Str.digits_upto fuel (n / 10)))
      with (decimal_values (Str.digits_upto fuel (n / 10))).
    cbn [map]. rewrite horner_snoc, decimal_value_ascii by done.
    cbn [default from_option id]. rewrite IH by lia. lia.
Qed.

(** [str(n)] denotes [n]. *)
Lemma of_nat_value n : Str.horner (decimal_values (Str.of_nat n)) = Z.of_nat n.
Proof. apply digits_upto_value. lia. Qed.

Lemma horner_leading_zeros k ds :
  Str.horner (repeat 0%Z k ++ ds) = Str.horner ds.
Proof.
  unfold Str.horner. rewrite fold_left_app. f_equal.
  induction k as [|k IH]; [done|]. simpl. exact IH.
Qed.

(** Zero padding does not change the number. *)
Lemma format_03d_value n :
  Str.horner (decimal_values (Str.format_03d n)) = Z.of_nat n.
Proof.
  unfold Str.format_03d, decimal_values. rewrite map_app.
  change (map _ (Str.of_nat n)) with (decimal_values (Str.of_nat n)).
  replace (map _ (repeat 48 _))
    with (repeat 0%Z (3 - length (Str.of_nat n))).
  - by rewrite horner_leading_zeros, of_nat_value.
  - induction (3 - length (Str.of_nat n))%nat as [|k IH]; [done|].
    simpl. by rewrite <- IH.
Qed.

Lemma format_03d_inj i j : Str.format_03d i = Str.format_03d j → i = j.
Proof.
  intros H. apply Nat2Z.inj. by rewrite <- !format_03d_value, H.
Qed.

Lemma part_name_inj base i j : part_name base i = part_name base j → i = j.
Proof.
  unfold part_name. intros H.
  apply app_inv_head, app_inv_head, app_inv_tail in H.
  by apply format_03d_inj.
Qed.

Lemma wav_path_inj out base i j :
  wav_path out base i = wav_path out base j → i = j.
Proof.
  unfold wav_path, PathLib.joinpath. intros H.
  apply (f_equal name) in H. cbn [name] in H. by eapply part_name_inj.
Qed.

Lemma rfind_dot_app x t i :
  PathLib.rfind_dot t = Some i →
  PathLib.rfind_dot (x ++ t) = Some (length x + i)%nat.
Proof.
  intros H. induction x as [|c x IH]; [done|]. simpl. by rewrite IH.
Qed.

(** The file names of the script end in ".wav" after a stem that is not
    empty, so [with_suffix] replaces exactly that ending. *)
Lemma with_suffix_wav dir stem :
  stem ≠ [] →
  PathLib.with_suffix (mkPath dir (stem ++ lit ".wav")) (lit ".mp3")
  = mkPath dir (stem ++ lit ".mp3").
Proof.
  intros Hne. unfold PathLib.with_suffix, PathLib.suffix_start. simpl name.
  rewrite (rfind_dot_app stem (lit ".wav") 0) by reflexivity.
  rewrite Nat.add_0_r, length_app.
  change (length (lit ".wav")) with 4%nat.
  destruct stem as [|c stem]; [done|].
  destruct (Nat.ltb_spec 0 (length (c :: stem))); [|simpl in *; lia].
  destruct (Nat.ltb_spec (length (c :: stem)) (length (c :: stem) + 4 - 1));
    [|lia].
  simpl andb. cbv iota. simpl parent.
  by rewrite take_app_length.
Qed.

Lemma mp3_of_wav_path out base idx :
  mp3_of (wav_path out base idx)
  = mkPath (PathLib.to_str out)
           (base ++ lit "_part" ++ Str.format_03d idx ++ lit ".mp3").
Proof.
  unfold mp3_of, wav_path, PathLib.joinpath, part_name.
  rewrite !app_assoc. rewrite with_suffix_wav; [done|].
  intros H. apply (f_equal (@length N)) in H.
  rewrite !length_app in H. simpl in H. lia.
Qed.

Lemma mp3_of_inj out base i j :
  mp3_of (wav_path out base i) = mp3_of (wav_path out base j) → i = j.
Proof.
  rewrite !mp3_of_wav_path. intros H.
  apply (f_equal name) in H. cbn [name] in H.
  apply app_inv_head, app_inv_head, app_inv_tail in H.
  by apply format_03d_inj.
Qed.

(** An MP3 file is never one of the WAV files. *)
Lemma mp3_of_not_wav out base i j :
  mp3_of (wav_path out base i) ≠ wav_path out base j.
Proof.
  rewrite mp3_of_wav_path. unfold wav_path, PathLib.joinpath, part_name.
  intros H. apply (f_equal name) in H. cbn [name] in H.
  rewrite !app_assoc in H.
  apply app_inj_2 in H as [_ H]; [discriminate | reflexivity].
Qed.

End Names.

(** ** The engine and the transcoder *)

Section Engine.

Lemma chunk_text_default text :
  chunk_text text default_max_chars = Ok (chunks_of text).
Proof.
  unfold chunks_of, chunk_text. by rewrite range0_positive.
Qed.

Lemma set_property_eq pname v st :
  set_property pname v st
  = (Ok tt, add_events [SetProperty pname v]
              (set_props (apply_property pname v (props st)) st)).
Proof. reflexivity. Qed.

Lemma apply_rate z p :
  apply_property (lit "rate") (PInt z) p
  = mkProps (Some z) (prop_volume p) (prop_voice p).
Proof. reflexivity. Qed.

Lemma apply_volume q p :
  apply_property (lit "volume") (PFloat q) p
  = mkProps (prop_rate p) (Some q) (prop_voice p).
Proof. reflexivity. Qed.

Lemma apply_voice v p :
  apply_property (lit "voice") (PStr v) p
  = mkProps (prop_rate p) (prop_volume p) (Some v).
Proof. reflexivity. Qed.

Lemma configure_engine_eq s st :
  configure_engine s st
  = (Ok tt, add_events (configure_events s)
              (set_props (configured s (props st)) st)).
Proof.
  unfold configure_engine, configure_events, configured.
  do 2 run_with set_property_eq. rewrite apply_rate, apply_volume.
  destruct st as [lines d p q t].
  destruct (voice_id s) as [[|c v]|];
    rewrite ?set_property_eq, ?apply_voice;
    unfold mret, M_ret, add_events, set_props; simpl;
    by rewrite <- ?app_assoc.
Qed.

Lemma configured_twice s p : configured s (configured s p) = configured s p.
Proof. unfold configured. simpl. by destruct (voice_id s) as [[|c v]|]. Qed.

Lemma save_chunk_eq base out files idx part st :
  save_chunk base out files (idx, part) st
  = (Ok (files ++ [wav_path out base idx]),
     add_events (save_events out base [(idx, part)])
       (set_queue (queue st ++ save_commands out base [(idx, part)]) st)).
Proof. reflexivity. Qed.

Lemma save_loop base out items files st :
  for_each items files (save_chunk base out) st
  = (Ok (files ++ map (fun item => wav_path out base item.1) items),
     add_events (save_events out base items)
       (set_queue (queue st ++ save_commands out base items) st)).
Proof.
  revert files st. induction items as [|[idx part] items IH]; intros files st.
  - simpl. unfold mret, M_ret. rewrite !app_nil_r, add_events_nil.
    by destruct st.
  - rewrite for_each_cons. run_with save_chunk_eq. rewrite IH.
    f_equal; [by rewrite <- app_assoc|].
    unfold add_events, set_queue. simpl. by rewrite <- !app_assoc.
Qed.

Lemma save_wav_chunks_eq text base out st :
  let items := enumerate (chunks_of text) 1 in
  save_wav_chunks text base out st
  = (Ok (map (fun item => wav_path out base item.1) items),
     add_events (Mkdir out :: save_events out base items)
       (set_queue (queue st ++ save_commands out base items) st)).
Proof.
  intros items. unfold save_wav_chunks. run_with emit_eq.
  erewrite bind_ok; [|unfold lift; by rewrite chunk_text_default].
  rewrite save_loop. fold items. f_equal.
  unfold add_events, set_queue. simpl. by rewrite <- app_assoc.
Qed.

(** Carrying out queued file commands writes the files, nothing else. *)
Lemma perform_saves w out base items st :
  fold_left (fun s c => perform w c s) (save_commands out base items) st
  = set_disk (written (synthesised w (props st) out base items) (disk st)) st.
Proof.
  revert st. induction items as [|item items IH]; intros st.
  - by destruct st.
  - simpl. by rewrite IH.
Qed.

Lemma run_and_wait_saves w out base items st :
  queue st = save_commands out base items →
  run_and_wait w st
  = (Ok tt,
     add_events [RunAndWait]
       (set_queue []
          (set_disk (written (synthesised w (props st) out base items)
                             (disk st)) st))).
Proof.
  intros Hq. unfold run_and_wait. simpl queue. rewrite Hq, perform_saves.
  reflexivity.
Qed.

(** Carrying out queued speech plays it, nothing else. *)
Lemma perform_speech w chunks st :
  fold_left (fun s c => perform w c s) (map Speak chunks) st
  = add_events (map (Spoken (props st)) chunks) st.
Proof.
  revert st. induction chunks as [|c chunks IH]; intros st.
  - by rewrite add_events_nil.
  - simpl. rewrite IH. by rewrite add_events_app.
Qed.

Lemma say_loop chunks st :
  for_each chunks tt (fun _ part => say part) st
  = (Ok tt, add_events (map Say chunks)
              (set_queue (queue st ++ map Speak chunks) st)).
Proof.
  revert st. induction chunks as [|c chunks IH]; intros st.
  - simpl. unfold mret, M_ret. rewrite add_events_nil, app_nil_r.
    by destruct st.
  - rewrite for_each_cons.
    rewrite (bind_ok _ _ _ tt
               (add_events [Say c] (set_queue (queue st ++ [Speak c]) st)))
      by reflexivity.
    rewrite IH. unfold add_events, set_queue. simpl.
    by rewrite <- !app_assoc.
Qed.

Lemma speak_text_eq w text st :
  queue st = [] →
  speak_text w text st
  = (Ok tt,
     add_events (map Say (chunks_of text) ++ RunAndWait
                   :: map (Spoken (props st)) (chunks_of text))
                st).
Proof.
  intros Hq. unfold speak_text.
  erewrite bind_ok; [|unfold lift; by rewrite chunk_text_default].
  run_with say_loop. unfold run_and_wait. simpl queue. rewrite Hq. simpl app.
  rewrite perform_speech. destruct st. unfold add_events, set_queue. simpl.
  simpl in Hq. subst. by rewrite <- !app_assoc.
Qed.

End Engine.

Section Disk.

Lemma written_lookup_ne files d q :
  (∀ file, file ∈ files → file.1 ≠ q) → written files d !! q = d !! q.
Proof.
  revert d. induction files as [|file files IH]; intros d H; [done|].
  simpl. rewrite IH by (intros ? ?; apply H; by right).
  apply lookup_insert_ne, H. by left.
Qed.

Lemma written_lookup files d p a :
  NoDup (map fst files) → (p, a) ∈ files → written files d !! p = Some a.
Proof.
  revert d. induction files as [|file files IH]; intros d Hnd Hin.
  - by apply elem_of_nil in Hin.
  - simpl in Hnd. apply NoDup_cons in Hnd as [Hnotin Hnd].
    apply elem_of_cons in Hin as [<-|Hin]; simpl.
    + rewrite written_lookup_ne; [apply lookup_insert_eq|].
      intros file Hfile Heq. apply Hnotin. simpl. rewrite <- Heq.
      change (map fst files) with (fst <$> files).
      by apply list_elem_of_fmap_2.
    + by apply IH.
Qed.

Lemma transcoded_lookup_ne w files d q :
  (∀ file, file ∈ files → mp3_of file.1 ≠ q) →
  transcoded w files d !! q = d !! q.
Proof.
  revert d. induction files as [|file files IH]; intros d H; [done|].
  simpl. rewrite IH by (intros ? ?; apply H; by right).
  destruct (ffmpeg w file.1 (Some file.2)).2; [|done].
  apply lookup_insert_ne, H. by left.
Qed.

Lemma transcoded_lookup w files d p a b :
  NoDup (map (fun file => mp3_of file.1) files) → (p, a) ∈ files →
  (ffmpeg w p (Some a)).2 = Some b →
  transcoded w files d !! mp3_of p = Some b.
Proof.
  revert d. induction files as [|file files IH]; intros d Hnd Hin Hb.
  - by apply elem_of_nil in Hin.
  - simpl in Hnd. apply NoDup_cons in Hnd as [Hnotin Hnd].
    apply elem_of_cons in Hin as [<-|Hin]; simpl.
    + rewrite Hb, transcoded_lookup_ne; [apply lookup_insert_eq|].
      intros file Hfile Heq. apply Hnotin. simpl. rewrite <- Heq.
      change (map ?f files) with (f <$> files).
      by apply (list_elem_of_fmap_2 (fun file => mp3_of file.1)).
    + by apply IH.
Qed.

Lemma transcoded_app w files1 files2 d :
  transcoded w (files1 ++ files2) d
  = transcoded w files2 (transcoded w files1 d).
Proof. unfold transcoded. by rewrite fold_left_app. Qed.

End Disk.

(** ** The transcoding loop *)

Section Transcoding.

Context (w : World).

Lemma convert_wav_to_mp3_eq wav a st :
  disk st !! wav = Some a →
  convert_wav_to_mp3 w wav st
  = (if ((ffmpeg w wav (Some a)).1 =? 0)%Z then Ok (mp3_of wav)
     else Raise (CalledProcessError (ffmpeg w wav (Some a)).1
                                    (ffmpeg_argv wav (mp3_of wav))),
     add_events [transcode_event w (wav, a)]
       (set_disk (transcoded w [(wav, a)] (disk st)) st)).
Proof.
  intros H. unfold convert_wav_to_mp3, transcode_event, transcoded. rewrite H.
  fold (mp3_of wav). simpl.
  destruct (ffmpeg w wav (Some a)) as [rc [b|]]; simpl;
    by destruct (rc =? 0)%Z.
Qed.

Lemma convert_next_ok acc wav a st :
  disk st !! wav = Some a → (ffmpeg w wav (Some a)).1 = 0%Z →
  convert_next w acc wav st
  = (Ok (acc ++ [mp3_of wav]),
     add_events [transcode_event w (wav, a)]
       (set_disk (transcoded w [(wav, a)] (disk st)) st)).
Proof.
  intros Hd Hrc. unfold convert_next.
  erewrite bind_ok; [reflexivity|].
  rewrite (convert_wav_to_mp3_eq wav a) by done. by rewrite Hrc.
Qed.

Lemma convert_next_fail acc wav a st :
  disk st !! wav = Some a → (ffmpeg w wav (Some a)).1 ≠ 0%Z →
  convert_next w acc wav st
  = (Raise (CalledProcessError (ffmpeg w wav (Some a)).1
                               (ffmpeg_argv wav (mp3_of wav))),
     add_events [transcode_event w (wav, a)]
       (set_disk (transcoded w [(wav, a)] (disk st)) st)).
Proof.
  intros Hd Hrc. unfold convert_next.
  erewrite bind_raise; [reflexivity|].
  rewrite (convert_wav_to_mp3_eq wav a) by done.
  by destruct (Z.eqb_spec (ffmpeg w wav (Some a)).1 0).
Qed.

Lemma ready_after_transcoding file files d :
  apart (file :: files) → ready (file :: files) d →
  ready files (transcoded w [file] d).
Proof.
  intros Hapart Hready g Hg.
  rewrite transcoded_lookup_ne; [apply Hready; by right|].
  intros f Hf. apply list_elem_of_singleton in Hf as ->.
  apply Hapart; [by left | by right].
Qed.

Lemma apart_tail file files : apart (file :: files) → apart files.
Proof. intros H f g Hf Hg. apply H; by right. Qed.

(** All runs succeed: every file is converted, in order. *)
Lemma convert_loop_ok files acc st :
  apart files → ready files (disk st) →
  Forall (fun file => (ffmpeg w file.1 (Some file.2)).1 = 0%Z) files →
  for_each (map fst files) acc (convert_next w) st
  = (Ok (acc ++ map (fun file => mp3_of file.1) files),
     add_events (map (transcode_event w) files)
       (set_disk (transcoded w files (disk st)) st)).
Proof.
  revert acc st. induction files as [|[wav a] files IH];
    intros acc st Hapart Hready Hok.
  - simpl. unfold mret, M_ret. rewrite app_nil_r, add_events_nil.
    by destruct st.
  - inversion Hok as [|? ? Hrc Hok']; subst. simpl in Hrc.
    simpl map. rewrite for_each_cons.
    erewrite bind_ok;
      [|apply (convert_next_ok _ wav a); [apply (Hready (wav, a)); by left|done]].
    rewrite IH; [| by eapply apart_tail | | done].
    + rewrite <- app_assoc. f_equal.
      unfold add_events, set_disk. simpl. by rewrite <- app_assoc.
    + by apply ready_after_transcoding.
Qed.

(** The first failing run ends the loop with its error. *)
Lemma convert_loop_fail oks bad rest acc st :
  apart (oks ++ bad :: rest) → ready (oks ++ bad :: rest) (disk st) →
  Forall (fun file => (ffmpeg w file.1 (Some file.2)).1 = 0%Z) oks →
  (ffmpeg w bad.1 (Some bad.2)).1 ≠ 0%Z →
  for_each (map fst (oks ++ bad :: rest)) acc (convert_next w) st
  = (Raise (CalledProcessError (ffmpeg w bad.1 (Some bad.2)).1
                               (ffmpeg_argv bad.1 (mp3_of bad.1))),
     add_events (map (transcode_event w) (oks ++ [bad]))
       (set_disk (transcoded w (oks ++ [bad]) (disk st)) st)).
Proof.
  revert acc st. induction oks as [|[wav a] oks IH];
    intros acc st Hapart Hready Hok Hbad.
  - destruct bad as [wav a]. simpl in Hbad. simpl app. simpl map.
    rewrite for_each_cons.
    erewrite bind_raise; [reflexivity|].
    apply (convert_next_fail _ wav a); [|done].
    apply (Hready (wav, a)). by left.
  - inversion Hok as [|? ? Hrc Hok']; subst. simpl in Hrc.
    simpl app. simpl map. rewrite for_each_cons.
    erewrite bind_ok;
      [|apply (convert_next_ok _ wav a); [apply (Hready (wav, a)); by left|done]].
    rewrite IH; [| by eapply apart_tail | | done | done].
    + f_equal. unfold add_events, set_disk. simpl. by rewrite <- app_assoc.
    + by apply ready_after_transcoding.
Qed.

End Transcoding.

(** ** The phases of [main] *)

Section Talk.

Lemma Forall_print_talk (l : list str) : Forall is_talk (map Print l).
Proof. apply Forall_fmap, Forall_true. by intros t. Qed.

Lemma ask_until_talk {A} prompt (body : str → Round A) :
  console_only is_talk (ask_until prompt body).
Proof.
  apply console_only_ask_until; [done|]. intros line. apply Forall_print_talk.
Qed.

Lemma print_talk t : console_only is_talk (print t).
Proof. by apply console_only_emit. Qed.

Lemma choose_voice_talk w : console_only is_talk (choose_voice w).
Proof.
  unfold choose_voice. apply console_only_bind.
  - unfold list_voices. apply console_only_bind.
    + by apply console_only_emit.
    + intros _. apply console_only_ret.
  - intros items. case_bool_decide.
    + apply console_only_bind; [apply print_talk|].
      intros _. apply console_only_ret.
    + apply console_only_bind; [apply print_talk|].
      intros _. apply console_only_bind.
      * apply console_only_for_each. intros _ item _. apply print_talk.
      * intros _. apply ask_until_talk.
Qed.

Lemma choose_mode_talk w : console_only is_talk (choose_mode w).
Proof.
  unfold choose_mode.
  do 4 (apply console_only_bind; [apply print_talk|]; intros _).
  apply ask_until_talk.
Qed.

Lemma choose_save_format_talk w : console_only is_talk (choose_save_format w).
Proof.
  unfold choose_save_format. destruct (has_ffmpeg w); cbn [negb].
  - apply console_only_bind.
    + apply console_only_for_each. intros _ line _. apply print_talk.
    + intros _. apply ask_until_talk.
  - apply console_only_ret.
Qed.

Lemma collect_settings_talk w : console_only is_talk (collect_settings w).
Proof.
  unfold collect_settings.
  apply console_only_bind; [apply choose_voice_talk|]. intros v.
  apply console_only_bind; [apply ask_until_talk|]. intros r.
  apply console_only_bind; [apply choose_mode_talk|]. intros m.
  apply console_only_bind; [|intros f; apply console_only_ret].
  destruct (Str.mem m _); [apply choose_save_format_talk|].
  apply console_only_ret.
Qed.

Lemma talk_not_subprocess e : is_talk e → is_subprocess e = false.
Proof. by destruct e. Qed.

End Talk.

Section Setup.

(** What [main_setup] leaves behind when it succeeds: the text is not
    empty, the disk and the queue are untouched, the engine carries the
    settings, and the transcoder has not run. *)
Lemma main_setup_ok w st pdf text s st1 :
  main_setup w st = (Ok (pdf, text, s), st1) →
  text ≠ [] ∧ trimmed text
  ∧ disk st1 = disk st ∧ queue st1 = queue st
  ∧ props st1 = configured s (props st)
  ∧ ∃ evs, trace st1 = trace st ++ evs
           ∧ Forall (fun e => is_subprocess e = false) evs.
Proof.
  unfold main_setup. run_with pick_pdf_file_eq.
  destruct (Str.is_empty (dialog_result w)); [done|].
  run_with print_eq. run_with extract_pdf_text_eq.
  set (txt := Str.join newline _).
  assert (Htrim : trimmed txt) by apply join_trimmed, segments_trimmed.
  destruct txt as [|c body] eqn:Htxt; [done|]. rewrite <- Htxt in *.
  replace (Str.is_empty txt) with false by by rewrite Htxt.
  run_with print_eq. unfold engine_init. run_with emit_eq.
  rewrite !add_events_app.
  set (st0 := add_events _ st).
  destruct (collect_settings w st0) as [[s'|e] st2] eqn:Hc.
  2:{ by rewrite (bind_raise _ _ _ _ _ Hc). }
  rewrite (bind_ok _ _ _ _ _ Hc). run_with configure_engine_eq.
  intros [= <- <- <- <-].
  apply collect_settings_talk in Hc as (Hd & Hq & Hp & _ & evs & Ht & Hevs).
  split; [by rewrite Htxt|]. split; [done|].
  unfold st0, add_events, set_props in *.
  cbn [disk queue props trace stdin] in *.
  split; [done|]. split; [done|]. split; [by rewrite Hp|].
  eexists. split; [rewrite Ht, <- !app_assoc; reflexivity|].
  repeat (apply Forall_app; split); repeat constructor.
  - apply Forall_fmap, Forall_true. by intros t.
  - eapply Forall_impl; [exact Hevs | apply talk_not_subprocess].
  - destruct (voice_id s') as [[|c' v]|]; by repeat constructor.
Qed.

End Setup.

Section Recording.

Context (w : World).

Lemma synthesised_wavs p out base items :
  map fst (synthesised w p out base items)
  = map (fun item : nat * str => wav_path out base item.1) items.
Proof. unfold synthesised. rewrite map_map. done. Qed.

Lemma synthesised_elem p out base items file :
  file ∈ synthesised w p out base items →
  ∃ idx, file.1 = wav_path out base idx.
Proof.
  unfold synthesised. intros H.
  apply list_elem_of_fmap in H as (item & -> & _). by eexists.
Qed.

Lemma enumerate_numbers {A} (l : list A) start :
  map fst (enumerate l start) = seq start (length l).
Proof.
  unfold enumerate. apply (fst_zip (seq start (length l)) l).
  by rewrite length_seq.
Qed.

Lemma NoDup_wavs p out base chunks start :
  NoDup (map fst (synthesised w p out base (enumerate chunks start))).
Proof.
  rewrite synthesised_wavs.
  replace (map _ (enumerate chunks start))
    with (wav_path out base <$> map fst (enumerate chunks start))
    by (by rewrite <- list_fmap_compose).
  rewrite enumerate_numbers.
  apply NoDup_fmap_2_strong; [|apply NoDup_seq].
  intros i j _ _. apply wav_path_inj.
Qed.

Lemma NoDup_mp3s p out base chunks start :
  NoDup (map (fun file => mp3_of file.1)
             (synthesised w p out base (enumerate chunks start))).
Proof.
  replace (map _ (synthesised w p out base (enumerate chunks start)))
    with ((fun idx => mp3_of (wav_path out base idx))
            <$> map fst (enumerate chunks start)).
  - rewrite enumerate_numbers.
    apply NoDup_fmap_2_strong; [|apply NoDup_seq].
    intros i j _ _. apply mp3_of_inj.
  - unfold synthesised. by rewrite <- list_fmap_compose, map_map.
Qed.

Lemma apart_synthesised p out base items :
  apart (synthesised w p out base items).
Proof.
  intros f g Hf Hg.
  apply synthesised_elem in Hf as [i ->].
  apply synthesised_elem in Hg as [j ->].
  apply mp3_of_not_wav.
Qed.

Lemma ready_written files d :
  NoDup (map fst files) → ready files (written files d).
Proof. intros Hnd [p a] Hin. by apply written_lookup. Qed.

(** The recording phase up to the choice of the format. *)
Lemma main_record_saved s text base out st :
  mode s ∈ [lit "R"; lit "B"] → queue st = [] →
  let items := enumerate (chunks_of text) 1 in
  let files := synthesised w (configured s (props st)) out base items in
  let st2 := add_events (recording_events s out base items)
               (set_props (configured s (props st))
                  (set_disk (written files (disk st)) st)) in
  main_record w s text base out st
  = (if Str.eqb (save_format s) (lit "mp3") then
       print (lit "Converting to MP3 (ffmpeg)" ++ [0x2026]);;
       for_each (map fst files) [] (convert_next w)
     else mret (map fst files)) st2.
Proof.
  intros Hmode Hq items files st2. unfold main_record.
  rewrite (proj2 (mem_elem_of _ _) Hmode).
  run_with print_eq. unfold engine_init. run_with emit_eq.
  run_with configure_engine_eq. run_with save_wav_chunks_eq.
  erewrite bind_ok; cycle 1.
  { apply (run_and_wait_saves w out base items). simpl. by rewrite Hq. }
  fold items. simpl props. fold files.
  replace (map (fun item : nat * str => wav_path out base item.1) items)
    with (map fst files) by apply synthesised_wavs.
  replace (add_events [RunAndWait] _) with st2; [done|].
  subst st2. apply state_ext; autorewrite with state; try done.
  unfold recording_events. by rewrite <- !app_assoc.
Qed.

(** The speaking phase leaves the disk alone and does not transcode. *)
Lemma main_speak_ok s text st :
  queue st = [] →
  ∃ evs st',
    main_speak w s text st = (Ok tt, st')
    ∧ disk st' = disk st ∧ trace st' = trace st ++ evs
    ∧ Forall (fun e => is_subprocess e = false) evs.
Proof.
  intros Hq. unfold main_speak. destruct (Str.mem (mode s) _).
  - run_with print_eq. unfold engine_init. run_with emit_eq.
    run_with configure_engine_eq. rewrite speak_text_eq by done.
    rewrite !add_events_app. eexists _, _. split; [reflexivity|].
    split; [reflexivity|].
    split; [unfold add_events, set_props; cbn [trace];
            rewrite <- app_assoc; reflexivity|].
    repeat (apply Forall_app; split); repeat constructor.
    + destruct (voice_id s) as [[|c' v]|]; by repeat constructor.
    + apply Forall_fmap, Forall_true. by intros t.
    + apply Forall_fmap, Forall_true. by intros t.
  - exists [], st. unfold mret, M_ret. rewrite app_nil_r.
    split; [done|]. split; [done|]. split; [done | constructor].
Qed.

Lemma main_report_eq saved out st :
  main_report saved out st = (Ok tt, add_events (map Print (report saved out)) st).
Proof. unfold main_report. apply (for_each_print (fun line : str => line)). Qed.

End Recording.

Section NonEmpty.

Lemma split_from_word word s : word ≠ [] → Str.split_from word s ≠ [].
Proof.
  revert word. induction s as [|c s IH]; intros word Hw; simpl.
  - by destruct word.
  - destruct (Unicode.isspace c); [by destruct word|]. by apply IH.
Qed.

Lemma normalize_nonempty text : text ≠ [] → trimmed text → normalize text ≠ [].
Proof.
  intros Hne [Hhead _]. destruct text as [|c r]; [done|].
  unfold normalize, Str.split. simpl. rewrite (Hhead c r eq_refl).
  pose proof (split_from_word [c] r ltac:(done)) as Hs.
  pose proof (split_from_words [c] r) as Hw.
  destruct (Str.split_from [c] r) as [|x xs]; [done|].
  assert (Hx : is_word x).
  { eapply Forall_inv, Hw. repeat constructor. apply (Hhead c r eq_refl). }
  destruct Hx as [Hx _]. destruct x; [done|]. by destruct xs.
Qed.

(** A text with something to say has at least one chunk. *)
Lemma chunks_of_nonempty text : text ≠ [] → trimmed text → chunks_of text ≠ [].
Proof.
  intros Hne Ht. pose proof (normalize_nonempty text Hne Ht) as Hn.
  unfold chunks_of, chunk_text. rewrite range0_positive by done.
  destruct (normalize text) as [|c t]; [done|].
  intros H. apply (f_equal (@length (list N))) in H.
  rewrite !length_map, length_seq in H.
  change (Z.to_nat default_max_chars) with 1200%nat in H.
  change (length (@nil (list N))) with 0%nat in H.
  pose proof (ceil_div_bounds (length (c :: t)) 1200 ltac:(lia)) as [Hlo _].
  cbv zeta in Hlo. rewrite H in Hlo. simpl in Hlo. lia.
Qed.

End NonEmpty.

Section RecordPhase.

Context (w : World) (s : TTSSettings) (text base : str) (out : Path)
        (st : State).

Let items := enumerate (chunks_of text) 1.
Let files := synthesised w (configured s (props st)) out base items.

Lemma files_ready : ready files (written files (disk st)).
Proof. apply ready_written, NoDup_wavs. Qed.

(** Recording with format "wav": the saved files are the WAV files. *)
Lemma main_record_wav :
  mode s ∈ [lit "R"; lit "B"] → queue st = [] →
  save_format s ≠ lit "mp3" →
  main_record w s text base out st
  = (Ok (map fst files),
     add_events (recording_events s out base items)
       (set_props (configured s (props st))
          (set_disk (written files (disk st)) st))).
Proof.
  intros Hmode Hq Hfmt. rewrite main_record_saved by done.
  unfold Str.eqb. by rewrite bool_decide_eq_false_2.
Qed.

(** Recording with format "mp3" when every run of the transcoder exits
    with zero: the saved files are the MP3 files. *)
Lemma main_record_mp3 :
  mode s ∈ [lit "R"; lit "B"] → queue st = [] →
  save_format s = lit "mp3" →
  Forall (fun file => (ffmpeg w file.1 (Some file.2)).1 = 0%Z) files →
  main_record w s text base out st
  = (Ok (map (fun file => mp3_of file.1) files),
     add_events (recording_events s out base items
                 ++ Print converting_message :: map (transcode_event w) files)
       (set_props (configured s (props st))
          (set_disk (transcoded w files (written files (disk st))) st))).
Proof.
  intros Hmode Hq Hfmt Hok. rewrite main_record_saved by done.
  unfold Str.eqb. rewrite bool_decide_eq_true_2 by done.
  run_with print_eq.
  rewrite convert_loop_ok;
    [|apply apart_synthesised|apply files_ready|done].
  f_equal. destruct st as [lines d p q t].
  unfold add_events, set_disk, set_props. cbn [stdin disk props queue trace].
  f_equal. rewrite <- !app_assoc. reflexivity.
Qed.

(** Recording with format "mp3" when a run of the transcoder fails: the
    error of the first failing run ends the phase. *)
Lemma main_record_fail oks bad rest :
  mode s ∈ [lit "R"; lit "B"] → queue st = [] →
  save_format s = lit "mp3" →
  files = oks ++ bad :: rest →
  Forall (fun file => (ffmpeg w file.1 (Some file.2)).1 = 0%Z) oks →
  (ffmpeg w bad.1 (Some bad.2)).1 ≠ 0%Z →
  main_record w s text base out st
  = (Raise (CalledProcessError (ffmpeg w bad.1 (Some bad.2)).1
                               (ffmpeg_argv bad.1 (mp3_of bad.1))),
     add_events (recording_events s out base items
                 ++ Print converting_message
                      :: map (transcode_event w) (oks ++ [bad]))
       (set_props (configured s (props st))
          (set_disk (transcoded w (oks ++ [bad]) (written files (disk st)))
                    st))).
Proof.
  intros Hmode Hq Hfmt Hfiles Hok Hbad. rewrite main_record_saved by done.
  unfold Str.eqb. rewrite bool_decide_eq_true_2 by done.
  run_with print_eq. fold items. fold files.
  pose proof files_ready as Hready. pose proof (apart_synthesised w
    (configured s (props st)) out base items) as Hapart.
  fold files in Hapart. rewrite Hfiles in Hready at 1.
  rewrite Hfiles in Hapart. rewrite Hfiles at 1.
  rewrite convert_loop_fail; [|done..].
  f_equal. destruct st as [lines d p q t].
  unfold add_events, set_disk, set_props. cbn [stdin disk props queue trace].
  f_equal. rewrite <- !app_assoc. reflexivity.
Qed.

End RecordPhase.

Section Traces.

Lemma filter_none (l : list Event) :
  Forall (fun e => is_subprocess e = false) l → List.filter is_subprocess l = [].
Proof.
  induction 1 as [|e l He _ IH]; [done|]. simpl. by rewrite He.
Qed.

Lemma filter_transcodes w files :
  List.filter is_subprocess (map (transcode_event w) files)
  = map (transcode_event w) files.
Proof. induction files as [|f files IH]; [done|]. simpl. by rewrite IH. Qed.

Lemma configure_events_quiet s :
  Forall (fun e => is_subprocess e = false) (configure_events s).
Proof.
  unfold configure_events. apply Forall_app. split; [by repeat constructor|].
  destruct (voice_id s) as [[|c v]|]; by repeat constructor.
Qed.

Lemma recording_events_quiet s out base items :
  Forall (fun e => is_subprocess e = false)
         (recording_events s out base items).
Proof.
  unfold recording_events.
  apply Forall_app. split; [by repeat constructor|].
  apply Forall_app. split; [apply configure_events_quiet|].
  constructor; [done|]. apply Forall_app. split; [|by repeat constructor].
  unfold save_events. apply Forall_fmap, Forall_true. by intros item.
Qed.

End Traces.

(** * Recording runs *)

Section Runs.

Context (w : World) (lines : list str) (files0 : gmap Path (list N))
        (pdf : Path) (text : str) (s : TTSSettings) (st1 : State).

Hypothesis Hsetup :
  main_setup w (initial lines files0) = (Ok (pdf, text, s), st1).

Lemma setup_queue : queue st1 = [].
Proof. by destruct (main_setup_ok _ _ _ _ _ _ Hsetup) as (_ & _ & _ & -> & _). Qed.

Lemma setup_disk : disk st1 = files0.
Proof. by destruct (main_setup_ok _ _ _ _ _ _ Hsetup) as (_ & _ & -> & _). Qed.

Lemma setup_trace :
  Forall (fun e => is_subprocess e = false) (trace st1).
Proof.
  destruct (main_setup_ok _ _ _ _ _ _ Hsetup)
    as (_ & _ & _ & _ & _ & evs & -> & Hevs).
  done.
Qed.

(** The files of the recording phase are [recordings]. *)
Lemma setup_recordings :
  synthesised w (configured s (props st1)) (out_dir_of w) (PathLib.stem pdf)
              (enumerate (chunks_of text) 1)
  = recordings w s pdf text.
Proof.
  destruct (main_setup_ok _ _ _ _ _ _ Hsetup) as (_ & _ & _ & _ & -> & _).
  by rewrite configured_twice.
Qed.

Lemma recordings_length :
  length (recordings w s pdf text) = length (chunks_of text).
Proof. unfold recordings. by rewrite length_map, length_enumerate. Qed.

Lemma recordings_nonempty : recordings w s pdf text ≠ [].
Proof.
  destruct (main_setup_ok _ _ _ _ _ _ Hsetup) as (Hne & Htrim & _).
  intros H. apply (f_equal (@length (Path * list N))) in H.
  rewrite recordings_length in H.
  pose proof (chunks_of_nonempty text Hne Htrim).
  by destruct (chunks_of text).
Qed.

(** After the recording phase every WAV file holds its audio, whatever
    the transcoder did afterwards with the files listed in [done]. *)
Lemma wavs_kept done wav a :
  (∀ file, file ∈ done → file ∈ recordings w s pdf text) →
  (wav, a) ∈ recordings w s pdf text →
  transcoded w done (written (recordings w s pdf text) files0) !! wav = Some a.
Proof.
  intros Hsub Hin.
  rewrite transcoded_lookup_ne.
  - apply written_lookup; [|done]. unfold recordings.
    apply (NoDup_wavs w _ (out_dir_of w) (PathLib.stem pdf) (chunks_of text) 1).
  - intros f Hf. apply Hsub in Hf.
    apply (synthesised_elem w) in Hf as [i ->].
    apply (synthesised_elem w) in Hin as [j Hj]. simpl in Hj. rewrite Hj.
    apply mp3_of_not_wav.
Qed.

End Runs.

(** C7: a recording run with format "mp3" in which the transcoder exits
    non-zero on some chunk.  [main] ends with the [CalledProcessError] of
    the first failing run; every WAV file of the run is on disk with the
    audio the engine wrote, and every MP3 file written before the failure
    is on disk as the transcoder wrote it; the transcoder was run once on
    each chunk up to the failing one and never again, and its failing run
    is the last thing that happened. *)
Theorem transcode_failure_aborts (w : World) (lines : list str)
    (files0 : gmap Path (list N)) (pdf : Path) (text : str)
    (s : TTSSettings) (st1 : State)
    (oks : list (Path * list N)) (bad : Path * list N)
    (rest : list (Path * list N)) :
  main_setup w (initial lines files0) = (Ok (pdf, text, s), st1) →
  mode s ∈ [lit "R"; lit "B"] →
  save_format s = lit "mp3" →
  recordings w s pdf text = oks ++ bad :: rest →
  Forall (fun file => (ffmpeg w file.1 (Some file.2)).1 = 0%Z) oks →
  (ffmpeg w bad.1 (Some bad.2)).1 ≠ 0%Z →
  ∃ st',
    main w (initial lines files0)
    = (Raise (CalledProcessError (ffmpeg w bad.1 (Some bad.2)).1
                                 (ffmpeg_argv bad.1 (mp3_of bad.1))), st')
    ∧ (∀ wav a, (wav, a) ∈ recordings w s pdf text →
         disk st' !! wav = Some a)
    ∧ (∀ wav a b, (wav, a) ∈ oks →
         (ffmpeg w wav (Some a)).2 = Some b →
         disk st' !! mp3_of wav = Some b)
    ∧ List.filter is_subprocess (trace st')
      = map (transcode_event w) (oks ++ [bad])
    ∧ last (trace st') = Some (transcode_event w bad).
Proof.
  intros Hsetup Hmode Hfmt Hrec Hok Hbad.
  pose proof (setup_queue _ _ _ _ _ _ _ Hsetup) as Hq.
  pose proof (setup_disk _ _ _ _ _ _ _ Hsetup) as Hd.
  pose proof (setup_trace _ _ _ _ _ _ _ Hsetup) as Ht.
  pose proof (setup_recordings _ _ _ _ _ _ _ Hsetup) as Hfiles.
  assert (Hsub : ∀ file, file ∈ oks ++ [bad] →
                         file ∈ recordings w s pdf text).
  { intros file Hin. rewrite Hrec.
    apply elem_of_app in Hin as [Hin|Hin]; [by apply elem_of_app; left|].
    apply list_elem_of_singleton in Hin as ->.
    apply elem_of_app. right. by left. }
  exists (add_events
            (recording_events s (out_dir_of w) (PathLib.stem pdf)
               (enumerate (chunks_of text) 1)
             ++ Print converting_message
                  :: map (transcode_event w) (oks ++ [bad]))
            (set_props (configured s (props st1))
               (set_disk (transcoded w (oks ++ [bad])
                            (written (recordings w s pdf text) files0))
                         st1))).
  split.
  - unfold main. rewrite (bind_ok _ _ _ _ _ Hsetup). unfold main_run.
    erewrite bind_raise; [reflexivity|].
    rewrite <- Hfiles, <- Hd.
    apply (main_record_fail w s text _ _ st1 oks bad rest); try done.
    exact (eq_trans Hfiles Hrec).
  - cbn [disk trace add_events set_props set_disk].
    split; [|split; [|split]].
    + intros wav a Hin. by eapply wavs_kept.
    + intros wav a b Hin Hb.
      apply (transcoded_lookup w _ _ wav a b); [|by apply elem_of_app; left|done].
      assert (Hnd : NoDup (map (fun file : Path * list N => mp3_of file.1)
                               (recordings w s pdf text))).
      { apply (NoDup_mp3s w (configured s (mkProps None None None))
                 (out_dir_of w) (PathLib.stem pdf) (chunks_of text) 1). }
      rewrite Hrec in Hnd.
      change (oks ++ bad :: rest) with (oks ++ [bad] ++ rest) in Hnd.
      rewrite app_assoc, map_app in Hnd. by apply NoDup_app in Hnd as [Hnd _].
    + rewrite !List.filter_app. simpl List.filter at 3.
      rewrite (filter_none (trace st1)) by done.
      rewrite filter_none by apply recording_events_quiet.
      by rewrite filter_transcodes.
    + rewrite map_app. simpl map at 2.
      change (Print converting_message :: ?l ++ [?x])
        with ((Print converting_message :: l) ++ [x]).
      rewrite !app_assoc. apply last_snoc.
Qed.

(** The theorem on a text of 1300 letters, which makes two chunks, with
    a transcoder that fails on the second. *)
Lemma transcode_failure_aborts_witness :
  let w := Sample.with_transcoder Sample.fails_on_second
             (Sample.world (Sample.letters 1300)) in
  let s := mkSettings None 170 (lit "R") (lit "mp3") in
  let text := repeat 0x61 1300 in
  ∃ st',
    (main w (initial [[]; []; lit "r"; lit "mp3"] ∅)).1
    = Raise (CalledProcessError 1
               (ffmpeg_argv (wav_path (out_dir_of w) (lit "book") 2)
                  (mp3_of (wav_path (out_dir_of w) (lit "book") 2))))
    ∧ (main w (initial [[]; []; lit "r"; lit "mp3"] ∅)).2 = st'
    ∧ (∀ wav a, (wav, a) ∈ recordings w s Sample.book text →
         disk st' !! wav = Some a)
    ∧ last (trace st')
      = Some (Subprocess
                (ffmpeg_argv (wav_path (out_dir_of w) (lit "book") 2)
                   (mp3_of (wav_path (out_dir_of w) (lit "book") 2)))
                1).
Proof.
  intros w s text.
  destruct (transcode_failure_aborts w [[]; []; lit "r"; lit "mp3"] ∅
              Sample.book text s
              (main_setup w (initial [[]; []; lit "r"; lit "mp3"] ∅)).2
              (take 1 (recordings w s Sample.book text))
              (wav_path (out_dir_of w) (lit "book") 2,
               tts w (configured s (mkProps None None None))
                   (repeat 0x61 100))
              [])
    as (st' & Hmain & Hwav & _ & _ & Hlast).
  - vm_compute. reflexivity.
  - left.
  - reflexivity.
  - vm_compute. reflexivity.
  - repeat constructor.
  - vm_compute. discriminate.
  - exists st'. rewrite Hmain. split; [reflexivity|]. split; [reflexivity|].
    split; [exact Hwav | exact Hlast].
Defined.

(** * The report of the saved files *)

Section Report.

Lemma main_run_eq w pdf text s :
  main_run w pdf text s
  = (saved ← main_record w s text (PathLib.stem pdf) (out_dir_of w);
     main_speak w s text;;
     main_report saved (out_dir_of w)).
Proof. reflexivity. Qed.

Lemma report_lines saved out :
  saved ≠ [] →
  report saved out
  = saved_line (length saved) out
    :: map name_line (take 10 saved)
    ++ (if (10 <? length saved)%nat then [ellipsis_line] else []).
Proof.
  intros Hne. unfold report. by rewrite bool_decide_eq_false_2.
Qed.

(** What a run does after a recording phase that ended in [st2] with the
    files [saved]. *)
Lemma speak_and_report w s text saved st2 :
  queue st2 = [] → saved ≠ [] →
  ∃ st' before,
    (main_speak w s text;; main_report saved (out_dir_of w)) st2 = (Ok tt, st')
    ∧ disk st' = disk st2
    ∧ trace st'
      = before
        ++ map Print
             (saved_line (length saved) (out_dir_of w)
              :: map name_line (take 10 saved)
              ++ (if (10 <? length saved)%nat then [ellipsis_line] else [])).
Proof.
  intros Hq Hne.
  destruct (main_speak_ok w s text st2 Hq) as (evs & st3 & Hspeak & Hd & Ht & _).
  rewrite (bind_ok _ _ _ _ _ Hspeak), main_report_eq, report_lines by done.
  eexists _, (trace st3). split; [reflexivity|]. split; [exact Hd|].
  reflexivity.
Qed.

End Report.

(** C9, as the code has it: in a recording run in which the transcoder,
    if used, exits with zero on every chunk, [main] returns normally;
    there is one WAV file per chunk and each is on disk with the audio the
    engine wrote, also after conversion; with format "mp3" every MP3 file
    the transcoder wrote is on disk as well.  [saved_files] is the list of
    the MP3 files (format "mp3") or of the WAV files (otherwise), one
    per chunk in chunk order, and the run ends by printing the report: the
    number of saved files, the names of the first ten of them, and an
    ellipsis line when there are more than ten. *)
Theorem saved_files_reported (w : World) (lines : list str)
    (files0 : gmap Path (list N)) (pdf : Path) (text : str)
    (s : TTSSettings) (st1 : State) :
  main_setup w (initial lines files0) = (Ok (pdf, text, s), st1) →
  mode s ∈ [lit "R"; lit "B"] →
  (save_format s = lit "mp3" →
   Forall (fun file => (ffmpeg w file.1 (Some file.2)).1 = 0%Z)
          (recordings w s pdf text)) →
  let saved := saved_files w s pdf text in
  ∃ st' before,
    main w (initial lines files0) = (Ok tt, st')
    ∧ length (recordings w s pdf text) = length (chunks_of text)
    ∧ length saved = length (chunks_of text)
    ∧ chunks_of text ≠ []
    ∧ (∀ wav a, (wav, a) ∈ recordings w s pdf text →
         disk st' !! wav = Some a)
    ∧ (save_format s = lit "mp3" →
       ∀ wav a b, (wav, a) ∈ recordings w s pdf text →
         (ffmpeg w wav (Some a)).2 = Some b →
         disk st' !! mp3_of wav = Some b)
    ∧ trace st'
      = before
        ++ map Print
             (saved_line (length saved) (out_dir_of w)
              :: map name_line (take 10 saved)
              ++ (if (10 <? length saved)%nat then [ellipsis_line] else [])).
Proof.
  intros Hsetup Hmode Hok saved.
  pose proof (setup_queue _ _ _ _ _ _ _ Hsetup) as Hq.
  pose proof (setup_disk _ _ _ _ _ _ _ Hsetup) as Hd.
  pose proof (setup_recordings _ _ _ _ _ _ _ Hsetup) as Hfiles.
  pose proof (recordings_nonempty _ _ _ _ _ _ _ Hsetup) as Hne.
  pose proof (recordings_length w pdf text s) as Hlen.
  assert (Hlen' : length saved = length (chunks_of text)).
  { unfold saved, saved_files.
    destruct (Str.eqb _ _); by rewrite length_map. }
  assert (Hchunks : chunks_of text ≠ []).
  { intros H. rewrite H in Hlen. by destruct (recordings w s pdf text). }
  assert (Hsaved : saved ≠ []).
  { intros H. rewrite H in Hlen'. by destruct (chunks_of text). }
  unfold main. rewrite (bind_ok _ _ _ _ _ Hsetup), main_run_eq.
  destruct (decide (save_format s = lit "mp3")) as [Hfmt|Hfmt].
  - pose proof (main_record_mp3 w s text (PathLib.stem pdf) (out_dir_of w)
                  st1 Hmode Hq Hfmt) as Hrun.
    cbv zeta in Hrun. rewrite Hfiles, Hd in Hrun.
    specialize (Hrun (Hok Hfmt)).
    rewrite (bind_ok _ _ _ _ _ Hrun).
    replace (map _ (recordings w s pdf text)) with saved
      by (unfold saved, saved_files, Str.eqb;
          by rewrite bool_decide_eq_true_2).
    edestruct (speak_and_report w s text saved) as (st' & before & -> & Hd' & Ht);
      [|exact Hsaved|].
    { exact Hq. }
    exists st', before. rewrite Hd'.
    cbn [disk add_events set_props set_disk].
    repeat split; try done.
    + intros wav a Hin. by eapply wavs_kept.
    + intros _ wav a b Hin Hb.
      apply (transcoded_lookup w _ _ wav a b); [|done..].
      apply (NoDup_mp3s w (configured s (mkProps None None None))
               (out_dir_of w) (PathLib.stem pdf) (chunks_of text) 1).
  - pose proof (main_record_wav w s text (PathLib.stem pdf) (out_dir_of w)
                  st1 Hmode Hq Hfmt) as Hrun.
    cbv zeta in Hrun. rewrite Hfiles, Hd in Hrun.
    rewrite (bind_ok _ _ _ _ _ Hrun).
    replace (map _ (recordings w s pdf text)) with saved
      by (unfold saved, saved_files, Str.eqb;
          by rewrite bool_decide_eq_false_2).
    edestruct (speak_and_report w s text saved) as (st' & before & -> & Hd' & Ht);
      [|exact Hsaved|].
    { exact Hq. }
    exists st', before. rewrite Hd'.
    cbn [disk add_events set_props set_disk].
    repeat split; try done.
    intros wav a Hin.
    apply (wavs_kept w files0 pdf text s []); [|done].
    intros file Hfile. by apply elem_of_nil in Hfile.
Qed.

(** The theorem on a text of 1300 letters recorded as MP3: two chunks, and
    the report names the two MP3 files. *)
Lemma saved_files_reported_witness :
  let w := Sample.world (Sample.letters 1300) in
  ∃ st' before,
    main w (initial [[]; []; lit "r"; lit "mp3"] ∅) = (Ok tt, st')
    ∧ trace st'
      = before
        ++ [Print (saved_line 2 (out_dir_of w));
            Print (lit " - book_part001.mp3");
            Print (lit " - book_part002.mp3")].
Proof.
  intros w.
  destruct (saved_files_reported w [[]; []; lit "r"; lit "mp3"] ∅
              Sample.book (repeat 0x61 1300)
              (mkSettings None 170 (lit "R") (lit "mp3"))
              (main_setup w (initial [[]; []; lit "r"; lit "mp3"] ∅)).2)
    as (st' & before & Hmain & _ & _ & _ & _ & _ & Htrace).
  - vm_compute. reflexivity.
  - left.
  - intros _. vm_compute. repeat constructor.
  - exists st', before. split; [exact Hmain|].
    rewrite Htrace. f_equal.
Defined.

(** C9 as stated fails on a long text.  With 12001 letters the run
    records eleven chunks as WAV and ends normally; the eleventh file is
    on disk, but the report names ten files only and the eleventh is not
    among them. *)
Lemma saved_files_report_truncated :
  let w := Sample.without_ffmpeg (Sample.world (Sample.letters (10 * 1200 + 1))) in
  let s := mkSettings None 170 (lit "R") (lit "wav") in
  let text := repeat 0x61 (10 * 1200 + 1) in
  let run := main w (initial [[]; []; lit "r"] ∅) in
  let eleventh := wav_path (out_dir_of w) (lit "book") 11 in
  run.1 = Ok tt
  ∧ main_setup w (initial [[]; []; lit "r"] ∅)
    = (Ok (Sample.book, text, s),
       (main_setup w (initial [[]; []; lit "r"] ∅)).2)
  ∧ length (chunks_of text) = 11%nat
  ∧ map fst (recordings w s Sample.book text)
    = map (wav_path (out_dir_of w) (lit "book")) (seq 1 11)
  ∧ name eleventh = lit "book_part011.wav"
  ∧ disk run.2 !! eleventh = Some (tts w (props run.2) [0x61])
  ∧ length (listed_names (trace run.2)) = 10%nat
  ∧ (name eleventh ∉ listed_names (trace run.2))
  ∧ listed_names (trace run.2)
    ≠ map name (map fst (recordings w s Sample.book text)).
Proof.
  vm_compute. repeat split.
  - intros Hin.
    repeat (apply elem_of_cons in Hin as [Hin|Hin]; [discriminate Hin|]).
    by apply elem_of_nil in Hin.
  - intros Heq. discriminate Heq.
Qed.

(** * More on normalisation and chunking *)

Section Words.

Lemma join_cons sep p q ps :
  Str.join sep (p :: q :: ps) = p ++ sep ++ Str.join sep (q :: ps).
Proof. reflexivity. Qed.

Lemma non_space_app s t : non_space (s ++ t) = non_space s ++ non_space t.
Proof. apply List.filter_app. Qed.

Lemma non_space_fixed s :
  Forall (fun c => Unicode.isspace c = false) s → non_space s = s.
Proof.
  induction 1 as [|c s Hc _ IH]; [done|].
  unfold non_space in *. simpl. by rewrite Hc, IH.
Qed.

Lemma non_space_join p ps :
  non_space (Str.join (lit " ") (p :: ps))
  = non_space p ++ non_space (Str.join (lit " ") ps).
Proof.
  destruct ps as [|q ps]; [by rewrite app_nil_r|].
  rewrite join_cons, !non_space_app. reflexivity.
Qed.

Lemma non_space_split_from word s :
  Forall (fun c => Unicode.isspace c = false) word →
  non_space (Str.join (lit " ") (Str.split_from word s))
  = reverse word ++ non_space s.
Proof.
  revert word. induction s as [|c rest IH]; intros word Hw.
  - destruct word as [|d word']; [done|].
    change (Str.split_from (d :: word') []) with [reverse (d :: word')].
    rewrite app_nil_r. apply non_space_fixed. by apply Forall_reverse.
  - simpl Str.split_from. unfold non_space at 2. simpl List.filter.
    destruct (Unicode.isspace c) eqn:Hc; simpl negb; cbv iota.
    + destruct word as [|d word']; [by apply IH|].
      rewrite non_space_join, (IH []) by constructor.
      rewrite non_space_fixed by by apply Forall_reverse. done.
    + rewrite IH by by constructor.
      rewrite reverse_cons, <- app_assoc. done.
Qed.

Lemma length_join_le p ps :
  (length (Str.join (lit " ") (p :: ps))
   ≤ length p + 1 + length (Str.join (lit " ") ps))%nat.
Proof.
  destruct ps as [|q ps]; [simpl; lia|].
  rewrite join_cons, !length_app. change (length (lit " ")) with 1%nat. lia.
Qed.

Lemma length_split_from word s :
  (length (Str.join (lit " ") (Str.split_from word s))
   ≤ length word + length s)%nat.
Proof.
  revert word. induction s as [|c rest IH]; intros word.
  - destruct word as [|d word']; [simpl; lia|].
    change (Str.split_from (d :: word') []) with [reverse (d :: word')].
    simpl Str.join. rewrite length_reverse. lia.
  - simpl Str.split_from. destruct (Unicode.isspace c).
    + destruct word as [|d word'].
      * specialize (IH []). simpl in *. lia.
      * etrans; [apply length_join_le|]. rewrite length_reverse.
        specialize (IH []). simpl in *. lia.
    + specialize (IH (c :: word)). simpl in *. lia.
Qed.

(** A whitespace character ends the current word, whatever comes next. *)
Lemma split_from_space word s1 c s2 :
  Unicode.isspace c = true →
  Str.split_from word (s1 ++ c :: s2)
  = Str.split_from word s1 ++ Str.split s2.
Proof.
  intros Hc. revert word. induction s1 as [|d s1 IH]; intros word; simpl.
  - rewrite Hc. by destruct word.
  - destruct (Unicode.isspace d); [|by apply IH].
    destruct word; by rewrite IH.
Qed.

Lemma split_join_newline parts :
  Str.split (Str.join newline parts) = concat (map Str.split parts).
Proof.
  induction parts as [|p [|q ps] IH]; [done| |].
  - simpl. by rewrite app_nil_r.
  - rewrite join_cons. change (newline ++ ?t) with (0x0A :: t).
    unfold Str.split at 1. rewrite split_from_space by done.
    fold (Str.split p). by rewrite IH.
Qed.

(** Only whitespace splits into no word at all. *)
Lemma split_nil s : Str.split s = [] ↔ forallb Unicode.isspace s = true.
Proof.
  unfold Str.split. induction s as [|c s IH]; [done|]. simpl.
  destruct (Unicode.isspace c); [exact IH|]. split; [|done].
  intros H. by apply split_from_word in H.
Qed.

Lemma normalize_nil s : normalize s = [] ↔ forallb Unicode.isspace s = true.
Proof.
  rewrite <- split_nil. unfold normalize. split; [|by intros ->].
  apply join_nil_iff. eapply Forall_impl; [apply split_words|].
  by intros t [? _].
Qed.

Lemma normalize_fixed_point s : normalize (normalize s) = normalize s.
Proof. unfold normalize at 1 3. f_equal. apply split_join, split_words. Qed.

Lemma single_spaced_word b w t :
  w ≠ [] → Forall (fun c => Unicode.isspace c = false) w →
  single_spaced_from b (w ++ t) = single_spaced_from false t.
Proof.
  intros Hne Hw. revert b. induction Hw as [|c w Hc Hw IH]; intros b; [done|].
  simpl. rewrite Hc. destruct w as [|d w]; [done|]. by apply IH.
Qed.

Lemma single_spaced_join ws :
  Forall is_word ws → ws ≠ [] →
  single_spaced_from true (Str.join (lit " ") ws) = true.
Proof.
  induction 1 as [|w ws [Hne Hw] Hws IH]; [done|]. intros _.
  destruct ws as [|w' ws].
  - simpl. rewrite <- (app_nil_r w). by rewrite single_spaced_word.
  - rewrite join_cons, single_spaced_word by done.
    change (lit " " ++ ?t) with (0x20 :: t). simpl. by apply IH.
Qed.

Lemma join_split_from word t :
  Forall (fun c => Unicode.isspace c = false) word →
  single_spaced_from (Str.is_empty word) t = true →
  Str.join (lit " ") (Str.split_from word t) = reverse word ++ t.
Proof.
  revert word. induction t as [|c rest IH]; intros word Hw Ht.
  - destruct word as [|d word']; [done|]. simpl. by rewrite app_nil_r.
  - simpl in Ht. simpl Str.split_from.
    destruct (Unicode.isspace c) eqn:Hc.
    + destruct word as [|d word']; [by rewrite andb_false_r in Ht|].
      simpl in Ht. rewrite andb_true_r in Ht.
      apply andb_true_iff in Ht as [Hsp Ht]. apply N.eqb_eq in Hsp as ->.
      pose proof (IH [] ltac:(constructor) Ht) as Hrest.
      destruct (Str.split_from [] rest) as [|p ps] eqn:Hsplit.
      * simpl in Hrest. subst rest. done.
      * rewrite join_cons, Hrest. reflexivity.
    + rewrite (IH (c :: word)) by (done || by constructor).
      by rewrite reverse_cons, <- app_assoc.
Qed.

End Words.

(** X1: for a positive maximum size no chunk of [chunk_text] is empty,
    and every chunk but the last has exactly [M] characters. *)
Theorem chunk_text_full_chunks (T : str) (M : Z) (chunks : list str) :
  (0 < M)%Z →
  chunk_text T M = Ok chunks →
  ∀ k c, chunks !! k = Some c →
    (1 ≤ length c)%nat
    ∧ (Z.of_nat (length c) ≤ M)%Z
    ∧ ((S k < length chunks)%nat → Z.of_nat (length c) = M).
Proof.
  intros HM Hc k c Hk. unfold chunk_text in Hc.
  rewrite range0_positive in Hc by done. injection Hc as <-.
  set (m := Z.to_nat M) in *. set (t := normalize T) in *.
  destruct (ceil_div_bounds (length t) m ltac:(lia)) as [Hlo Hhi].
  rewrite !length_map, length_seq.
  apply list_lookup_fmap_Some in Hk as (i & -> & Hi).
  apply list_lookup_fmap_Some in Hi as (j & -> & Hj).
  apply lookup_seq in Hj as [-> Hlt]. simpl in *.
  unfold slice. rewrite length_take, length_drop. nia.
Qed.

(** The theorem at nine characters in chunks of four, for the second
    chunk of the three. *)
Lemma chunk_text_full_chunks_witness :
  (1 ≤ length (lit "efgh"))%nat
  ∧ (Z.of_nat (length (lit "efgh")) ≤ 4)%Z
  ∧ ((2 < length [lit "abcd"; lit "efgh"; lit "i"])%nat →
       Z.of_nat (length (lit "efgh")) = 4%Z).
Proof.
  apply (chunk_text_full_chunks (lit "abcdefghi") 4
           [lit "abcd"; lit "efgh"; lit "i"]
           ltac:(lia) eq_refl 1%nat (lit "efgh") eq_refl).
Defined.

(** X2: chunking sees the text only through its normal form, and chunking
    what the chunks add up to gives the same chunks again. *)
Theorem chunk_text_rechunk (T : str) (M : Z) :
  chunk_text (normalize T) M = chunk_text T M
  ∧ ∀ chunks, chunk_text T M = Ok chunks →
      chunk_text (concat chunks) M = Ok chunks.
Proof.
  assert (Hn : chunk_text (normalize T) M = chunk_text T M).
  { unfold chunk_text. by rewrite normalize_fixed_point. }
  split; [exact Hn|]. intros chunks Hc.
  destruct (Z.ltb_spec 0 M) as [HM|HM].
  - replace (concat chunks) with (normalize T); [by rewrite Hn|].
    unfold chunk_text in Hc. rewrite range0_positive in Hc by done.
    injection Hc as <-. rewrite concat_slices.
    destruct (ceil_div_bounds (length (normalize T)) (Z.to_nat M)
                ltac:(lia)) as [Hlo _].
    symmetry. apply take_ge. lia.
  - unfold chunk_text, range0 in Hc.
    destruct (Z.eqb_spec M 0); [done|].
    destruct (Z.ltb_spec M 0); [|lia].
    injection Hc as <-. unfold chunk_text, range0.
    destruct (Z.eqb_spec M 0); [done|].
    destruct (Z.ltb_spec M 0); [done|lia].
Qed.

(** X3: the normal forms are exactly the single-spaced strings: what
    [normalize] returns has no whitespace but single U+0020 characters
    between words, and such a string is left as it is. *)
Theorem normalize_single_spaced (s : str) :
  single_spaced (normalize s) = true
  ∧ (normalize s = s ↔ single_spaced s = true).
Proof.
  assert (Hshape : ∀ t, single_spaced (normalize t) = true).
  { intros t. unfold normalize.
    pose proof (split_words t) as Hw.
    destruct (Str.split t) as [|w ws] eqn:E; [done|].
    pose proof (single_spaced_join (w :: ws) Hw ltac:(done)) as H.
    unfold single_spaced. by destruct (Str.join _ _). }
  split; [apply Hshape|]. split.
  - intros H. rewrite <- H. apply Hshape.
  - destruct s as [|c s]; [done|]. intros H.
    apply (join_split_from [] (c :: s)); [constructor | exact H].
Qed.

(** X4: normalisation touches whitespace only: the other characters of
    the text are all kept, in their order. *)
Theorem normalize_keeps_non_space (s : str) :
  non_space (normalize s) = non_space s.
Proof. apply (non_space_split_from [] s). constructor. Qed.

(** X5: normalisation never makes a text longer, so a text of [n]
    characters gives at most [ceil(n / M)] chunks. *)
Theorem normalize_length_le (T : str) (M : Z) (chunks : list str) :
  (0 < M)%Z →
  chunk_text T M = Ok chunks →
  (length (normalize T) ≤ length T)%nat
  ∧ (Z.of_nat (length chunks) * M < Z.of_nat (length T) + M)%Z.
Proof.
  intros HM Hc.
  assert (Hle : (length (normalize T) ≤ length T)%nat)
    by apply (length_split_from [] T).
  split; [exact Hle|].
  unfold chunk_text in Hc. rewrite range0_positive in Hc by done.
  injection Hc as <-. rewrite !length_map, length_seq.
  destruct (ceil_div_bounds (length (normalize T)) (Z.to_nat M) ltac:(lia))
    as [_ Hhi].
  nia.
Qed.

Lemma normalize_length_le_witness :
  (length (normalize (lit " a   b ")) ≤ length (lit " a   b "))%nat
  ∧ (Z.of_nat (length [lit "a "; lit "b"]) * 2
     < Z.of_nat (length (lit " a   b ")) + 2)%Z.
Proof.
  apply (normalize_length_le (lit " a   b ") 2).
  - lia.
  - reflexivity.
Defined.

(** X6: [chunk_text] yields no chunk at all exactly for a text that is
    empty or consists of whitespace only. *)
Theorem chunk_text_blank (T : str) (M : Z) :
  (0 < M)%Z →
  chunk_text T M = Ok [] ↔ forallb Unicode.isspace T = true.
Proof.
  intros HM. rewrite <- normalize_nil. unfold chunk_text.
  rewrite range0_positive by done.
  destruct (ceil_div_bounds (length (normalize T)) (Z.to_nat M) ltac:(lia))
    as [Hlo Hhi].
  split.
  - intros [= H]. apply (f_equal length) in H.
    rewrite !length_map, length_seq in H. simpl in H. rewrite H in Hlo.
    destruct (normalize T); [done | simpl in Hlo; lia].
  - intros H. rewrite H in *. simpl in Hhi.
    replace ((length (@nil N) + Z.to_nat M - 1) / Z.to_nat M)%nat with 0%nat
      by (simpl; nia).
    done.
Qed.

Lemma chunk_text_blank_witness :
  chunk_text (lit "  ") 5 = Ok [] ↔ forallb Unicode.isspace (lit "  ") = true.
Proof. apply (chunk_text_blank (lit "  ") 5). lia. Defined.

(** X7: what is chunked of a PDF is the words of its pages, in order,
    each separated from the next by one space: a page break separates
    words like any other whitespace, and pages without text leave no
    trace. *)
Theorem extracted_words (w : World) (pdf_path : Path) (st : State) :
  ∃ text,
    (extract_pdf_text w pdf_path st).1 = Ok text
    ∧ normalize text
      = Str.join (lit " ")
          (concat (map Str.split (page_texts (pdf_pages w pdf_path)))).
Proof.
  eexists. split; [by rewrite extract_pdf_text_eq|].
  unfold normalize. rewrite split_join_newline. f_equal.
  unfold segments. induction (page_texts _) as [|t ts IH]; [done|]. simpl.
  destruct t as [|c t]; simpl; [exact IH | by rewrite IH].
Qed.

(** * More on the prompts *)

Section Loops.

Lemma bind_inv_ok {A B} (m : M A) (f : A → M B) st b st' :
  (m ≫= f) st = (Ok b, st') →
  ∃ a st1, m st = (Ok a, st1) ∧ f a st1 = (Ok b, st').
Proof.
  unfold mbind, M_bind. destruct (m st) as [[a|e] st1]; [|done].
  intros H. by exists a, st1.
Qed.

(** An exception that leaves a prompt loop is the end of the input or
    was thrown by the body on one of the lines. *)
Lemma ask_from_raises {A} prompt (body : str → Round A) lines st e st' :
  ask_from prompt body lines st = (Raise e, st') →
  e = EOFError ∨ ∃ line, line ∈ lines ∧ (body line).2 = Throw e.
Proof.
  revert st. induction lines as [|line rest IH]; intros st; simpl.
  - intros [= <- _]. by left.
  - destruct (body line) as [printed step] eqn:Hb. destruct step.
    + done.
    + intros H. apply IH in H as [->|(l & Hl & Hr)]; [by left|].
      right. exists l. split; [by right | done].
    + intros [= <- _]. right. exists line. rewrite Hb. split; [left | done].
Qed.

(** Rejected lines cost one prompt and one message each; the first
    accepted line ends the loop and the lines after it stay unread. *)
Lemma ask_until_retries {A} prompt (body : str → Round A) message
    bad good a rest st :
  Forall (fun line => body line = ([message], Again)) bad →
  body good = ([], Return a) →
  ask_until prompt body (set_stdin (bad ++ good :: rest) st)
  = (Ok a, add_events (rejections prompt message (length bad) ++ [Prompt prompt])
             (set_stdin rest st)).
Proof.
  intros Hbad Hgood. revert st.
  induction Hbad as [|line bad Hline _ IH]; intros st.
  - rewrite (ask_until_round _ _ _ good rest) by reflexivity.
    rewrite Hgood. simpl. by rewrite set_stdin_twice.
  - rewrite (ask_until_round _ _ _ line (bad ++ good :: rest)) by reflexivity.
    rewrite Hline. cbn [fst snd map]. rewrite set_stdin_twice.
    rewrite <- set_stdin_add_events, IH.
    rewrite set_stdin_add_events, add_events_app. reflexivity.
Qed.

Lemma rate_round_throw default line e :
  (rate_round default line).2 = Throw e →
  Str.isdigit (Str.strip line) = true
  ∧ e = ValueError (IntOfStr (Str.strip line)).
Proof.
  pose proof (rate_round_verdict default line) as Hv. unfold rate_round in *.
  destruct (Str.is_empty (Str.strip line)); [done|].
  destruct (Str.isdigit (Str.strip line)); [|done].
  destruct (Str.to_int (Str.strip line)) as [r|e'].
  - by destruct (_ && _).
  - simpl in *. intros [= <-]. by destruct Hv.
Qed.

Lemma voice_round_throw items line e :
  (voice_round items line).2 = Throw e →
  Str.isdigit (Str.strip line) = true
  ∧ e = ValueError (IntOfStr (Str.strip line)).
Proof.
  pose proof (voice_round_verdict items line) as Hv. unfold voice_round in *.
  destruct (Str.is_empty (Str.strip line)); [done|].
  destruct (Str.isdigit (Str.strip line)); [|done].
  destruct (Str.to_int (Str.strip line)) as [i|e'].
  - destruct (_ && _); [|done].
    destruct (items !! Z.to_nat i); [done|]. simpl in *. by destruct Hv.
  - simpl in *. intros [= <-]. by destruct Hv.
Qed.

Lemma choose_rate_result default st r st' :
  choose_rate default st = (Ok r, st') → r = default ∨ (80 ≤ r ≤ 350)%Z.
Proof.
  intros H. apply ask_until_returns in H as (line & _ & Hr).
  pose proof (rate_round_verdict default line) as Hv.
  destruct (rate_round default line) as [printed step]. simpl in Hr.
  subst step. by destruct Hv.
Qed.

Lemma choose_voice_result w st vid st' :
  choose_voice w st = (Ok (Some vid), st') →
  ∃ i item, voice_items w !! i = Some item ∧ vid = item.2.
Proof.
  destruct (decide (voice_items w = [])) as [Hnil|Hne].
  - by rewrite choose_voice_no_voices.
  - rewrite choose_voice_menu by done. intros H.
    apply ask_until_returns in H as (line & _ & Hr).
    pose proof (voice_round_verdict (voice_items w) line) as Hv.
    destruct (voice_round (voice_items w) line) as [printed step].
    simpl in Hr. subst step. destruct Hv as (_ & i & item & _ & Hi & ->).
    by exists i, item.
Qed.

(** The digits [str] writes for a number. *)
Lemma digits_upto_digits fuel n :
  Forall (fun c => ∃ k, (k < 10)%nat ∧ c = 0x30 + N.of_nat k)
         (Str.digits_upto fuel n).
Proof.
  revert n. induction fuel as [|fuel IH]; intros n; [constructor|].
  rewrite digits_upto_S. destruct (Nat.ltb_spec n 10).
  - constructor; [by exists n | constructor].
  - apply Forall_app. split; [apply IH|].
    constructor; [|constructor]. exists (n mod 10)%nat. split; [|done].
    apply Nat.mod_upper_bound. lia.
Qed.

Lemma ascii_digit_facts c :
  (∃ k, (k < 10)%nat ∧ c = 0x30 + N.of_nat k) →
  Unicode.isdecimal c = true ∧ Unicode.isspace c = false.
Proof.
  intros (k & Hk & ->).
  do 10 (destruct k as [|k]; [by vm_compute|]). lia.
Qed.

Lemma of_nat_decimal n :
  Str.of_nat n ≠ []
  ∧ forallb Unicode.isdecimal (Str.of_nat n) = true
  ∧ Str.strip (Str.of_nat n) = Str.of_nat n.
Proof.
  pose proof (digits_upto_digits (S n) n) as Hd. fold (Str.of_nat n) in Hd.
  split; [|split].
  - unfold Str.of_nat. rewrite digits_upto_S.
    destruct (_ <? _)%nat; [done|]. by destruct (Str.digits_upto _ _).
  - apply forallb_forall. intros c Hc. apply list_elem_of_In in Hc.
    rewrite Forall_forall in Hd. by apply ascii_digit_facts, Hd.
  - apply strip_fixed. split.
    + intros c r E. rewrite E in Hd. inversion Hd; subst.
      by apply ascii_digit_facts.
    + intros c r E. rewrite E in Hd. apply Forall_app in Hd as [_ Hd].
      inversion Hd; subst. by apply ascii_digit_facts.
Qed.

End Loops.

(** X8: whatever is typed, [choose_rate] uses nothing but the console; a
    rate it returns is the default or lies in [80, 350]; and the only
    exceptions that leave it are [EOFError] at the end of the input and
    the [ValueError] of [int] on a line that passed [isdigit]. *)
Theorem choose_rate_outcome (default : Z) (st : State) :
  console is_talk st (choose_rate default st).2
  ∧ match (choose_rate default st).1 with
    | Ok r => r = default ∨ (80 ≤ r ≤ 350)%Z
    | Raise e =>
        e = EOFError
        ∨ ∃ line, line ∈ stdin st
                  ∧ Str.isdigit (Str.strip line) = true
                  ∧ e = ValueError (IntOfStr (Str.strip line))
    end.
Proof.
  destruct (choose_rate default st) as [[r|e] st'] eqn:H; simpl.
  - split; [by eapply ask_until_talk | by eapply choose_rate_result].
  - split; [by eapply ask_until_talk|].
    apply ask_from_raises in H as [->|(line & Hl & Ht)]; [by left|].
    right. exists line. split; [done|]. by eapply rate_round_throw.
Qed.

(** X9: a line of decimal digits, with any whitespace around them, is
    read as the number the digits denote.  [choose_rate] returns it without
    another prompt when it lies in [80, 350], and otherwise prints the
    error message and asks again. *)
Theorem choose_rate_decimal (default : Z) (line : str) (rest : list str)
    (st : State) :
  let s := Str.strip line in
  let r := Str.horner (decimal_values s) in
  s ≠ [] → forallb Unicode.isdecimal s = true →
  (length s ≤ Str.int_max_str_digits)%nat →
  choose_rate default (set_stdin (line :: rest) st)
  = if (80 <=? r)%Z && (r <=? 350)%Z
    then (Ok r, add_events [Prompt (rate_prompt default)] (set_stdin rest st))
    else choose_rate default
           (add_events [Prompt (rate_prompt default); Print invalid_rate]
                       (set_stdin rest st)).
Proof.
  intros s r Hne Hd Hlen. unfold choose_rate.
  rewrite (ask_until_round _ _ _ line rest) by reflexivity.
  rewrite rate_round_decimal by done. fold s. fold r.
  rewrite set_stdin_twice. by destruct (_ && _).
Qed.

(** The theorem on the lines " 120 " and "79". *)
Lemma choose_rate_decimal_witness :
  choose_rate 170 (set_stdin [lit " 120 "; lit "79"] (initial [] ∅))
  = (Ok 120%Z, add_events [Prompt (rate_prompt 170)]
                 (set_stdin [lit "79"] (initial [] ∅))).
Proof.
  apply (choose_rate_decimal 170 (lit " 120 ") [lit "79"] (initial [] ∅)).
  - discriminate.
  - reflexivity.
  - apply Nat.leb_le. reflexivity.
Defined.

(** X10: a line that holds a character which is not a digit (a sign, a
    decimal point, a letter, a blank between digits) is never read as a
    number: [choose_rate] prints the error message and asks again. *)
Theorem choose_rate_rejects (default : Z) (line : str) (rest : list str)
    (st : State) (c : N) :
  c ∈ Str.strip line → Unicode.isdigit c = false →
  choose_rate default (set_stdin (line :: rest) st)
  = choose_rate default
      (add_events [Prompt (rate_prompt default); Print invalid_rate]
                  (set_stdin rest st)).
Proof.
  intros Hc Hd. unfold choose_rate.
  rewrite (ask_until_round _ _ _ line rest) by reflexivity.
  rewrite rate_round_not_digits.
  - by rewrite set_stdin_twice.
  - intros E. rewrite E in Hc. by apply elem_of_nil in Hc.
  - unfold Str.isdigit. apply andb_false_iff. right.
    apply not_true_is_false. intros H. rewrite forallb_forall in H.
    apply list_elem_of_In in Hc. apply H in Hc. congruence.
Qed.

(** The theorem on the line "-90". *)
Lemma choose_rate_rejects_witness :
  choose_rate 170 (set_stdin [lit "-90"; lit "90"] (initial [] ∅))
  = choose_rate 170
      (add_events [Prompt (rate_prompt 170); Print invalid_rate]
                  (set_stdin [lit "90"] (initial [] ∅))).
Proof.
  apply (choose_rate_rejects 170 (lit "-90") [lit "90"] (initial [] ∅) 0x2D).
  - left.
  - reflexivity.
Defined.

(** X11: the numbers of the voice menu work.  When the engine has a voice
    at position [i], the menu shows it as "[i]", and typing that number
    returns the id of this voice (the empty string when the voice has
    none) after one prompt. *)
Theorem choose_voice_menu_number (w : World) (i : nat) (v : Voice)
    (rest : list str) (st : State) :
  default [] (engine_voices w) !! i = Some v →
  (length (Str.of_nat i) ≤ Str.int_max_str_digits)%nat →
  Print (lit "  [" ++ Str.of_nat i ++ lit "] "
         ++ str_or (v_name v) (lit "Unknown")) ∈ voice_menu w
  ∧ choose_voice w (set_stdin (Str.of_nat i :: rest) st)
    = (Ok (Some (str_or (v_id v) [])),
       add_events (voice_menu w ++ [Prompt voice_prompt]) (set_stdin rest st)).
Proof.
  intros Hv Hlen.
  assert (Hitem : voice_items w !! i
                  = Some (i, str_or (v_name v) (lit "Unknown"),
                          str_or (v_id v) [])).
  { by rewrite voice_items_lookup, Hv. }
  split.
  - unfold voice_menu. right. right.
    apply (list_elem_of_fmap_2' (fun item => Print (voice_line item))
             _ (i, str_or (v_name v) (lit "Unknown"), str_or (v_id v) []));
      [|done].
    by eapply list_elem_of_lookup_2.
  - destruct (of_nat_decimal i) as (Hne & Hd & Hs).
    rewrite choose_voice_menu by (intros E; by rewrite E in Hitem).
    rewrite (ask_until_round _ _ _ (Str.of_nat i) rest) by reflexivity.
    rewrite voice_round_decimal; rewrite ?Hs; try done.
    rewrite of_nat_value, Nat2Z.id, Hitem.
    destruct (Z.leb_spec 0 (Z.of_nat i)); [|lia]. simpl.
    rewrite !set_stdin_add_events, set_stdin_twice, add_events_app.
    reflexivity.
Qed.

(** The theorem for the second of the two sample voices, which has
    neither name nor id. *)
Lemma choose_voice_menu_number_witness :
  Print (lit "  [1] Unknown") ∈ voice_menu (Sample.world [])
  ∧ choose_voice (Sample.world []) (set_stdin [lit "1"] (initial [] ∅))
    = (Ok (Some []),
       add_events (voice_menu (Sample.world []) ++ [Prompt voice_prompt])
                  (set_stdin [] (initial [] ∅))).
Proof.
  apply (choose_voice_menu_number (Sample.world []) 1 (mkVoice None None)
           [] (initial [] ∅)).
  - reflexivity.
  - apply Nat.leb_le. reflexivity.
Defined.

(** X12: whatever is typed, [choose_voice] uses nothing but the console;
    an id it returns is the id of one of the engine's voices; it never
    fails with an index out of range: the only exceptions that leave it
    are [EOFError] and the [ValueError] of [int] on a line that passed
    [isdigit]. *)
Theorem choose_voice_outcome (w : World) (st : State) :
  console is_talk st (choose_voice w st).2
  ∧ match (choose_voice w st).1 with
    | Ok None => True
    | Ok (Some vid) =>
        ∃ i v, default [] (engine_voices w) !! i = Some v
               ∧ vid = str_or (v_id v) []
    | Raise e =>
        e = EOFError
        ∨ ∃ line, line ∈ stdin st
                  ∧ Str.isdigit (Str.strip line) = true
                  ∧ e = ValueError (IntOfStr (Str.strip line))
    end.
Proof.
  destruct (choose_voice w st) as [[[vid|]|e] st'] eqn:H; simpl.
  - split; [by eapply choose_voice_talk|].
    apply choose_voice_result in H as (i & item & Hi & ->).
    rewrite voice_items_lookup in Hi.
    destruct (default [] (engine_voices w) !! i) as [v|] eqn:Hv; [|done].
    injection Hi as <-. by exists i, v.
  - split; [by eapply choose_voice_talk | done].
  - split; [by eapply choose_voice_talk|].
    destruct (decide (voice_items w = [])) as [Hnil|Hne].
    + by rewrite choose_voice_no_voices in H.
    + rewrite choose_voice_menu in H by done.
      apply ask_from_raises in H as [->|(line & Hl & Ht)]; [by left|].
      right. exists line. split; [exact Hl|]. by eapply voice_round_throw.
Qed.

(** X13: the mode prompt has no limit on retries.  After any number of
    rejected lines the first accepted line decides: the menu was printed
    once, every rejected line got one prompt and one error message, and the
    lines after the accepted one are still unread. *)
Theorem choose_mode_retries (w : World) (bad : list str) (good m : str)
    (rest : list str) (st : State) :
  Forall (fun line => (mode_round w line).2 = Again) bad →
  (mode_round w good).2 = Return m →
  choose_mode w (set_stdin (bad ++ good :: rest) st)
  = (Ok m,
     add_events (mode_menu ++ rejections mode_prompt invalid_mode (length bad)
                 ++ [Prompt mode_prompt])
                (set_stdin rest st)).
Proof.
  intros Hbad Hgood. unfold choose_mode. do 4 run_with print_eq.
  rewrite !add_events_app, <- set_stdin_add_events.
  rewrite (ask_until_retries _ _ invalid_mode bad good m rest).
  - by rewrite set_stdin_add_events, add_events_app.
  - eapply Forall_impl; [exact Hbad|]. intros line Hl. cbv beta in Hl.
    pose proof (mode_round_verdict w line) as Hv.
    destruct (mode_round w line) as [printed step]. simpl in Hl. subst step.
    by rewrite Hv.
  - pose proof (mode_round_verdict w good) as Hv.
    destruct (mode_round w good) as [printed step]. simpl in Hgood.
    subst step. destruct Hv as [-> _]. done.
Qed.

(** The theorem on the lines "x", "rb" and then "r". *)
Lemma choose_mode_retries_witness :
  choose_mode (Sample.world [])
    (set_stdin [lit "x"; lit "rb"; lit "r"; lit "mp3"] (initial [] ∅))
  = (Ok (lit "R"),
     add_events (mode_menu ++ rejections mode_prompt invalid_mode 2
                 ++ [Prompt mode_prompt])
                (set_stdin [lit "mp3"] (initial [] ∅))).
Proof.
  apply (choose_mode_retries (Sample.world []) [lit "x"; lit "rb"]
           (lit "r") (lit "R") [lit "mp3"] (initial [] ∅)).
  - repeat constructor.
  - reflexivity.
Defined.

(** X14: every settings record [collect_settings] returns is well formed:
    the rate is 170 or lies in [80, 350], the mode is "S", "R" or "B", the
    format is "wav" or "mp3", and "mp3" only in a recording mode on a
    system with the transcoder; a voice id is the id of one of the engine's
    voices.  Collecting the settings uses nothing but the console. *)
Theorem collect_settings_well_formed (w : World) (st : State)
    (s : TTSSettings) (st' : State) :
  collect_settings w st = (Ok s, st') →
  (rate s = 170%Z ∨ (80 ≤ rate s ≤ 350)%Z)
  ∧ mode s ∈ [lit "S"; lit "R"; lit "B"]
  ∧ save_format s ∈ [lit "wav"; lit "mp3"]
  ∧ (save_format s = lit "mp3" →
       mode s ∈ [lit "R"; lit "B"] ∧ has_ffmpeg w = true)
  ∧ (∀ vid, voice_id s = Some vid →
       ∃ i v, default [] (engine_voices w) !! i = Some v
              ∧ vid = str_or (v_id v) [])
  ∧ console is_talk st st'.
Proof.
  intros H. pose proof (collect_settings_talk w _ _ _ H) as Hconsole.
  unfold collect_settings in H.
  apply bind_inv_ok in H as (vid & st1 & Hvoice & H).
  apply bind_inv_ok in H as (r & st2 & Hrate & H).
  apply bind_inv_ok in H as (m & st3 & Hmode & H).
  apply bind_inv_ok in H as (f & st4 & Hfmt & H).
  injection H as <- <-. cbn [rate mode save_format voice_id].
  apply choose_rate_result in Hrate. apply choose_mode_result in Hmode.
  split; [exact Hrate|]. split; [exact Hmode|].
  assert (Hf : f ∈ [lit "wav"; lit "mp3"]
               ∧ (f = lit "mp3" → m ∈ [lit "R"; lit "B"]
                                  ∧ has_ffmpeg w = true)).
  { destruct (Str.mem m [lit "R"; lit "B"]) eqn:Hm.
    - split; [by eapply choose_save_format_result|].
      intros ->. split; [by apply mem_elem_of|].
      unfold choose_save_format in Hfmt.
      destruct (has_ffmpeg w); [done|]. by injection Hfmt.
    - injection Hfmt as <- _. split; [left | done]. }
  split; [apply Hf|]. split; [apply Hf|]. split; [|exact Hconsole].
  intros vid' ->.
  apply choose_voice_result in Hvoice as (i & item & Hi & ->).
  rewrite voice_items_lookup in Hi.
  destruct (default [] (engine_voices w) !! i) as [v|] eqn:Hv; [|done].
  injection Hi as <-. by exists i, v.
Qed.

(** The theorem on a run that picks the first voice, rate 90, mode "b"
    and format "MP3". *)
Lemma collect_settings_well_formed_witness :
  let s := mkSettings (Some (lit "com.voice.alex")) 90 (lit "B") (lit "mp3") in
  (rate s = 170%Z ∨ (80 ≤ rate s ≤ 350)%Z)
  ∧ mode s ∈ [lit "S"; lit "R"; lit "B"]
  ∧ save_format s ∈ [lit "wav"; lit "mp3"].
Proof.
  intros s.
  destruct (collect_settings_well_formed (Sample.world [])
              (initial [lit "0"; lit "90"; lit "b"; lit "MP3"] ∅) s
              (collect_settings (Sample.world [])
                 (initial [lit "0"; lit "90"; lit "b"; lit "MP3"] ∅)).2)
    as (Hr & Hm & Hf & _).
  - vm_compute. reflexivity.
  - by split; [|split].
Defined.

(** * More on the engine and the files *)

(** X15: [configure_engine] sets the rate of the settings and full
    volume, sets the voice only when the settings hold a non-empty id (an
    empty id, as a voice without id gives, leaves the engine's voice as it
    is), and touches nothing else; configuring again with the same settings
    changes no property. *)
Theorem configure_engine_idempotent (s : TTSSettings) (st : State) :
  let st1 := (configure_engine s st).2 in
  let st2 := (configure_engine s st1).2 in
  (configure_engine s st).1 = Ok tt
  ∧ prop_rate (props st1) = Some (rate s)
  ∧ prop_volume (props st1) = Some (QArith_base.Qmake 1 1)
  ∧ prop_voice (props st1)
    = (if Str.is_empty (default [] (voice_id s)) then prop_voice (props st)
       else voice_id s)
  ∧ props st2 = props st1
  ∧ disk st1 = disk st ∧ queue st1 = queue st ∧ stdin st1 = stdin st.
Proof.
  intros st1 st2. subst st2 st1. rewrite !configure_engine_eq.
  cbn [fst snd]. autorewrite with state. rewrite configured_twice.
  repeat split; try done.
  unfold configured. cbn [prop_voice]. by destruct (voice_id s) as [[|c v]|].
Qed.

(** X16: [save_wav_chunks] returns one path per chunk, all of them
    different and all in the output directory, the [k]-th (from 0) named
    after the base name and the number [k + 1] written with at least three
    digits.  It only queues the work: no file is written by the call
    itself, and the engine's properties stay as they are. *)
Theorem save_wav_chunks_files (text base : str) (out : Path) (st : State) :
  ∃ files st',
    save_wav_chunks text base out st = (Ok files, st')
    ∧ length files = length (chunks_of text)
    ∧ NoDup files
    ∧ (∀ k p, files !! k = Some p →
         parent p = PathLib.to_str out
         ∧ name p = base ++ lit "_part" ++ Str.format_03d (S k) ++ lit ".wav")
    ∧ disk st' = disk st ∧ props st' = props st
    ∧ length (queue st') = (length (queue st) + length files)%nat.
Proof.
  rewrite save_wav_chunks_eq. cbv zeta. eexists _, _.
  split; [reflexivity|]. autorewrite with state.
  rewrite length_app. unfold save_commands.
  rewrite !length_map, length_enumerate.
  split; [done|]. split; [|split; [|done]].
  - rewrite <- (map_map fst (wav_path out base)), enumerate_numbers.
    apply NoDup_fmap_2_strong; [|apply NoDup_seq].
    intros i j _ _. apply wav_path_inj.
  - intros k p Hk.
    apply list_lookup_fmap_Some in Hk as ([i c] & -> & Hi).
    rewrite enumerate_lookup in Hi.
    destruct (chunks_of text !! k); by simplify_eq/=.
Qed.

(** X17: [convert_wav_to_mp3] on a chunk file runs the transcoder once
    and names the result after the WAV file, in the same directory, with
    the last suffix replaced, whatever dots the base name holds.  It
    returns that path when the exit code is zero and raises
    [CalledProcessError] otherwise; in both cases no file other than the
    MP3 file has changed, so the WAV file is as it was. *)
Theorem convert_wav_to_mp3_beside (w : World) (out : Path) (base : str)
    (idx : nat) (st : State) :
  let wav := wav_path out base idx in
  let mp3 := mkPath (PathLib.to_str out)
               (base ++ lit "_part" ++ Str.format_03d idx ++ lit ".mp3") in
  let code := (ffmpeg w wav (disk st !! wav)).1 in
  let st' := (convert_wav_to_mp3 w wav st).2 in
  (convert_wav_to_mp3 w wav st).1
  = (if (code =? 0)%Z then Ok mp3
     else Raise (CalledProcessError code (ffmpeg_argv wav mp3)))
  ∧ trace st' = trace st ++ [Subprocess (ffmpeg_argv wav mp3) code]
  ∧ mp3 ≠ wav
  ∧ (∀ p, p ≠ mp3 → disk st' !! p = disk st !! p).
Proof.
  intros wav mp3 code st'.
  assert (Hmp3 : PathLib.with_suffix wav (lit ".mp3") = mp3)
    by apply mp3_of_wav_path.
  subst st' code. unfold convert_wav_to_mp3. rewrite Hmp3.
  destruct (ffmpeg w wav (disk st !! wav)) as [code written] eqn:Hrun.
  cbn [fst snd].
  split; [by destruct (code =? 0)%Z|].
  split; [by destruct (code =? 0)%Z|].
  split; [rewrite <- Hmp3; apply mp3_of_not_wav|].
  intros p Hp. destruct (code =? 0)%Z; cbn [snd]; autorewrite with state;
    (destruct written; [by rewrite lookup_insert_ne | done]).
Qed.

(** X19: when the user closes the file dialog without a file, [main] ends
    with the message "No PDF selected. Exiting." and has done nothing but
    show the dialog: nothing was printed or read, no engine was initialised
    and no file was touched. *)
Theorem no_pdf_selected_exits (w : World) (st : State) :
  dialog_result w = [] →
  main w st = (Raise (SystemExit no_pdf_message), add_events [FileDialog] st).
Proof.
  intros H. unfold main. erewrite bind_raise; [reflexivity|].
  unfold main_setup. run_with pick_pdf_file_eq. by rewrite H.
Qed.

Lemma no_pdf_selected_exits_witness :
  main (dialog_cancelled (Sample.world Sample.three_pages))
       (initial [lit "0"] ∅)
  = (Raise (SystemExit no_pdf_message),
     add_events [FileDialog] (initial [lit "0"] ∅)).
Proof. by apply no_pdf_selected_exits. Defined.

Section Phases.

Context (w : World).

(** The speaking phase on an engine that is already configured. *)
Lemma main_speak_eq s text st :
  queue st = [] → props st = configured s (mkProps None None None) →
  main_speak w s text st
  = (Ok tt, if Str.mem (mode s) [lit "S"; lit "B"]
            then add_events (speaking_events s text) st else st).
Proof.
  intros Hq Hp. unfold main_speak.
  destruct (Str.mem (mode s) _); [|done].
  run_with print_eq. unfold engine_init. run_with emit_eq.
  run_with configure_engine_eq. rewrite speak_text_eq by done.
  f_equal. rewrite !add_events_app. autorewrite with state.
  rewrite Hp, configured_twice.
  apply state_ext; autorewrite with state; try done.
  unfold speaking_events. by rewrite <- !app_assoc.
Qed.

(** In a mode without recording the recording phase does nothing. *)
Lemma main_record_skipped s text base out st :
  mode s ∉ [lit "R"; lit "B"] →
  main_record w s text base out st = (Ok [], st).
Proof.
  intros H. unfold main_record.
  destruct (Str.mem (mode s) _) eqn:Hm; [|done].
  by apply mem_elem_of in Hm.
Qed.

End Phases.

(** X20: a run in mode "S" after the settings are collected: [main]
    returns normally and all it does is speak.  The chunks of the text are
    queued in order and spoken in order with the rate, volume and voice
    of the settings; no directory is made, no file written, no transcoder
    run and no report printed. *)
Theorem speak_only_run (w : World) (lines : list str)
    (files0 : gmap Path (list N)) (pdf : Path) (text : str)
    (s : TTSSettings) (st1 : State) :
  main_setup w (initial lines files0) = (Ok (pdf, text, s), st1) →
  mode s = lit "S" →
  main w (initial lines files0)
  = (Ok tt, add_events (speaking_events s text) st1)
  ∧ disk st1 = files0
  ∧ chunks_of text ≠ [].
Proof.
  intros Hsetup Hmode.
  destruct (main_setup_ok _ _ _ _ _ _ Hsetup) as (Hne & Ht & Hd & Hq & Hp & _).
  split; [|split; [exact Hd | by apply chunks_of_nonempty]].
  unfold main. rewrite (bind_ok _ _ _ _ _ Hsetup), main_run_eq.
  erewrite bind_ok;
    [|apply main_record_skipped; rewrite Hmode; by vm_compute; intros H;
      repeat (apply elem_of_cons in H as [H|H]; [discriminate H|]);
      apply elem_of_nil in H].
  erewrite bind_ok; [|by apply main_speak_eq].
  rewrite Hmode. change (Str.mem (lit "S") _) with true. cbv iota.
  rewrite main_report_eq. unfold report.
  rewrite bool_decide_eq_true_2 by done. by rewrite add_events_nil.
Qed.

(** The theorem on the three sample pages, spoken with the defaults. *)
Lemma speak_only_run_witness :
  let w := Sample.world Sample.three_pages in
  let s := mkSettings None 170 (lit "S") (lit "wav") in
  let text := lit "Hello world." ++ newline ++ lit "Goodbye." in
  let st1 := (main_setup w (initial [[]; []; []] ∅)).2 in
  main w (initial [[]; []; []] ∅)
  = (Ok tt, add_events (speaking_events s text) st1)
  ∧ disk st1 = ∅
  ∧ chunks_of text ≠ [].
Proof.
  intros w s text st1.
  apply (speak_only_run w [[]; []; []] ∅ Sample.book text s st1).
  - vm_compute. reflexivity.
  - reflexivity.
Defined.

(** X21: a recording run in which the transcoder, if used, exits with
    zero on every chunk, from the settings on.  First everything is
    recorded (the WAV files are queued, the queue is run, then the files
    are converted one by one if the format is "mp3"); only then, and only
    in mode "B", the chunks are spoken, the same chunks in the same order
    and with the same rate, volume and voice; the report comes last.  In
    mode "R" nothing is spoken. *)
Theorem recording_run_events (w : World) (lines : list str)
    (files0 : gmap Path (list N)) (pdf : Path) (text : str)
    (s : TTSSettings) (st1 : State) :
  main_setup w (initial lines files0) = (Ok (pdf, text, s), st1) →
  mode s ∈ [lit "R"; lit "B"] →
  (save_format s = lit "mp3" →
   Forall (fun file => (ffmpeg w file.1 (Some file.2)).1 = 0%Z)
          (recordings w s pdf text)) →
  ∃ st',
    main w (initial lines files0) = (Ok tt, st')
    ∧ trace st'
      = trace st1
        ++ recording_events s (out_dir_of w) (PathLib.stem pdf)
             (enumerate (chunks_of text) 1)
        ++ transcoding_events w s pdf text
        ++ (if Str.eqb (mode s) (lit "B") then speaking_events s text else [])
        ++ map Print (report (saved_files w s pdf text) (out_dir_of w))
    ∧ map snd (recordings w s pdf text)
      = map (tts w (configured s (mkProps None None None))) (chunks_of text).
Proof.
  intros Hsetup Hmode Hok.
  destruct (main_setup_ok _ _ _ _ _ _ Hsetup) as (_ & _ & Hd & Hq & Hp & _).
  pose proof (setup_recordings _ _ _ _ _ _ _ Hsetup) as Hfiles.
  assert (Hspeak : Str.mem (mode s) [lit "S"; lit "B"]
                   = Str.eqb (mode s) (lit "B")).
  { apply elem_of_cons in Hmode as [->|Hmode]; [done|].
    apply list_elem_of_singleton in Hmode as ->. done. }
  assert (Hsnd : map snd (recordings w s pdf text)
                 = map (tts w (configured s (mkProps None None None)))
                       (chunks_of text)).
  { unfold recordings, enumerate. rewrite map_map. cbn [snd].
    rewrite <- (map_map snd (tts w _)). f_equal.
    apply snd_zip. rewrite length_seq. lia. }
  assert (Hrun : ∃ st2,
    main_record w s text (PathLib.stem pdf) (out_dir_of w) st1
    = (Ok (saved_files w s pdf text), st2)
    ∧ queue st2 = [] ∧ props st2 = configured s (mkProps None None None)
    ∧ trace st2
      = trace st1
        ++ recording_events s (out_dir_of w) (PathLib.stem pdf)
             (enumerate (chunks_of text) 1)
        ++ transcoding_events w s pdf text).
  { unfold saved_files, transcoding_events, Str.eqb.
    destruct (decide (save_format s = lit "mp3")) as [Hfmt|Hfmt].
    - pose proof (main_record_mp3 w s text (PathLib.stem pdf) (out_dir_of w)
                    st1 Hmode Hq Hfmt) as H.
      cbv zeta in H. rewrite Hfiles in H. specialize (H (Hok Hfmt)).
      rewrite bool_decide_eq_true_2 by done.
      eexists. split; [exact H|]. autorewrite with state.
      rewrite Hp, configured_twice. done.
    - pose proof (main_record_wav w s text (PathLib.stem pdf) (out_dir_of w)
                    st1 Hmode Hq Hfmt) as H.
      cbv zeta in H. rewrite Hfiles in H.
      rewrite bool_decide_eq_false_2 by done.
      eexists. split; [exact H|]. autorewrite with state.
      rewrite Hp, configured_twice, app_nil_r. done. }
  destruct Hrun as (st2 & Hrun & Hq2 & Hp2 & Ht2).
  unfold main. rewrite (bind_ok _ _ _ _ _ Hsetup), main_run_eq.
  rewrite (bind_ok _ _ _ _ _ Hrun).
  erewrite bind_ok; [|by apply main_speak_eq].
  rewrite main_report_eq, Hspeak. eexists. split; [reflexivity|].
  split; [|exact Hsnd].
  destruct (Str.eqb (mode s) (lit "B")); autorewrite with state;
    rewrite Ht2, <- !app_assoc; [done|].
  by rewrite app_nil_l.
Qed.

(** The theorem on a text of 1300 letters recorded as MP3 and spoken. *)
Lemma recording_run_events_witness :
  let w := Sample.world (Sample.letters 1300) in
  let s := mkSettings None 170 (lit "B") (lit "mp3") in
  let text := repeat 0x61 1300 in
  let lines := [[]; []; lit "b"; lit "mp3"] in
  let st1 := (main_setup w (initial lines ∅)).2 in
  ∃ st',
    main w (initial lines ∅) = (Ok tt, st')
    ∧ trace st'
      = trace st1
        ++ recording_events s (out_dir_of w) (PathLib.stem Sample.book)
             (enumerate (chunks_of text) 1)
        ++ transcoding_events w s Sample.book text
        ++ (if Str.eqb (mode s) (lit "B") then speaking_events s text else [])
        ++ map Print (report (saved_files w s Sample.book text) (out_dir_of w))
    ∧ map snd (recordings w s Sample.book text)
      = map (tts w (configured s (mkProps None None None))) (chunks_of text).
Proof.
  intros w s text lines st1.
  apply (recording_run_events w lines ∅ Sample.book text s st1).
  - vm_compute. reflexivity.
  - right. left.
  - intros _. vm_compute. repeat constructor.
Defined.

(** * Where the program writes *)

Section Frame.

Context (w : World) (dir : str).

Lemma writes_in_quiet {A} (m : M A) :
  quiet m → writes_in dir m (fun _ => True).
Proof.
  intros Hm st r st' H Hq. destruct (Hm _ _ _ H) as [Hd Hqu].
  unfold queue_in. rewrite Hd, Hqu. done.
Qed.

Lemma writes_in_weaken {A} (m : M A) (P Q : A → Prop) :
  (∀ a, P a → Q a) → writes_in dir m P → writes_in dir m Q.
Proof.
  intros HPQ Hm st r st' H Hq. destruct (Hm _ _ _ H Hq) as (? & ? & HP).
  repeat split; try done. intros a ->. by apply HPQ, HP.
Qed.

Lemma writes_in_bind {A B} (m : M A) (f : A → M B) P Q :
  writes_in dir m P → (∀ a, P a → writes_in dir (f a) Q) →
  writes_in dir (m ≫= f) Q.
Proof.
  intros Hm Hf st r st'. unfold mbind, M_bind.
  destruct (m st) as [[a|e] st1] eqn:E; intros H Hq;
    destruct (Hm _ _ _ E Hq) as (Hq1 & Hd1 & HP).
  - destruct (Hf a (HP a eq_refl) _ _ _ H Hq1) as (Hq2 & Hd2 & HQ).
    repeat split; try done. intros p Hp. by rewrite Hd2, Hd1.
  - injection H as <- <-. by repeat split.
Qed.

Lemma writes_in_ret {A} (a : A) (P : A → Prop) :
  P a → writes_in dir (mret a) P.
Proof. intros Ha st r st' [= <- <-] Hq. repeat split; try done. by intros ? [= <-]. Qed.

Lemma writes_in_raise {A} e (P : A → Prop) : writes_in dir (raise e) P.
Proof. intros st r st' [= <- <-] Hq. by repeat split. Qed.

Lemma writes_in_for_each {A B} (l : list A) (acc : B) body :
  (∀ acc x, x ∈ l → writes_in dir (body acc x) (fun _ => True)) →
  writes_in dir (for_each l acc body) (fun _ => True).
Proof.
  revert acc. induction l as [|x l IH]; intros acc H.
  - by apply writes_in_ret.
  - rewrite for_each_cons. eapply writes_in_bind.
    + apply H. by left.
    + intros acc' _. apply IH. intros ? ? ?. apply H. by right.
Qed.

Lemma quiet_console {A} P (m : M A) : console_only P m → quiet m.
Proof. intros Hm st r st' H. by destruct (Hm _ _ _ H) as (? & ? & _). Qed.

Lemma quiet_emit e : quiet (emit e).
Proof. by intros st r st' [= <- <-]. Qed.

Lemma quiet_configure_engine s : quiet (configure_engine s).
Proof. intros st r st'. rewrite configure_engine_eq. by intros [= <- <-]. Qed.

Lemma quiet_lift {A} (r : Result A) : quiet (lift r).
Proof. by intros st r' st' [= <- <-]. Qed.

Lemma quiet_extract_pdf_text pdf : quiet (extract_pdf_text w pdf).
Proof. intros st r st'. rewrite extract_pdf_text_eq. by intros [= <- <-]. Qed.

Lemma quiet_pick_pdf_file : quiet (pick_pdf_file w).
Proof. intros st r st'. rewrite pick_pdf_file_eq. by intros [= <- <-]. Qed.

(** Carrying out a queue that writes into [dir] changes nothing outside. *)
Lemma perform_queue_in q st p :
  Forall (fun c => match c with
                   | ToFile _ f => parent f = dir
                   | Speak _ => True
                   end) q →
  parent p ≠ dir →
  disk (fold_left (fun s c => perform w c s) q st) !! p = disk st !! p.
Proof.
  intros Hq Hp. revert st. induction Hq as [|c q Hc _ IH]; intros st; [done|].
  simpl. rewrite IH. destruct c as [text f|text]; [|done].
  simpl. apply lookup_insert_ne. congruence.
Qed.

Lemma writes_in_run_and_wait : writes_in dir (run_and_wait w) (fun _ => True).
Proof.
  intros st r st' [= <- <-] Hq. split; [constructor|]. split; [|done].
  intros p Hp. autorewrite with state. by rewrite perform_queue_in.
Qed.

Lemma writes_in_say text : writes_in dir (say text) (fun _ => True).
Proof.
  intros st r st' [= <- <-] Hq. split; [|by split].
  unfold queue_in. autorewrite with state.
  apply Forall_app. split; [exact Hq | by repeat constructor].
Qed.

Lemma writes_in_speak_text text :
  writes_in dir (speak_text w text) (fun _ => True).
Proof.
  unfold speak_text. eapply writes_in_bind.
  - apply writes_in_quiet, quiet_lift.
  - intros chunks _. eapply writes_in_bind.
    + apply writes_in_for_each. intros _ part _. apply writes_in_say.
    + intros _ _. apply writes_in_run_and_wait.
Qed.

Lemma writes_in_main_speak s text :
  writes_in dir (main_speak w s text) (fun _ => True).
Proof.
  unfold main_speak. destruct (Str.mem _ _); [|by apply writes_in_ret].
  eapply writes_in_bind; [apply writes_in_quiet, quiet_emit|]. intros _ _.
  eapply writes_in_bind; [apply writes_in_quiet, quiet_emit|]. intros _ _.
  eapply writes_in_bind; [apply writes_in_quiet, quiet_configure_engine|].
  intros _ _. apply writes_in_speak_text.
Qed.

Lemma writes_in_main_report saved out :
  writes_in dir (main_report saved out) (fun _ => True).
Proof.
  apply writes_in_for_each. intros _ line _. apply writes_in_quiet, quiet_emit.
Qed.

Lemma writes_in_main_setup :
  writes_in dir (main_setup w) (fun _ => True).
Proof.
  unfold main_setup.
  eapply writes_in_bind; [apply writes_in_quiet, quiet_pick_pdf_file|].
  intros [pdf|] _; [|apply writes_in_raise].
  eapply writes_in_bind; [apply writes_in_quiet, quiet_emit|]. intros _ _.
  eapply writes_in_bind; [apply writes_in_quiet, quiet_extract_pdf_text|].
  intros text _. destruct (Str.is_empty text); [apply writes_in_raise|].
  eapply writes_in_bind; [apply writes_in_quiet, quiet_emit|]. intros _ _.
  eapply writes_in_bind; [apply writes_in_quiet, quiet_emit|]. intros _ _.
  eapply writes_in_bind;
    [apply writes_in_quiet, (quiet_console is_talk), collect_settings_talk|].
  intros s _.
  eapply writes_in_bind; [apply writes_in_quiet, quiet_configure_engine|].
  intros _ _. by apply writes_in_ret.
Qed.

End Frame.

Section FrameOfRecording.

Context (w : World) (out : Path).

Lemma with_suffix_parent p suffix :
  parent (PathLib.with_suffix p suffix) = parent p.
Proof. unfold PathLib.with_suffix. by destruct (PathLib.suffix_start _). Qed.

Lemma writes_in_save_wav_chunks text base :
  writes_in (PathLib.to_str out) (save_wav_chunks text base out)
            (Forall (fun p => parent p = PathLib.to_str out)).
Proof.
  intros st r st'. rewrite save_wav_chunks_eq. cbv zeta.
  intros [= <- <-] Hq. split; [|split].
  - unfold queue_in. autorewrite with state.
    apply Forall_app. split; [exact Hq|].
    unfold save_commands. apply Forall_fmap, Forall_true. by intros item.
  - intros p _. by autorewrite with state.
  - intros files [= <-]. apply Forall_fmap, Forall_true. by intros item.
Qed.

Lemma writes_in_convert_next saved wav :
  parent wav = PathLib.to_str out →
  writes_in (PathLib.to_str out) (convert_next w saved wav) (fun _ => True).
Proof.
  intros Hwav. unfold convert_next. eapply writes_in_bind.
  - intros st r st' H Hq. unfold convert_wav_to_mp3 in H.
    destruct (ffmpeg w wav (disk st !! wav)) as [code written].
    assert (Hst : st' = add_events
                    [Subprocess (ffmpeg_argv wav
                                   (PathLib.with_suffix wav (lit ".mp3"))) code]
                    (set_disk
                       match written with
                       | Some a =>
                           <[PathLib.with_suffix wav (lit ".mp3") := a]>
                             (disk st)
                       | None => disk st
                       end st))
      by (destruct (code =? 0)%Z; by injection H).
    subst st'. split; [exact Hq|]. split; [|by instantiate (1 := fun _ => True)].
    intros p Hp. autorewrite with state. destruct written; [|done].
    apply lookup_insert_ne. intros E. apply Hp.
    by rewrite <- E, with_suffix_parent.
  - intros mp3 _. by apply writes_in_ret.
Qed.

Lemma writes_in_main_record s text base :
  writes_in (PathLib.to_str out) (main_record w s text base out)
            (fun _ => True).
Proof.
  unfold main_record. destruct (Str.mem _ _); [|by apply writes_in_ret].
  eapply writes_in_bind; [apply writes_in_quiet, quiet_emit|]. intros _ _.
  eapply writes_in_bind; [apply writes_in_quiet, quiet_emit|]. intros _ _.
  eapply writes_in_bind; [apply writes_in_quiet, quiet_configure_engine|].
  intros _ _.
  eapply writes_in_bind; [apply writes_in_save_wav_chunks|].
  intros files Hfiles.
  eapply writes_in_bind; [apply writes_in_run_and_wait|]. intros _ _.
  destruct (Str.eqb _ _); [|by apply writes_in_ret].
  eapply writes_in_bind; [apply writes_in_quiet, quiet_emit|]. intros _ _.
  apply writes_in_for_each. intros saved wav Hwav.
  apply writes_in_convert_next.
  rewrite Forall_forall in Hfiles. by apply Hfiles.
Qed.

End FrameOfRecording.

(** X18: whatever the user types and however the run ends, [main] changes
    no file outside the output directory [output_audio] of the working
    directory: every other file is after the run what it was before. *)
Theorem main_writes_in_output_dir (w : World) (lines : list str)
    (files0 : gmap Path (list N)) (p : Path) :
  parent p ≠ PathLib.to_str (out_dir_of w) →
  disk (main w (initial lines files0)).2 !! p = files0 !! p.
Proof.
  intros Hp.
  assert (H : writes_in (PathLib.to_str (out_dir_of w)) (main w)
                        (fun _ => True)).
  { unfold main. eapply writes_in_bind; [apply writes_in_main_setup|].
    intros [[pdf text] s] _. rewrite main_run_eq.
    eapply writes_in_bind; [apply writes_in_main_record|]. intros saved _.
    eapply writes_in_bind; [apply writes_in_main_speak|]. intros _ _.
    apply writes_in_main_report. }
  destruct (main w (initial lines files0)) as [r st'] eqn:E.
  destruct (H _ _ _ E) as (_ & Hd & _); [constructor|].
  by apply Hd.
Qed.

(** The theorem for the PDF itself in a run that records two chunks as
    MP3: the PDF is on disk as before. *)
Lemma main_writes_in_output_dir_witness :
  let w := Sample.world (Sample.letters 1300) in
  disk (main w (initial [[]; []; lit "r"; lit "mp3"]
                  {[Sample.book := [1; 2; 3]]})).2 !! Sample.book
  = Some [1; 2; 3].
Proof.
  intros w.
  rewrite (main_writes_in_output_dir w [[]; []; lit "r"; lit "mp3"]
             {[Sample.book := [1; 2; 3]]} Sample.book).
  - apply lookup_singleton_eq.
  - vm_compute. discriminate.
Defined.

(** X22: the report at the end of [main] is short whatever the number of
    saved files.  It is empty exactly when nothing was saved; up to ten
    files it is the count line followed by the name of every file; beyond
    ten files it has twelve lines, the last of which is " ...". *)
Theorem report_bounded (saved : list Path) (out : Path) :
  (length (report saved out) ≤ 12)%nat
  ∧ (report saved out = [] ↔ saved = [])
  ∧ (saved ≠ [] → (length saved ≤ 10)%nat →
       report saved out
       = saved_line (length saved) out :: map name_line saved)
  ∧ ((10 < length saved)%nat →
       length (report saved out) = 12%nat
       ∧ last (report saved out) = Some ellipsis_line).
Proof.
  destruct (decide (saved = [])) as [->|Hne].
  - split; [simpl; lia|]. split; [done|]. split; [done|]. simpl. lia.
  - rewrite report_lines by done.
    split; [|split; [done|split]].
    + cbn [length]. rewrite length_app, length_map, length_take.
      destruct (10 <? length saved)%nat; cbn [length]; lia.
    + intros _ Hlen. destruct (Nat.ltb_spec 10 (length saved)); [lia|].
      by rewrite app_nil_r, take_ge.
    + intros Hlen. destruct (Nat.ltb_spec 10 (length saved)); [|lia].
      split.
      * cbn [length]. rewrite length_app, length_map, length_take.
        cbn [length]. lia.
      * change (?x :: ?l ++ [?y]) with ((x :: l) ++ [y]). apply last_snoc.
Qed.
